(** * String case conversion helpers: kebab-case, camelCase, dot.case

    A shallow embedding of the four JavaScript functions of the repository

      - [Kebab.toKebabCase]    (kebab-case, lenient on non-strings),
      - [Strict.toCamelCase]   (refined_prompt.js; thrown [TypeError],
                                optional acronym preservation),
      - [Dot.toDotCase]        (dot.case, thrown [TypeError]),
      - [Lenient.toCamelCase]  (the short camelCase variant, lenient),

    together with the properties of them that the specification states.

    JavaScript strings are sequences of UTF-16 code units, and none of the
    regular expressions of the source carries the [u] flag, so every
    character class below is a predicate on one code unit. *)

From Stdlib Require Import List NArith Bool Arith Lia Ascii String.
Import ListNotations.

Local Open Scope N_scope.

(** ** Strings and values *)

(** A UTF-16 code unit, and a JavaScript string. *)
Definition char16 := N.
Definition jsstring := list char16.

(** An ASCII literal read as a JavaScript string. *)
Definition js (s : string) : jsstring := map N_of_ascii (list_ascii_of_string s).

(** The JavaScript values the functions can be called with, as far as
    [typeof] tells them apart. *)
Inductive value : Type :=
| VUndefined
| VNull
| VBoolean (b : bool)
| VNumber (n : Z)
| VString (s : jsstring)
| VObject.

Inductive jstype : Type := TyUndefined | TyObject | TyBoolean | TyNumber | TyString.

Definition typeof (v : value) : jstype :=
  match v with
  | VUndefined => TyUndefined
  | VNull => TyObject
  | VBoolean _ => TyBoolean
  | VNumber _ => TyNumber
  | VString _ => TyString
  | VObject => TyObject
  end.

(** The exceptions of a call, and its outcome: the [TypeError] that the
    source throws, with its message, and the [TypeError] that the engine
    raises itself when [null] is destructured, whose message is the
    engine's. *)
Inductive exn : Type :=
| TypeError (message : jsstring)
| EngineTypeError.

Inductive result : Type :=
| Return (s : jsstring)
| Throw (e : exn).

Definition is_empty (s : jsstring) : bool :=
  match s with [] => true | _ :: _ => false end.

(** [Boolean(s)] for a string: the empty string is the only falsy one. *)
Definition truthy (s : jsstring) : bool := negb (is_empty s).

(** ** Character classes of the regular expressions *)

Definition in_range (lo hi c : N) : bool := (lo <=? c) && (c <=? hi).

(** [[a-z]], [[A-Z]], [[0-9]]. *)
Definition is_lower (c : char16) : bool := in_range 97 122 c.
Definition is_upper (c : char16) : bool := in_range 65 90 c.
Definition is_digit (c : char16) : bool := in_range 48 57 c.

(** [[a-z0-9]] and [[a-zA-Z0-9]]. *)
Definition is_lower_or_digit (c : char16) : bool := is_lower c || is_digit c.
Definition is_alnum (c : char16) : bool := is_lower c || is_upper c || is_digit c.

(** [[A-Z0-9]], the class of the acronym test. *)
Definition is_upper_or_digit (c : char16) : bool := is_upper c || is_digit c.

Definition SPACE : char16 := 32.
Definition HYPHEN : char16 := 45.
Definition DOT : char16 := 46.
Definition UNDERSCORE : char16 := 95.

(** [\s]: ECMAScript WhiteSpace and LineTerminator code units.  It is also
    the set that [String.prototype.trim] strips. *)
Definition is_space (c : char16) : bool :=
  in_range 9 13 c || (c =? 32) || (c =? 160) || (c =? 5760)
  || in_range 8192 8202 c || (c =? 8232) || (c =? 8233) || (c =? 8239)
  || (c =? 8287) || (c =? 12288) || (c =? 65279).

(** [[\s_\-]]: the separators of kebab-case and camelCase. *)
Definition is_sep (c : char16) : bool :=
  is_space c || (c =? UNDERSCORE) || (c =? HYPHEN).

(** [[\s_\-\.]]: the separators of dot.case. *)
Definition is_dotsep (c : char16) : bool := is_sep c || (c =? DOT).

(** The complement of [[^a-zA-Z0-9\s-]]: what kebab-case keeps. *)
Definition kebab_keep (c : char16) : bool :=
  is_alnum c || is_space c || (c =? HYPHEN).

(** ** String primitives *)

Fixpoint drop_while (p : char16 -> bool) (s : jsstring) : jsstring :=
  match s with
  | [] => []
  | c :: t => if p c then drop_while p t else s
  end.

(** [s.trim()]. *)
Definition trim (s : jsstring) : jsstring :=
  rev (drop_while is_space (rev (drop_while is_space s))).

(** [s.replace(/(L)([A-Z])/g, '$1 $2')] for a one-character class [L]: the
    scan is left to right, and a match consumes both characters. *)
Fixpoint replace_camel (L : char16 -> bool) (s : jsstring) : jsstring :=
  match s with
  | [] => []
  | x :: t =>
      match t with
      | y :: r =>
          if L x && is_upper y then x :: SPACE :: y :: replace_camel L r
          else x :: replace_camel L t
      | [] => [x]
      end
  end.

(** One attempt of [/([A-Z]+)([A-Z][a-z])/] at the start of [s]: the two
    groups and the rest of the string.  [[A-Z]+] is greedy: the longer run
    is tried first (the recursive call), and the run ends at [x] only when
    that fails. *)
Fixpoint re_acronym_exec (s : jsstring)
  : option (jsstring * jsstring * jsstring) :=
  match s with
  | [] => None
  | x :: t =>
      if is_upper x then
        match re_acronym_exec t with
        | Some (g1, g2, rest) => Some (x :: g1, g2, rest)
        | None =>
            match t with
            | y :: z :: rest =>
                if is_upper y && is_lower z then Some ([x], [y; z], rest)
                else None
            | _ => None
            end
        end
      else None
  end.

(** [s.replace(/([A-Z]+)([A-Z][a-z])/g, '$1 $2')]: at each position the
    match is attempted; after a match the scan resumes behind it, otherwise
    one character is copied.  [fuel] bounds the number of positions. *)
Fixpoint replace_acronym_from (fuel : nat) (s : jsstring) : jsstring :=
  match fuel with
  | O => s
  | S k =>
      match re_acronym_exec s with
      | Some (g1, g2, rest) =>
          g1 ++ SPACE :: g2 ++ replace_acronym_from k rest
      | None =>
          match s with
          | [] => []
          | c :: t => c :: replace_acronym_from k t
          end
      end
  end.

Definition replace_acronym (s : jsstring) : jsstring :=
  replace_acronym_from (List.length s) s.

(** [s.replace(/[sep]+/g, ' ')]: every maximal run of separators becomes
    one space.  [in_run] tells that the run has already been replaced. *)
Fixpoint replace_runs_from (sep : char16 -> bool) (in_run : bool)
  (s : jsstring) : jsstring :=
  match s with
  | [] => []
  | c :: t =>
      if sep c then
        if in_run then replace_runs_from sep true t
        else SPACE :: replace_runs_from sep true t
      else c :: replace_runs_from sep false t
  end.

Definition replace_runs (sep : char16 -> bool) (s : jsstring) : jsstring :=
  replace_runs_from sep false s.

(** [s.split(d)] for a one-character string [d]. *)
Fixpoint split_on (d : char16) (s : jsstring) : list jsstring :=
  match s with
  | [] => [[]]
  | c :: t =>
      if c =? d then [] :: split_on d t
      else
        match split_on d t with
        | w :: ws => (c :: w) :: ws
        | [] => [[c]]
        end
  end.

(** [s.split(/[sep]+/)]: the pieces between the maximal runs. *)
Fixpoint split_runs_from (sep : char16 -> bool) (in_run : bool)
  (s : jsstring) : list jsstring :=
  match s with
  | [] => [[]]
  | c :: t =>
      if sep c then
        if in_run then split_runs_from sep true t
        else [] :: split_runs_from sep true t
      else
        match split_runs_from sep false t with
        | w :: ws => (c :: w) :: ws
        | [] => [[c]]
        end
  end.

Definition split_runs (sep : char16 -> bool) (s : jsstring) : list jsstring :=
  split_runs_from sep false s.

(** [words.join(d)]. *)
Fixpoint join (d : jsstring) (ws : list jsstring) : jsstring :=
  match ws with
  | [] => []
  | w :: rest =>
      match rest with
      | [] => w
      | _ :: _ => w ++ d ++ join d rest
      end
  end.

(** [/^[sep]+$/.test(s)]. *)
Definition only (sep : char16 -> bool) (s : jsstring) : bool :=
  truthy s && forallb sep s.

(** [words.map((word, i) => f(word, i))]. *)
Fixpoint mapi_from {A B : Type} (i : nat) (f : A -> nat -> B) (l : list A)
  : list B :=
  match l with
  | [] => []
  | a :: t => f a i :: mapi_from (S i) f t
  end.

Definition mapi {A B : Type} (f : A -> nat -> B) (l : list A) : list B :=
  mapi_from 0 f l.

(** [s.charAt(0)] and [s.slice(1)]. *)
Definition charAt0 (s : jsstring) : jsstring := firstn 1 s.
Definition slice1 (s : jsstring) : jsstring := skipn 1 s.

(** ** Case mapping

    [toLowerCase] and [toUpperCase] are the engine's Unicode case mappings,
    which are tables outside the repository.  They map strings to strings
    (one code unit may become several, and the lower-case sigma depends on
    its context), so they are taken as two functions on strings, with the
    properties of the Unicode mappings that the proofs rely on. *)

Definition ascii_lower (c : char16) : char16 := if is_upper c then c + 32 else c.
Definition ascii_upper (c : char16) : char16 := if is_lower c then c - 32 else c.

(** ASCII code units and white space: their case mapping is the ASCII one. *)
Definition is_plain (c : char16) : bool := (c <? 128) || is_space c.

(** Code units that no case mapping produces unless they were there:
    white space and the ASCII characters that are not letters. *)
Definition is_caseless (c : char16) : bool :=
  is_space c || ((c <? 128) && negb (is_lower c) && negb (is_upper c)).

Class CaseMapping : Type := {
  toLowerCase : jsstring -> jsstring;
  toUpperCase : jsstring -> jsstring;
  lower_plain : forall s,
    forallb is_plain s = true -> toLowerCase s = map ascii_lower s;
  upper_plain : forall s,
    forallb is_plain s = true -> toUpperCase s = map ascii_upper s;
  lower_fresh : forall s c,
    In c (toLowerCase s) -> is_caseless c = true -> In c s;
  upper_fresh : forall s c,
    In c (toUpperCase s) -> is_caseless c = true -> In c s;
  lower_no_upper : forall s c, In c (toLowerCase s) -> is_upper c = false;
  lower_idem : forall s, toLowerCase (toLowerCase s) = toLowerCase s;
  lower_nonempty : forall s, toLowerCase s = [] -> s = []
}.

(** ** toKebabCase *)

Module Kebab.
Section WithCaseMapping.
Context {cm : CaseMapping}.

(** The words of [toKebabCase]: the value of [words] in the source, for the
    trimmed string [str]. *)
Definition words (str : jsstring) : list jsstring :=
  let str := replace_camel is_lower_or_digit str in
  let str := map (fun c => if c =? UNDERSCORE then SPACE else c) str in
  let str := filter kebab_keep str in
  let str := replace_runs is_sep str in
  filter truthy (split_on SPACE str).

Definition toKebabCase (input : value) : result :=
  match input with
  | VString input =>
      if is_empty (trim input) then Return []
      else
        let words := words (trim input) in
        if (List.length words =? 0)%nat then Return []
        else Return (toLowerCase (join [HYPHEN] words))
  | _ => Return []
  end.

End WithCaseMapping.
End Kebab.

(** ** The strict toCamelCase (refined_prompt.js, and its copy) *)

Record options : Type := { preserveAcronyms : option bool }.

(** [options = {}] and [{ preserveAcronyms: b }]. *)
Definition no_options : options := {| preserveAcronyms := None |}.
Definition preserving (b : bool) : options := {| preserveAcronyms := Some b |}.

(** The second argument of a call [toCamelCase(input, options)]: left out
    or [undefined], [null], or any other value, which is read through its
    property [preserveAcronyms] (a boolean, a number or a string has
    none). *)
Inductive argument : Type :=
| ArgUndefined
| ArgNull
| ArgValue (opts : options).

Module Strict.
Section WithCaseMapping.
Context {cm : CaseMapping}.

Definition splitCamel (word : jsstring) : list jsstring :=
  split_on SPACE
    (replace_camel is_lower_or_digit (replace_acronym word)).

(** The value of [resultWords] for the trimmed string [str]. *)
Definition resultWords (str : jsstring) : list jsstring :=
  let words := split_runs is_sep (replace_camel is_lower str) in
  flat_map
    (fun word =>
       if is_empty word then []
       else filter truthy (splitCamel word))
    words.

(** The callback of [resultWords.map]. *)
Definition build (preserve : bool) (word : jsstring) (i : nat) : jsstring :=
  if preserve && only is_upper_or_digit word && (1 <? List.length word)%nat
  then (if (i =? 0)%nat then toLowerCase word else word)
  else
    let lower := toLowerCase word in
    if (i =? 0)%nat then lower
    else toUpperCase (charAt0 lower) ++ slice1 lower.

Definition toCamelCase (input : value) (opts : options) : result :=
  let preserve :=
    match preserveAcronyms opts with Some b => b | None => false end in
  match input with
  | VString input =>
      let str := trim input in
      if is_empty str || only is_sep str then Return []
      else
        let resultWords := resultWords str in
        if (List.length resultWords =? 0)%nat then Return []
        else Return (join [] (mapi (build preserve) resultWords))
  | _ => Throw (TypeError (js "Input must be a string."))
  end.

(** A call with any second argument.  The parameter [options = {}] puts
    the empty object for [undefined]; [const { preserveAcronyms = false }
    = options] then reads the property, and throws on [null], before the
    type of [input] is looked at.  [toCamelCase] above is the function
    from that point on. *)
Definition toCamelCase_call (input : value) (arg : argument) : result :=
  match arg with
  | ArgUndefined => toCamelCase input no_options
  | ArgNull => Throw EngineTypeError
  | ArgValue opts => toCamelCase input opts
  end.

End WithCaseMapping.
End Strict.

(** ** toDotCase *)

Module Dot.
Section WithCaseMapping.
Context {cm : CaseMapping}.

(** The value of [words] for the trimmed string [str]. *)
Definition words (str : jsstring) : list jsstring :=
  let str := replace_acronym (replace_camel is_lower str) in
  let str := replace_runs is_dotsep str in
  filter truthy (split_on SPACE str).

Definition toDotCase (input : value) : result :=
  match input with
  | VString input =>
      let str := trim input in
      if is_empty str || only is_dotsep str then Return []
      else Return (join [DOT] (map toLowerCase (words str)))
  | _ => Throw (TypeError (js "Input must be a string."))
  end.

End WithCaseMapping.
End Dot.

(** ** The lenient toCamelCase *)

Module Lenient.
Section WithCaseMapping.
Context {cm : CaseMapping}.

(** The value of [words] after [split], before the loop. *)
Definition words (str : jsstring) : list jsstring :=
  let str := toLowerCase (trim str) in
  let str := replace_runs is_sep str in
  split_on SPACE str.

(** One step of the loop: [words[i]] for [i >= 1]. *)
Definition capitalize (word : jsstring) (i : nat) : jsstring :=
  if (i =? 0)%nat then word
  else if (0 <? List.length word)%nat
       then toUpperCase (charAt0 word) ++ slice1 word
       else word.

Definition toCamelCase (str : value) : result :=
  match str with
  | VString str => Return (join [] (mapi capitalize (words str)))
  | _ => Return []
  end.

End WithCaseMapping.
End Lenient.

(** ** Notions of the statements

    What the properties below are stated with: classes of single
    characters, strings free of a class, the tokens of a string, and the
    places of a separator in a result. *)

Definition is_SPACE (c : char16) : bool := c =? SPACE.
Definition is_UNDERSCORE (c : char16) : bool := c =? UNDERSCORE.
Definition is_HYPHEN (c : char16) : bool := c =? HYPHEN.
Definition is_DOT (c : char16) : bool := c =? DOT.

(** The characters of a result of [toKebabCase]. *)
Definition kebab_char (c : char16) : bool :=
  is_lower c || is_digit c || is_HYPHEN c.


(** No code unit of [s] is in the class [p]; every code unit of [s] is. *)
Definition free (p : char16 -> bool) (s : jsstring) : Prop :=
  Forall (fun c => p c = false) s.

Definition all (p : char16 -> bool) (s : jsstring) : Prop :=
  Forall (fun c => p c = true) s.

(** The string starts with an upper-case ASCII letter. *)
Definition head_upper (s : jsstring) : bool :=
  match s with y :: _ => is_upper y | [] => false end.

(** The tokens of a string for a class of separators: its maximal runs of
    characters that are no separators.  [cur] is the token being read,
    [flush] closes it. *)
Definition flush (cur : jsstring) : list jsstring :=
  if is_empty cur then [] else [cur].

Fixpoint tokens_from (sep : char16 -> bool) (cur s : jsstring)
  : list jsstring :=
  match s with
  | [] => flush cur
  | c :: t =>
      if sep c then flush cur ++ tokens_from sep [] t
      else tokens_from sep (cur ++ [c]) t
  end.

Definition tokens (sep : char16 -> bool) (s : jsstring) : list jsstring :=
  tokens_from sep [] s.

(** The token that [s] starts with, and what follows it. *)
Fixpoint word_prefix (sep : char16 -> bool) (s : jsstring) : jsstring :=
  match s with
  | [] => []
  | c :: t => if sep c then [] else c :: word_prefix sep t
  end.

Fixpoint word_rest (sep : char16 -> bool) (s : jsstring) : jsstring :=
  match s with
  | [] => []
  | c :: t => if sep c then s else word_rest sep t
  end.

(** A token: not empty, and free of separators. *)
Definition is_token (sep : char16 -> bool) (w : jsstring) : Prop :=
  w <> [] /\ free sep w.

(** [cur] put before the first string of a list. *)
Definition prepend (cur : jsstring) (l : list jsstring) : list jsstring :=
  match l with
  | w :: ws => (cur ++ w) :: ws
  | [] => [cur]
  end.

(** The string starts with [d], ends with [d], has [d] twice in a row. *)
Definition starts_with (d : char16) (s : jsstring) : bool :=
  match s with c :: _ => c =? d | [] => false end.

Fixpoint ends_with (d : char16) (s : jsstring) : bool :=
  match s with
  | [] => false
  | c :: t => match t with [] => c =? d | _ :: _ => ends_with d t end
  end.

Fixpoint has_double (d : char16) (s : jsstring) : bool :=
  match s with
  | [] => false
  | c :: t => ((c =? d) && starts_with d t) || has_double d t
  end.

(** The callback of [replace(/_/g, ' ')], character by character. *)
Definition underscore_to_space (c : char16) : char16 :=
  if c =? UNDERSCORE then SPACE else c.

(** The words that [splitCamel] yields for one word, empty ones dropped. *)
Definition camel_tokens (word : jsstring) : list jsstring :=
  tokens is_SPACE (replace_camel is_lower_or_digit (replace_acronym word)).

(** A word of kebab-case: lower-case ASCII letters and digits, at least
    one. *)
Definition kebab_word (w : jsstring) : Prop :=
  w <> [] /\ all is_lower_or_digit w.

(** A word of dot.case: a token between the separators of dot.case, free
    of ASCII capital letters, that lower-casing leaves alone. *)
Definition dot_word {cm : CaseMapping} (w : jsstring) : Prop :=
  is_token is_dotsep w /\ free is_upper w /\ toLowerCase w = w.

(** The error of the strict functions. *)
Definition not_a_string : exn := TypeError (js "Input must be a string.").

(** [c] is not in the class [p]. *)
Definition not_in (p : char16 -> bool) (c : char16) : bool := negb (p c).

(** The string starts with a lower-case ASCII letter. *)
Definition head_lower (s : jsstring) : bool :=
  match s with c :: _ => is_lower c | [] => false end.

(** A dot in the place of a hyphen. *)
Definition hyphen_to_dot (c : char16) : char16 :=
  if c =? HYPHEN then DOT else c.

(** The first letter of a word in upper case. *)
Definition capitalized (w : jsstring) : jsstring :=
  match w with
  | c :: t => ascii_upper c :: t
  | [] => []
  end.

(** A word that can come second in camelCase and be found again: it
    starts with a lower-case letter and holds a character more. *)
Definition camel_safe (w : jsstring) : Prop :=
  head_lower w = true /\ (2 <= List.length w)%nat.

(** A chunk of camelCase: one character, then lower-case letters and
    digits, the last character being one of these. *)
Definition chunk (x : jsstring) : Prop :=
  exists h t, x = h :: t /\ all is_lower_or_digit t /\
              (t <> [] \/ is_lower_or_digit h = true).

(** A chunk that starts with an upper-case letter. *)
Definition capital_chunk (x : jsstring) : Prop :=
  chunk x /\ head_upper x = true.

(** A word in capital letters: upper-case ASCII letters, at least one. *)
Definition capital_word (w : jsstring) : Prop := w <> [] /\ all is_upper w.

(** The first letter as it is, the other letters in lower case. *)
Definition title_case (w : jsstring) : jsstring :=
  match w with
  | c :: t => c :: map ascii_lower t
  | [] => []
  end.

(** ** A case mapping: ASCII and Latin-1

    The Unicode case mapping restricted to the code units below 256 (every
    other code unit is left alone).  It shows that the properties asked of
    a [CaseMapping] can be met, and lets the examples of the source run. *)

Definition latin1_lower (c : char16) : char16 :=
  if is_upper c then c + 32
  else if in_range 192 222 c && negb (c =? 215) then c + 32
  else c.

Definition latin1_upper (c : char16) : jsstring :=
  if is_lower c then [c - 32]
  else if c =? 223 then [83; 83]
  else if in_range 224 254 c && negb (c =? 247) then [c - 32]
  else if c =? 255 then [376]
  else if c =? 181 then [924]
  else [c].

(** * Lemmas *)

(** Goals about the classes of one code unit: unfold the classes, split on
    the conditionals, turn the comparisons into propositions. *)
Ltac cu_unfold :=
  unfold latin1_lower, latin1_upper, ascii_lower, ascii_upper, is_plain,
    is_caseless, kebab_keep, is_dotsep, is_sep, is_space, is_alnum,
    is_upper_or_digit, is_lower_or_digit, is_lower, is_upper, is_digit,
    in_range, SPACE, HYPHEN, DOT, UNDERSCORE in *.

Ltac cu_prop :=
  repeat rewrite ?andb_true_iff, ?orb_true_iff, ?negb_true_iff,
    ?andb_false_iff, ?orb_false_iff, ?negb_false_iff,
    ?N.leb_le, ?N.ltb_lt, ?N.eqb_eq, ?N.leb_gt, ?N.ltb_ge, ?N.eqb_neq in *.

Ltac cu_if :=
  repeat match goal with
    | |- context [if ?b then _ else _] =>
        let E := fresh "E" in destruct b eqn:E
    | H : context [if ?b then _ else _] |- _ =>
        let E := fresh "E" in destruct b eqn:E
    end.

Ltac cu_solve :=
  cu_unfold; intros; cu_if; cu_prop; simpl in *;
  try congruence; try lia; try (f_equal; lia).

Lemma latin1_lower_plain (c : char16) :
  is_plain c = true -> latin1_lower c = ascii_lower c.
Proof. cu_solve. Qed.

Lemma latin1_upper_plain (c : char16) :
  is_plain c = true -> latin1_upper c = [ascii_upper c].
Proof. cu_solve. Qed.

Lemma latin1_lower_fresh (c : char16) :
  is_caseless (latin1_lower c) = true -> latin1_lower c = c.
Proof. cu_solve. Qed.

Lemma latin1_upper_fresh (c x : char16) :
  In c (latin1_upper x) -> is_caseless c = true -> c = x.
Proof.
  unfold latin1_upper. intros Hin Hc. cu_if; simpl in Hin;
  repeat destruct Hin as [Hin|Hin]; subst;
  try contradiction; try reflexivity; exfalso; revert Hc; cu_solve.
Qed.

Lemma latin1_lower_not_upper (c : char16) : is_upper (latin1_lower c) = false.
Proof. cu_solve. Qed.

Lemma latin1_lower_idem (c : char16) :
  latin1_lower (latin1_lower c) = latin1_lower c.
Proof. cu_solve. Qed.

Lemma latin1_lower_plain_all (s : jsstring) :
  forallb is_plain s = true -> map latin1_lower s = map ascii_lower s.
Proof.
  induction s as [|c s IH]; simpl; [reflexivity|].
  intros H; apply andb_prop in H as [Hc Hs].
  now rewrite latin1_lower_plain, IH.
Qed.

Lemma latin1_upper_plain_all (s : jsstring) :
  forallb is_plain s = true -> flat_map latin1_upper s = map ascii_upper s.
Proof.
  induction s as [|c s IH]; simpl; [reflexivity|].
  intros H; apply andb_prop in H as [Hc Hs].
  now rewrite latin1_upper_plain, IH.
Qed.

#[export] Instance latin1_case : CaseMapping.
Proof.
  refine {| toLowerCase := map latin1_lower;
            toUpperCase := flat_map latin1_upper |}.
  - exact latin1_lower_plain_all.
  - exact latin1_upper_plain_all.
  - intros s c Hin Hc. apply in_map_iff in Hin as [x [Hx Hin]]. subst c.
    now rewrite latin1_lower_fresh.
  - intros s c Hin Hc. apply in_flat_map in Hin as [x [Hin Hx]].
    now rewrite (latin1_upper_fresh c x).
  - intros s c Hin. apply in_map_iff in Hin as [x [Hx Hin]]. subst c.
    apply latin1_lower_not_upper.
  - intros s. rewrite map_map. apply map_ext. intros; apply latin1_lower_idem.
  - intros s H. now apply map_eq_nil in H.
Defined.

(** ** Strings free of a class *)

Lemma free_app (p : char16 -> bool) (a b : jsstring) :
  free p (a ++ b) <-> free p a /\ free p b.
Proof. apply Forall_app. Qed.

Lemma free_cons (p : char16 -> bool) (c : char16) (s : jsstring) :
  free p (c :: s) <-> p c = false /\ free p s.
Proof. apply Forall_cons_iff. Qed.

Lemma free_weaken (p q : char16 -> bool) (s : jsstring) :
  (forall c, q c = true -> p c = true) -> free p s -> free q s.
Proof.
  intros Hpq. apply Forall_impl. intros c Hc.
  destruct (q c) eqn:E; [|reflexivity]. apply Hpq in E. congruence.
Qed.

Lemma free_incl (p : char16 -> bool) (s t : jsstring) :
  (forall c, In c t -> In c s) -> free p s -> free p t.
Proof.
  unfold free. rewrite !Forall_forall. intros Hin H c Hc. auto.
Qed.

Lemma forallb_all (p : char16 -> bool) (s : jsstring) :
  forallb p s = true <-> all p s.
Proof.
  unfold all. rewrite Forall_forall. apply forallb_forall.
Qed.

(** ** [trim] *)

Lemma drop_while_incl (p : char16 -> bool) (s : jsstring) (c : char16) :
  In c (drop_while p s) -> In c s.
Proof.
  induction s as [|x s IH]; simpl; [tauto|].
  destruct (p x); simpl; tauto.
Qed.

Lemma drop_while_free (p : char16 -> bool) (s : jsstring) :
  free p s -> drop_while p s = s.
Proof.
  destruct s as [|x s]; simpl; [reflexivity|].
  intros H. apply free_cons in H as [Hx _]. now rewrite Hx.
Qed.

Lemma trim_incl (s : jsstring) (c : char16) : In c (trim s) -> In c s.
Proof.
  unfold trim. intros H.
  apply in_rev, drop_while_incl, in_rev, drop_while_incl in H. exact H.
Qed.

Lemma trim_free (s : jsstring) : free is_space s -> trim s = s.
Proof.
  intros H. unfold trim. rewrite (drop_while_free _ s H).
  rewrite drop_while_free; [apply rev_involutive|].
  now apply Forall_rev.
Qed.

Lemma trim_all (p : char16 -> bool) (s : jsstring) : all p s -> all p (trim s).
Proof.
  unfold all. rewrite !Forall_forall. intros H c Hc.
  apply H, trim_incl, Hc.
Qed.

(** ** The camelCase replacement *)

Section ReplaceCamel.
Variable L : char16 -> bool.
Hypothesis L_not_upper : forall c, L c = true -> is_upper c = false.

(** The scan never has to skip: the second character of a match is an
    upper-case letter, so no match starts at it.  The replacement puts a
    space between every [L] character and the upper-case letter after it. *)
Lemma replace_camel_upper (y : char16) (r : jsstring) :
  is_upper y = true -> replace_camel L (y :: r) = y :: replace_camel L r.
Proof.
  intros Hy. simpl. destruct r as [|z r]; [reflexivity|].
  destruct (L y) eqn:E; [apply L_not_upper in E; congruence|reflexivity].
Qed.

Lemma replace_camel_step (x : char16) (t : jsstring) :
  replace_camel L (x :: t) =
  x :: (if L x && head_upper t then [SPACE] else []) ++ replace_camel L t.
Proof.
  destruct t as [|y r].
  - simpl. now rewrite andb_false_r.
  - change (replace_camel L (x :: y :: r))
      with (if L x && is_upper y then x :: SPACE :: y :: replace_camel L r
            else x :: replace_camel L (y :: r)).
    cbn [head_upper]. destruct (L x && is_upper y) eqn:E; [|reflexivity].
    apply andb_prop in E as [_ Hy].
    now rewrite (replace_camel_upper y r Hy).
Qed.

Lemma replace_camel_free (s : jsstring) :
  free is_upper s -> replace_camel L s = s.
Proof.
  induction s as [|x t IH]; [reflexivity|].
  intros H. apply free_cons in H as [Hx Ht].
  rewrite replace_camel_step, (IH Ht).
  destruct t as [|y r]; cbn [head_upper].
  - now rewrite andb_false_r.
  - apply free_cons in Ht as [Hy _]. now rewrite Hy, andb_false_r.
Qed.

(** A character that is neither in [L] nor upper-case takes part in no
    match: the replacement works on both sides of it independently. *)
Lemma replace_camel_app_inert (p q : jsstring) (c : char16) :
  L c = false -> is_upper c = false ->
  replace_camel L (p ++ c :: q) = replace_camel L p ++ c :: replace_camel L q.
Proof.
  intros HL HU. induction p as [|x p IH].
  - cbn [app]. rewrite replace_camel_step, HL. reflexivity.
  - cbn [app]. rewrite !replace_camel_step, IH.
    destruct p as [|y p]; cbn [app head_upper].
    + rewrite HU, andb_false_r. reflexivity.
    + cbn [app]. now rewrite <- app_assoc.
Qed.

(** The boundary itself: an [L] character followed by an upper-case one. *)
Lemma replace_camel_app_boundary (p q : jsstring) (x y : char16) :
  L x = true -> is_upper y = true ->
  replace_camel L (p ++ x :: y :: q) =
  replace_camel L (p ++ [x]) ++ SPACE :: replace_camel L (y :: q).
Proof.
  intros HL HU. induction p as [|a p IH].
  - cbn [app]. rewrite (replace_camel_step x (y :: q)).
    cbn [head_upper]. rewrite HL, HU. reflexivity.
  - cbn [app]. rewrite (replace_camel_step a (p ++ x :: y :: q)).
    rewrite (replace_camel_step a (p ++ [x])), IH.
    replace (head_upper (p ++ x :: y :: q)) with (head_upper (p ++ [x]))
      by (destruct p; reflexivity).
    cbn [app]. now rewrite <- app_assoc.
Qed.

(** No boundary when the character before is not in [L]. *)
Lemma replace_camel_app_no_boundary (p q : jsstring) (x : char16) :
  L x = false ->
  replace_camel L (p ++ x :: q) =
  replace_camel L (p ++ [x]) ++ replace_camel L q.
Proof.
  intros HL. induction p as [|a p IH].
  - cbn [app]. rewrite (replace_camel_step x q), HL. reflexivity.
  - cbn [app]. rewrite (replace_camel_step a (p ++ x :: q)).
    rewrite (replace_camel_step a (p ++ [x])), IH.
    replace (head_upper (p ++ x :: q)) with (head_upper (p ++ [x]))
      by (destruct p; reflexivity).
    cbn [app]. now rewrite <- app_assoc.
Qed.

(** The replacement keeps the first and the last character. *)
Lemma replace_camel_head (y : char16) (q : jsstring) :
  exists Q, replace_camel L (y :: q) = y :: Q.
Proof. rewrite replace_camel_step. eauto. Qed.

Lemma replace_camel_last (p : jsstring) (x : char16) :
  exists P, replace_camel L (p ++ [x]) = P ++ [x].
Proof.
  induction p as [|a p [P IH]].
  - exists []. reflexivity.
  - cbn [app]. rewrite replace_camel_step, IH.
    exists (a :: (if L a && head_upper (p ++ [x]) then [SPACE] else []) ++ P).
    cbn [app]. now rewrite <- app_assoc.
Qed.

(** The replacement only adds spaces. *)
Lemma replace_camel_incl (s : jsstring) (c : char16) :
  In c (replace_camel L s) -> c = SPACE \/ In c s.
Proof.
  induction s as [|x t IH]; [simpl; tauto|].
  rewrite replace_camel_step. intros [H|H]; [right; left; exact H|].
  apply in_app_or in H as [H|H].
  - destruct (L x && head_upper t); simpl in H; [left|]; intuition.
  - destruct (IH H); [left|right; right]; assumption.
Qed.

End ReplaceCamel.

Lemma lower_not_upper (c : char16) : is_lower c = true -> is_upper c = false.
Proof. cu_solve. Qed.

Lemma lower_or_digit_not_upper (c : char16) :
  is_lower_or_digit c = true -> is_upper c = false.
Proof. cu_solve. Qed.

(** ** The acronym replacement *)

Lemma length_ind (P : jsstring -> Prop) :
  (forall s, (forall t, (List.length t < List.length s)%nat -> P t) -> P s) ->
  forall s, P s.
Proof.
  intros H s. remember (List.length s) as n eqn:En.
  revert s En. induction n as [n IH] using lt_wf_ind.
  intros s En. apply H. intros t Ht. apply (IH (List.length t)); [lia|reflexivity].
Qed.

(** What a match of [/([A-Z]+)([A-Z][a-z])/] at the start of [s] is. *)
Lemma re_acronym_exec_sound (s g1 g2 rest : jsstring) :
  re_acronym_exec s = Some (g1, g2, rest) ->
  s = g1 ++ g2 ++ rest /\ g1 <> [] /\ all is_upper g1 /\
  exists y z, g2 = [y; z] /\ is_upper y = true /\ is_lower z = true.
Proof.
  revert g1 g2 rest. induction s as [|x t IH]; intros g1 g2 rest; [discriminate|].
  cbn [re_acronym_exec]. destruct (is_upper x) eqn:Hx; [|discriminate].
  destruct (re_acronym_exec t) as [[[h1 h2] r]|] eqn:Ht.
  - intros H; inversion H; subst; clear H.
    destruct (IH _ _ _ eq_refl) as (E & _ & Hup & Hg2).
    repeat split; [now rewrite E| discriminate | now constructor | exact Hg2].
  - destruct t as [|y [|z r]]; try discriminate.
    destruct (is_upper y && is_lower z) eqn:Hyz; [|discriminate].
    apply andb_prop in Hyz as [Hy Hz].
    intros H; inversion H; subst; clear H.
    repeat split; [discriminate | now repeat constructor | eauto].
Qed.

Lemma re_acronym_exec_shorter (s g1 g2 rest : jsstring) :
  re_acronym_exec s = Some (g1, g2, rest) ->
  (List.length rest < List.length s)%nat.
Proof.
  intros H. apply re_acronym_exec_sound in H as (E & Hne & _ & y & z & E2 & _).
  subst s g2. rewrite !length_app. simpl. lia.
Qed.

Lemma re_acronym_exec_not_upper (x : char16) (t : jsstring) :
  is_upper x = false -> re_acronym_exec (x :: t) = None.
Proof. intros H. cbn [re_acronym_exec]. now rewrite H. Qed.

(** The fuel of [replace_acronym] is enough: more of it changes nothing. *)
Lemma replace_acronym_from_enough (n m : nat) (s : jsstring) :
  (List.length s <= n)%nat -> (List.length s <= m)%nat ->
  replace_acronym_from n s = replace_acronym_from m s.
Proof.
  revert m s. induction n as [|n IH]; intros m s Hn Hm.
  - destruct s; [|simpl in Hn; lia]. destruct m; reflexivity.
  - destruct m as [|m].
    + destruct s; [reflexivity|simpl in Hm; lia].
    + cbn [replace_acronym_from].
      destruct (re_acronym_exec s) as [[[g1 g2] rest]|] eqn:E.
      * apply re_acronym_exec_shorter in E.
        rewrite (IH m rest); [reflexivity|lia|lia].
      * destruct s as [|c t]; [reflexivity|].
        simpl in Hn, Hm. rewrite (IH m t); [reflexivity|lia|lia].
Qed.

(** The equation of the replacement, free of fuel: it is the scan that the
    source's [replace] performs. *)
Lemma replace_acronym_eq (s : jsstring) :
  replace_acronym s =
  match re_acronym_exec s with
  | Some (g1, g2, rest) => g1 ++ SPACE :: g2 ++ replace_acronym rest
  | None =>
      match s with
      | [] => []
      | c :: t => c :: replace_acronym t
      end
  end.
Proof.
  unfold replace_acronym. destruct s as [|x t]; [reflexivity|].
  cbn [List.length replace_acronym_from].
  destruct (re_acronym_exec (x :: t)) as [[[g1 g2] rest]|] eqn:E.
  - apply re_acronym_exec_shorter in E. simpl in E.
    rewrite (replace_acronym_from_enough (List.length t) (List.length rest));
      [reflexivity|lia|lia].
  - reflexivity.
Qed.

Lemma replace_acronym_nil : replace_acronym [] = [].
Proof. reflexivity. Qed.

Lemma replace_acronym_not_upper (x : char16) (t : jsstring) :
  is_upper x = false -> replace_acronym (x :: t) = x :: replace_acronym t.
Proof.
  intros H. rewrite replace_acronym_eq at 1.
  now rewrite re_acronym_exec_not_upper.
Qed.

Lemma replace_acronym_free (s : jsstring) :
  free is_upper s -> replace_acronym s = s.
Proof.
  induction s as [|x t IH]; [reflexivity|].
  intros H. apply free_cons in H as [Hx Ht].
  now rewrite replace_acronym_not_upper, IH.
Qed.

(** A character that is no ASCII letter takes part in no match. *)
Lemma re_acronym_exec_app_inert (a b : jsstring) (c : char16) :
  is_upper c = false -> is_lower c = false ->
  re_acronym_exec (a ++ c :: b) =
  match re_acronym_exec a with
  | Some (g1, g2, r) => Some (g1, g2, r ++ c :: b)
  | None => None
  end.
Proof.
  intros HU HL. induction a as [|x t IH].
  - cbn [app]. now rewrite re_acronym_exec_not_upper.
  - cbn [app re_acronym_exec]. destruct (is_upper x); [|reflexivity].
    rewrite IH. destruct (re_acronym_exec t) as [[[g1 g2] r]|]; [reflexivity|].
    destruct t as [|y [|z r]]; cbn [app].
    + rewrite HU. destruct b; reflexivity.
    + now rewrite HL, andb_false_r.
    + destruct (is_upper y && is_lower z); reflexivity.
Qed.

Lemma replace_acronym_app_inert (a b : jsstring) (c : char16) :
  is_upper c = false -> is_lower c = false ->
  replace_acronym (a ++ c :: b) = replace_acronym a ++ c :: replace_acronym b.
Proof.
  intros HU HL. induction a as [a IH] using length_ind.
  rewrite (replace_acronym_eq (a ++ c :: b)), (replace_acronym_eq a).
  rewrite re_acronym_exec_app_inert by assumption.
  destruct (re_acronym_exec a) as [[[g1 g2] r]|] eqn:E.
  - rewrite (IH r) by (eapply re_acronym_exec_shorter; eassumption).
    rewrite <- ?app_assoc. cbn [app]. rewrite <- ?app_assoc. reflexivity.
  - destruct a as [|x t]; cbn [app].
    + reflexivity.
    + rewrite (IH t) by (simpl; lia). reflexivity.
Qed.

(** The replacement keeps the first and the last character. *)
Lemma replace_acronym_head (y : char16) (q : jsstring) :
  exists Q, replace_acronym (y :: q) = y :: Q.
Proof.
  rewrite replace_acronym_eq.
  destruct (re_acronym_exec (y :: q)) as [[[g1 g2] r]|] eqn:E; [|eauto].
  apply re_acronym_exec_sound in E as (E & Hne & _).
  destruct g1 as [|h g1]; [congruence|]. cbn [app] in E.
  injection E as -> _. cbn [app]. eauto.
Qed.


(** The shape of a match at the start of the string: a run of upper-case
    letters, an upper-case letter and a lower-case one.  The greedy run
    takes all the letters but the last. *)
Lemma re_acronym_exec_run (u rest : jsstring) (c l : char16) :
  u <> [] -> all is_upper u -> is_upper c = true -> is_lower l = true ->
  re_acronym_exec (u ++ c :: l :: rest) = Some (u, [c; l], rest).
Proof.
  intros Hne Hu Hc Hl. induction u as [|x u IH]; [congruence|].
  apply Forall_cons_iff in Hu as [Hx Hu].
  cbn [app re_acronym_exec]. rewrite Hx.
  destruct u as [|x' u'].
  - cbn [app re_acronym_exec].
    rewrite Hc, (lower_not_upper l Hl), Hl. destruct rest; reflexivity.
  - rewrite IH by (assumption || discriminate). reflexivity.
Qed.

(** ** Tokens *)

Section Tokens.
Variable sep : char16 -> bool.

Lemma flush_nonempty (cur : jsstring) : cur <> [] -> flush cur = [cur].
Proof. destruct cur; [congruence|reflexivity]. Qed.

Lemma tokens_from_free (cur w s : jsstring) :
  free sep w -> tokens_from sep cur (w ++ s) = tokens_from sep (cur ++ w) s.
Proof.
  revert cur. induction w as [|c w IH]; intros cur H.
  - now rewrite app_nil_r.
  - apply free_cons in H as [Hc Hw]. cbn [app tokens_from]. rewrite Hc.
    rewrite (IH _ Hw), <- app_assoc. reflexivity.
Qed.

Lemma tokens_from_app_sep (cur a b : jsstring) (d : char16) :
  sep d = true ->
  tokens_from sep cur (a ++ d :: b) = tokens_from sep cur a ++ tokens sep b.
Proof.
  intros Hd. revert cur. induction a as [|c a IH]; intros cur.
  - cbn [app tokens_from]. now rewrite Hd.
  - cbn [app tokens_from]. destruct (sep c).
    + now rewrite IH, app_assoc.
    + apply IH.
Qed.

Lemma tokens_app_sep (a b : jsstring) (d : char16) :
  sep d = true -> tokens sep (a ++ d :: b) = tokens sep a ++ tokens sep b.
Proof. apply tokens_from_app_sep. Qed.

Lemma tokens_word (w : jsstring) :
  is_token sep w -> tokens sep w = [w].
Proof.
  intros [Hne Hw]. unfold tokens.
  rewrite <- (app_nil_r w) at 1. rewrite tokens_from_free by assumption.
  cbn [app tokens_from]. now apply flush_nonempty.
Qed.

Lemma tokens_all_sep (s : jsstring) : all sep s -> tokens sep s = [].
Proof.
  unfold tokens. induction s as [|c s IH]; [reflexivity|].
  intros H. apply Forall_cons_iff in H as [Hc Hs].
  cbn [tokens_from]. rewrite Hc. now apply IH.
Qed.

(** The first token goes on from the token being read. *)
Lemma tokens_from_first (cur s : jsstring) :
  cur <> [] ->
  tokens_from sep cur s =
  (cur ++ word_prefix sep s) :: tokens sep (word_rest sep s).
Proof.
  revert cur. induction s as [|c t IH]; intros cur Hne.
  - cbn. now rewrite app_nil_r, flush_nonempty.
  - cbn [tokens_from word_prefix word_rest]. destruct (sep c) eqn:Hc.
    + rewrite flush_nonempty, app_nil_r by assumption.
      unfold tokens. cbn [tokens_from]. now rewrite Hc.
    + rewrite IH by (now destruct cur). now rewrite <- app_assoc.
Qed.

(** Every token is a token. *)
Lemma flush_is_token (cur : jsstring) :
  free sep cur -> Forall (is_token sep) (flush cur).
Proof.
  intros H. destruct cur; cbn; [constructor|].
  constructor; [split; [discriminate|exact H]|constructor].
Qed.

Lemma tokens_from_are_tokens (cur s : jsstring) :
  free sep cur -> Forall (is_token sep) (tokens_from sep cur s).
Proof.
  revert cur. induction s as [|c t IH]; intros cur Hcur.
  - now apply flush_is_token.
  - cbn [tokens_from]. destruct (sep c) eqn:Hc.
    + apply Forall_app. split; [now apply flush_is_token|].
      apply IH; constructor.
    + apply IH. apply free_app. split; [assumption|]. now repeat constructor.
Qed.

Lemma tokens_are_tokens (s : jsstring) : Forall (is_token sep) (tokens sep s).
Proof. apply tokens_from_are_tokens. constructor. Qed.

(** The characters of the tokens are characters of the string. *)
Lemma tokens_from_incl (cur s w : jsstring) (c : char16) :
  In w (tokens_from sep cur s) -> In c w -> In c cur \/ In c s.
Proof.
  revert cur. induction s as [|x t IH]; intros cur Hw Hc.
  - cbn in Hw. destruct cur; [contradiction|].
    destruct Hw as [<-|[]]. now left.
  - cbn [tokens_from] in Hw. destruct (sep x).
    + apply in_app_or in Hw as [Hw|Hw].
      * destruct cur; [contradiction|]. destruct Hw as [<-|[]]. now left.
      * destruct (IH _ Hw Hc) as [[]|H]. right; now right.
    + destruct (IH _ Hw Hc) as [H|H].
      * apply in_app_or in H as [H|[<-|[]]]; [now left|right; now left].
      * right; now right.
Qed.

Lemma tokens_incl (s w : jsstring) (c : char16) :
  In w (tokens sep s) -> In c w -> In c s.
Proof.
  intros Hw Hc. destruct (tokens_from_incl [] s w c Hw Hc) as [[]|H]. exact H.
Qed.

(** A string without separators in a string: it lies within one token. *)
Lemma tokens_from_block (cur A m B : jsstring) :
  is_token sep m ->
  exists l a b r,
    tokens_from sep cur (A ++ m ++ B) = l ++ (a ++ m ++ b) :: r.
Proof.
  intros [Hne Hm]. revert cur. induction A as [|c A IH]; intros cur.
  - cbn [app]. rewrite tokens_from_free by assumption.
    rewrite tokens_from_first by (destruct cur, m; cbn; congruence).
    exists [], cur, (word_prefix sep B), (tokens sep (word_rest sep B)).
    cbn [app]. now rewrite <- app_assoc.
  - cbn [app tokens_from]. destruct (sep c).
    + destruct (IH []) as (l & a & b & r & E). rewrite E.
      exists (flush cur ++ l), a, b, r. now rewrite app_assoc.
    + apply IH.
Qed.

Lemma tokens_block (A m B : jsstring) :
  is_token sep m ->
  exists l a b r, tokens sep (A ++ m ++ B) = l ++ (a ++ m ++ b) :: r.
Proof. apply tokens_from_block. Qed.

(** Two characters that are no separators, side by side: the token they
    are in is the last token of the left part, put before the first token
    of the right part. *)
Lemma tokens_from_adjacent (cur A B : jsstring) (x y : char16) :
  sep x = false -> sep y = false ->
  exists l a b r,
    tokens_from sep cur (A ++ [x]) = l ++ [a ++ [x]] /\
    tokens sep (y :: B) = (y :: b) :: r /\
    tokens_from sep cur (A ++ x :: y :: B) = l ++ (a ++ x :: y :: b) :: r.
Proof.
  intros Hx Hy. revert cur. induction A as [|c A IH]; intros cur.
  - exists [], cur, (word_prefix sep B), (tokens sep (word_rest sep B)).
    assert (Hne : forall t : jsstring, cur ++ x :: t <> [])
      by (destruct cur; discriminate).
    split; [|split].
    + cbn [app tokens_from]. rewrite Hx. cbn [tokens_from].
      apply flush_nonempty, Hne.
    + unfold tokens. cbn [tokens_from]. rewrite Hy. cbn [app].
      now rewrite tokens_from_first by discriminate.
    + cbn [app tokens_from]. rewrite Hx, Hy, <- app_assoc.
      rewrite tokens_from_first by apply Hne.
      now rewrite <- app_assoc.
  - cbn [app tokens_from]. destruct (sep c).
    + destruct (IH []) as (l & a & b & r & E1 & E2 & E3).
      exists (flush cur ++ l), a, b, r. rewrite E1, E3, <- !app_assoc.
      repeat split; assumption.
    + apply IH.
Qed.

(** Joining tokens with a separator and reading the tokens again. *)
Lemma tokens_join (d : char16) (ws : list jsstring) :
  sep d = true -> Forall (is_token sep) ws ->
  tokens sep (join [d] ws) = ws.
Proof.
  intros Hd. induction ws as [|w rest IH]; intros H; [reflexivity|].
  apply Forall_cons_iff in H as [Hw Hrest].
  cbn [join]. destruct rest as [|w' rest'].
  - now apply tokens_word.
  - cbn [app]. rewrite tokens_app_sep by assumption.
    rewrite tokens_word by assumption. now rewrite (IH Hrest).
Qed.

(** *** The splits of the source read the tokens *)

Lemma split_runs_from_cons (b : bool) (s : jsstring) :
  exists w ws, split_runs_from sep b s = w :: ws.
Proof.
  revert b. induction s as [|c t IH]; intros b; cbn; [eauto|].
  destruct (sep c).
  - destruct b; eauto.
  - destruct (IH false) as (w & ws & ->). eauto.
Qed.

Lemma split_runs_from_in_run (s : jsstring) :
  filter truthy (split_runs_from sep true s) =
  filter truthy (split_runs_from sep false s).
Proof.
  destruct s as [|c t]; [reflexivity|]. cbn [split_runs_from].
  destruct (sep c); reflexivity.
Qed.

Lemma filter_truthy_prepend (cur : jsstring) (w : jsstring)
  (ws : list jsstring) :
  filter truthy (prepend cur (w :: ws)) =
  flush (cur ++ w) ++ filter truthy ws.
Proof.
  cbn [prepend filter]. unfold flush, truthy.
  destruct (is_empty (cur ++ w)); reflexivity.
Qed.

Lemma tokens_from_split_runs (cur s : jsstring) :
  filter truthy (prepend cur (split_runs_from sep false s)) =
  tokens_from sep cur s.
Proof.
  revert cur. induction s as [|c t IH]; intros cur.
  - cbn. unfold flush, truthy. rewrite app_nil_r.
    destruct (is_empty cur); reflexivity.
  - cbn [split_runs_from tokens_from]. destruct (sep c).
    + rewrite filter_truthy_prepend, app_nil_r, split_runs_from_in_run.
      f_equal. rewrite <- (IH []).
      destruct (split_runs_from_cons false t) as (w & ws & ->). reflexivity.
    + rewrite <- IH.
      destruct (split_runs_from_cons false t) as (w & ws & ->).
      cbn [prepend]. now rewrite <- app_assoc.
Qed.

Lemma tokens_split_runs (s : jsstring) :
  filter truthy (split_runs sep s) = tokens sep s.
Proof.
  unfold tokens, split_runs. rewrite <- tokens_from_split_runs.
  destruct (split_runs_from_cons false s) as (w & ws & ->). reflexivity.
Qed.

(** Replacing the runs by one space and splitting at the spaces is
    splitting at the runs, when the space is a separator. *)
Lemma split_on_replace_runs (b : bool) (s : jsstring) :
  sep SPACE = true ->
  split_on SPACE (replace_runs_from sep b s) = split_runs_from sep b s.
Proof.
  intros Hsp. revert b. induction s as [|c t IH]; intros b; [reflexivity|].
  cbn [replace_runs_from split_runs_from]. destruct (sep c) eqn:Hc.
  - destruct b; [apply IH|]. cbn [split_on]. rewrite N.eqb_refl.
    now rewrite IH.
  - cbn [split_on]. destruct (c =? SPACE) eqn:E.
    + apply N.eqb_eq in E. congruence.
    + now rewrite IH.
Qed.

Lemma tokens_replace_runs (s : jsstring) :
  sep SPACE = true ->
  filter truthy (split_on SPACE (replace_runs sep s)) = tokens sep s.
Proof.
  intros Hsp. unfold replace_runs.
  rewrite split_on_replace_runs by assumption. apply tokens_split_runs.
Qed.

End Tokens.

Lemma split_on_cons (d : char16) (s : jsstring) :
  exists w ws, split_on d s = w :: ws.
Proof.
  induction s as [|c t (w & ws & IH)]; cbn; [eauto|].
  destruct (c =? d); [eauto|]. rewrite IH. eauto.
Qed.

Lemma tokens_from_split_on (cur s : jsstring) :
  filter truthy (prepend cur (split_on SPACE s)) =
  tokens_from is_SPACE cur s.
Proof.
  revert cur. induction s as [|c t IH]; intros cur.
  - cbn. unfold flush, truthy. rewrite app_nil_r.
    destruct (is_empty cur); reflexivity.
  - cbn [split_on tokens_from]. unfold is_SPACE at 1.
    destruct (c =? SPACE).
    + rewrite filter_truthy_prepend, app_nil_r. f_equal.
      rewrite <- (IH []).
      destruct (split_on_cons SPACE t) as (w & ws & ->). reflexivity.
    + rewrite <- IH. destruct (split_on_cons SPACE t) as (w & ws & ->).
      cbn [prepend]. now rewrite <- app_assoc.
Qed.

Lemma tokens_split_on (s : jsstring) :
  filter truthy (split_on SPACE s) = tokens is_SPACE s.
Proof.
  unfold tokens. rewrite <- tokens_from_split_on.
  destruct (split_on_cons SPACE s) as (w & ws & ->). reflexivity.
Qed.

(** ** [join] *)

Lemma map_join (f : char16 -> char16) (d : jsstring) (ws : list jsstring) :
  map f (join d ws) = join (map f d) (map (map f) ws).
Proof.
  induction ws as [|w rest IH]; [reflexivity|].
  cbn [join map]. destruct rest as [|w' rest']; [reflexivity|].
  rewrite !map_app, IH. reflexivity.
Qed.

Lemma join_incl (d : jsstring) (ws : list jsstring) (c : char16) :
  In c (join d ws) -> In c d \/ exists w, In w ws /\ In c w.
Proof.
  induction ws as [|w rest IH]; [contradiction|].
  cbn [join]. destruct rest as [|w' rest'].
  - intros H. right. exists w. split; [now left|assumption].
  - intros H. apply in_app_or in H as [H|H].
    + right. exists w. split; [now left|assumption].
    + apply in_app_or in H as [H|H]; [now left|].
      destruct (IH H) as [Hd|(v & Hv & Hc)]; [now left|].
      right. exists v. split; [now right|assumption].
Qed.

Lemma join_free (p : char16 -> bool) (d : jsstring) (ws : list jsstring) :
  free p d -> Forall (free p) ws -> free p (join d ws).
Proof.
  intros Hd Hws. unfold free. apply Forall_forall. intros c Hc.
  apply join_incl in Hc as [Hc|(w & Hw & Hc)].
  - unfold free in Hd. rewrite Forall_forall in Hd. auto.
  - rewrite Forall_forall in Hws. specialize (Hws w Hw).
    unfold free in Hws. rewrite Forall_forall in Hws. auto.
Qed.

Lemma join_nonempty (d : jsstring) (w : jsstring) (ws : list jsstring) :
  w <> [] -> join d (w :: ws) <> [].
Proof.
  intros Hw. cbn [join]. destruct ws; [assumption|].
  destruct w; [congruence|discriminate].
Qed.

Section JoinShape.
Variable d : char16.
Let is_d (c : char16) : bool := c =? d.

Lemma starts_with_token (w s : jsstring) :
  is_token is_d w -> starts_with d (w ++ s) = false.
Proof.
  intros [Hne Hw]. destruct w as [|c w]; [congruence|].
  apply free_cons in Hw as [Hc _]. exact Hc.
Qed.

Lemma ends_with_app (w s : jsstring) :
  s <> [] -> ends_with d (w ++ s) = ends_with d s.
Proof.
  intros Hs. induction w as [|c w IH]; [reflexivity|].
  cbn [app ends_with]. destruct (w ++ s) eqn:E; [|exact IH].
  apply app_eq_nil in E as [_ E]. congruence.
Qed.

Lemma ends_with_free (w : jsstring) : free is_d w -> ends_with d w = false.
Proof.
  induction w as [|c w IH]; [reflexivity|].
  intros H. apply free_cons in H as [Hc Hw].
  cbn [ends_with]. destruct w; [exact Hc|now apply IH].
Qed.

Lemma has_double_free (w s : jsstring) :
  free is_d w -> has_double d (w ++ s) = has_double d s.
Proof.
  induction w as [|c w IH]; [reflexivity|].
  intros H. apply free_cons in H as [Hc Hw].
  cbn [app has_double]. fold (is_d c). rewrite Hc. now apply IH.
Qed.

(** Tokens joined by [d]: no [d] in front, none at the end, no two in a
    row. *)
Lemma join_shape (ws : list jsstring) :
  Forall (is_token is_d) ws ->
  starts_with d (join [d] ws) = false /\
  ends_with d (join [d] ws) = false /\
  has_double d (join [d] ws) = false.
Proof.
  induction ws as [|w rest IH]; [easy|].
  intros H. apply Forall_cons_iff in H as [Hw Hrest].
  specialize (IH Hrest). destruct IH as (IH1 & IH2 & IH3).
  cbn [join]. destruct rest as [|w' rest'].
  - rewrite <- (app_nil_r w). rewrite starts_with_token by assumption.
    rewrite app_nil_r. destruct Hw as [_ Hw].
    rewrite ends_with_free by assumption.
    rewrite <- (app_nil_r w), has_double_free by assumption. easy.
  - rewrite starts_with_token by assumption.
    assert (Hj : join [d] (w' :: rest') <> []).
    { apply join_nonempty. apply Forall_cons_iff in Hrest as [[Hne _] _].
      exact Hne. }
    rewrite ends_with_app by discriminate.
    destruct Hw as [_ Hw]. rewrite has_double_free by assumption.
    cbn [app ends_with has_double].
    destruct (join [d] (w' :: rest')) eqn:E; [congruence|].
    rewrite IH1, andb_false_r. easy.
Qed.

End JoinShape.

(** ** Consequences of the properties of the case mapping *)

Lemma sep_caseless (c : char16) : is_sep c = true -> is_caseless c = true.
Proof. cu_solve. Qed.

Lemma dotsep_caseless (c : char16) : is_dotsep c = true -> is_caseless c = true.
Proof. cu_solve. Qed.

Lemma space_caseless (c : char16) : is_space c = true -> is_caseless c = true.
Proof. cu_solve. Qed.

Lemma sep_of_space (c : char16) : is_space c = true -> is_sep c = true.
Proof. cu_solve. Qed.

Lemma dotsep_of_sep (c : char16) : is_sep c = true -> is_dotsep c = true.
Proof. cu_solve. Qed.

Lemma sep_SPACE : is_sep SPACE = true.
Proof. reflexivity. Qed.

Lemma dotsep_SPACE : is_dotsep SPACE = true.
Proof. reflexivity. Qed.

Section CaseMappingFacts.
Context {cm : CaseMapping}.

(** No case mapping brings in a character of a caseless class. *)
Lemma toLowerCase_free (p : char16 -> bool) (s : jsstring) :
  (forall c, p c = true -> is_caseless c = true) ->
  free p s -> free p (toLowerCase s).
Proof.
  intros Hp H. unfold free in *. rewrite Forall_forall in *.
  intros c Hc. destruct (p c) eqn:E; [|reflexivity].
  specialize (H c (lower_fresh _ _ Hc (Hp _ E))). congruence.
Qed.

Lemma toUpperCase_free (p : char16 -> bool) (s : jsstring) :
  (forall c, p c = true -> is_caseless c = true) ->
  free p s -> free p (toUpperCase s).
Proof.
  intros Hp H. unfold free in *. rewrite Forall_forall in *.
  intros c Hc. destruct (p c) eqn:E; [|reflexivity].
  specialize (H c (upper_fresh _ _ Hc (Hp _ E))). congruence.
Qed.

Lemma toLowerCase_free_upper (s : jsstring) : free is_upper (toLowerCase s).
Proof.
  unfold free. apply Forall_forall. intros c Hc.
  eapply lower_no_upper; eassumption.
Qed.

Lemma toLowerCase_token (p : char16 -> bool) (w : jsstring) :
  (forall c, p c = true -> is_caseless c = true) ->
  is_token p w -> is_token p (toLowerCase w).
Proof.
  intros Hp [Hne Hw]. split; [|now apply toLowerCase_free].
  intros E. apply lower_nonempty in E. congruence.
Qed.

(** Plain strings without capital letters are already in lower case. *)
Lemma toLowerCase_plain_id (s : jsstring) :
  all is_plain s -> free is_upper s -> toLowerCase s = s.
Proof.
  intros Hp Hu. rewrite lower_plain by now apply forallb_all.
  clear Hp. induction s as [|c s IH]; [reflexivity|].
  apply free_cons in Hu as [Hc Hs]. cbn [map]. rewrite (IH Hs).
  unfold ascii_lower. now rewrite Hc.
Qed.

End CaseMappingFacts.

(** ** The words of each function are tokens *)

Lemma Kebab_words_tokens (str : jsstring) :
  Kebab.words str =
  tokens is_sep
    (filter kebab_keep
       (map underscore_to_space (replace_camel is_lower_or_digit str))).
Proof.
  unfold Kebab.words. now rewrite tokens_replace_runs.
Qed.

Lemma kept_not_sep_alnum (c : char16) :
  kebab_keep c = true -> is_sep c = false -> is_alnum c = true.
Proof. cu_solve. Qed.

(** The words of [toKebabCase] are runs of ASCII letters and digits. *)
Lemma Kebab_words_alnum (str : jsstring) :
  Forall (fun w => w <> [] /\ all is_alnum w) (Kebab.words str).
Proof.
  rewrite Kebab_words_tokens. apply Forall_forall. intros w Hw.
  destruct (proj1 (Forall_forall _ _) (tokens_are_tokens is_sep _) w Hw)
    as [Hne Hfree].
  split; [assumption|]. apply Forall_forall. intros c Hc.
  apply kept_not_sep_alnum.
  - pose proof (tokens_incl _ _ _ _ Hw Hc) as Hin.
    now apply filter_In in Hin as [_ Hk].
  - unfold free in Hfree. rewrite Forall_forall in Hfree. auto.
Qed.

Lemma Dot_words_tokens (str : jsstring) :
  Dot.words str =
  tokens is_dotsep (replace_acronym (replace_camel is_lower str)).
Proof.
  unfold Dot.words. now rewrite tokens_replace_runs.
Qed.

Lemma flat_map_truthy (g : jsstring -> list jsstring) (l : list jsstring) :
  flat_map (fun w => if is_empty w then [] else g w) l =
  flat_map g (filter truthy l).
Proof.
  induction l as [|w l IH]; [reflexivity|].
  cbn [flat_map filter]. unfold truthy at 1.
  destruct (is_empty w); cbn [negb flat_map]; now rewrite IH.
Qed.

Lemma Strict_resultWords_tokens (str : jsstring) :
  Strict.resultWords str =
  flat_map camel_tokens (tokens is_sep (replace_camel is_lower str)).
Proof.
  unfold Strict.resultWords.
  rewrite (flat_map_truthy (fun w => filter truthy (Strict.splitCamel w))).
  rewrite tokens_split_runs. apply flat_map_ext. intros w.
  unfold Strict.splitCamel, camel_tokens. apply tokens_split_on.
Qed.

(** ** Running the functions on ASCII literals

    On plain strings every case mapping is the ASCII one, so the calls on
    the literals below have the same result under all of them. *)

Ltac run_case :=
  repeat (cbv -[toLowerCase toUpperCase];
          first [ rewrite lower_plain by reflexivity
                | rewrite upper_plain by reflexivity ]);
  cbv -[toLowerCase toUpperCase].

Section Examples.
Context {cm : CaseMapping}.

Example kebab_hello_world :
  Kebab.toKebabCase (VString (js "Hello World")) = Return (js "hello-world").
Proof. run_case. reflexivity. Qed.

Example kebab_already_kebab :
  Kebab.toKebabCase (VString (js "Already--kebab--case"))
  = Return (js "already-kebab-case").
Proof. run_case. reflexivity. Qed.

Example kebab_special_chars :
  Kebab.toKebabCase (VString (js "Special!@# Chars$$$"))
  = Return (js "special-chars").
Proof. run_case. reflexivity. Qed.

Example camel_first_name :
  Strict.toCamelCase (VString (js "  first_name  ")) no_options
  = Return (js "firstName").
Proof. run_case. reflexivity. Qed.

Example camel_screen_name :
  Strict.toCamelCase (VString (js "SCREEN_NAME")) no_options
  = Return (js "screenName").
Proof. run_case. reflexivity. Qed.

Example dot_screen_name :
  Dot.toDotCase (VString (js "SCREEN_NAME")) = Return (js "screen.name").
Proof. run_case. reflexivity. Qed.

Example lenient_first_name :
  Lenient.toCamelCase (VString (js "first name")) = Return (js "firstName").
Proof. run_case. reflexivity. Qed.

End Examples.

(** ** What the words are made of *)

(** The acronym replacement only adds spaces. *)
Lemma replace_acronym_incl (s : jsstring) (c : char16) :
  In c (replace_acronym s) -> c = SPACE \/ In c s.
Proof.
  induction s as [s IH] using length_ind. rewrite replace_acronym_eq.
  destruct (re_acronym_exec s) as [[[g1 g2] r]|] eqn:E.
  - pose proof (re_acronym_exec_shorter _ _ _ _ E) as Hlen.
    apply re_acronym_exec_sound in E as (-> & _).
    intros H. apply in_app_or in H as [H|[H|H]].
    + right. apply in_or_app. now left.
    + left. now symmetry.
    + apply in_app_or in H as [H|H].
      * right. apply in_or_app. right. apply in_or_app. now left.
      * destruct (IH r Hlen H) as [?|?]; [now left|].
        right. apply in_or_app. right. apply in_or_app. now right.
  - destruct s as [|x t]; [contradiction|].
    intros [H|H]; [right; now left|].
    destruct (IH t (Nat.lt_succ_diag_r _) H); [now left|right; now right].
Qed.

Lemma split_runs_from_free (sep : char16 -> bool) (b : bool) (s : jsstring) :
  Forall (free sep) (split_runs_from sep b s).
Proof.
  revert b. induction s as [|c t IH]; intros b.
  - repeat constructor.
  - cbn [split_runs_from]. destruct (sep c) eqn:Hc.
    + destruct b; [apply IH|]. constructor; [constructor|apply IH].
    + specialize (IH false).
      destruct (split_runs_from sep false t) as [|w ws].
      * repeat constructor. exact Hc.
      * apply Forall_cons_iff in IH as [Hw Hws].
        constructor; [|assumption]. now constructor.
Qed.

Lemma Forall_mapi_from {A B : Type} (P : A -> Prop) (Q : B -> Prop)
  (f : A -> nat -> B) (i : nat) (l : list A) :
  (forall a j, P a -> Q (f a j)) -> Forall P l -> Forall Q (mapi_from i f l).
Proof.
  intros Hf H. revert i. induction H as [|a l Ha Hl IH]; intros i; cbn.
  - constructor.
  - constructor; [now apply Hf|apply IH].
Qed.

Lemma free_charAt0 (p : char16 -> bool) (s : jsstring) :
  free p s -> free p (charAt0 s).
Proof. intros H. destruct s; [constructor|]. apply free_cons in H as [H _]. now repeat constructor. Qed.

Lemma free_slice1 (p : char16 -> bool) (s : jsstring) :
  free p s -> free p (slice1 s).
Proof. intros H. destruct s; [constructor|]. now apply free_cons in H as [_ H]. Qed.

Lemma all_free (p q : char16 -> bool) (s : jsstring) :
  (forall c, p c = true -> q c = false) -> all p s -> free q s.
Proof. intros Hpq. apply Forall_impl. exact Hpq. Qed.

(** The words of the strict [toCamelCase] are tokens: not empty, free of
    white space, underscores and hyphens. *)
Lemma camel_tokens_are_tokens (w : jsstring) :
  free is_sep w -> Forall (is_token is_sep) (camel_tokens w).
Proof.
  intros Hw. apply Forall_forall. intros t Ht. unfold camel_tokens in Ht.
  destruct (proj1 (Forall_forall _ _) (tokens_are_tokens is_SPACE _) t Ht)
    as [Hne Hfree].
  split; [assumption|]. apply Forall_forall. intros c Hc.
  pose proof (tokens_incl _ _ _ _ Ht Hc) as Hin.
  apply (replace_camel_incl _ lower_or_digit_not_upper) in Hin as [->|Hin].
  - unfold free in Hfree. rewrite Forall_forall in Hfree.
    now specialize (Hfree _ Hc).
  - apply replace_acronym_incl in Hin as [->|Hin].
    + unfold free in Hfree. rewrite Forall_forall in Hfree.
      now specialize (Hfree _ Hc).
    + unfold free in Hw. rewrite Forall_forall in Hw. auto.
Qed.

Lemma Strict_resultWords_are_tokens (str : jsstring) :
  Forall (is_token is_sep) (Strict.resultWords str).
Proof.
  rewrite Strict_resultWords_tokens. apply Forall_flat_map.
  eapply Forall_impl; [|apply (tokens_are_tokens is_sep)].
  intros w [_ Hw]. now apply camel_tokens_are_tokens.
Qed.

Lemma Dot_words_are_tokens (str : jsstring) :
  Forall (is_token is_dotsep) (Dot.words str).
Proof. rewrite Dot_words_tokens. apply tokens_are_tokens. Qed.

Lemma argument_null_dec (arg : argument) : arg = ArgNull \/ arg <> ArgNull.
Proof. destruct arg; [right; discriminate|now left|right; discriminate]. Qed.

(** * The properties of the specification *)

(** C2. On an input that is not a string, the lenient functions
    ([toKebabCase] and the lenient [toCamelCase]) return the empty string,
    and the strict ones (the strict [toCamelCase], whatever its options,
    and [toDotCase]) throw a [TypeError] and return no string. *)
Theorem C2_non_string_input (cm : CaseMapping) (v : value) (opts : options) :
  typeof v <> TyString ->
  Kebab.toKebabCase v = Return [] /\
  Lenient.toCamelCase v = Return [] /\
  Strict.toCamelCase v opts = Throw not_a_string /\
  Dot.toDotCase v = Throw not_a_string.
Proof.
  intros Hv. destruct v; try (repeat split; reflexivity).
  now cbn in Hv.
Qed.

Lemma C2_non_string_input_witness :
  Kebab.toKebabCase VNull = Return [] /\
  Lenient.toCamelCase VNull = Return [] /\
  Strict.toCamelCase VNull no_options = Throw not_a_string /\
  Dot.toDotCase VNull = Throw not_a_string.
Proof.
  apply (C2_non_string_input latin1_case VNull no_options). discriminate.
Defined.

(** C3. The documentation of the strict [toCamelCase] promises ["FOOBar"]
    for ["FOO_BAR"] with [preserveAcronyms]; the code returns ["fooBAR"]:
    the first word is put in lower case, the preserved acronym [BAR] is
    kept as it is. *)
Theorem C3_foo_bar_preserved (cm : CaseMapping) :
  Strict.toCamelCase (VString (js "FOO_BAR")) (preserving true)
  = Return (js "fooBAR") /\
  Strict.toCamelCase (VString (js "FOO_BAR")) (preserving true)
  <> Return (js "FOOBar").
Proof.
  assert (E : Strict.toCamelCase (VString (js "FOO_BAR")) (preserving true)
              = Return (js "fooBAR")) by (run_case; reflexivity).
  split; [exact E|]. rewrite E. discriminate.
Qed.

(** C9, as the specification states it, fails for the strict
    [toCamelCase]: called with the string ["abc"] and the options [null]
    it throws, since the options are destructured before anything else.
    So not every call on a string returns. *)
Lemma C9_null_options_throw :
  typeof (VString (js "abc")) = TyString /\
  (forall cm : CaseMapping,
      Strict.toCamelCase_call (VString (js "abc")) ArgNull
      = Throw EngineTypeError) /\
  ~ (forall (cm : CaseMapping) (s : jsstring) (arg : argument),
        exists r, Strict.toCamelCase_call (VString s) arg = Return r).
Proof.
  split; [reflexivity|]. split; [reflexivity|].
  intros H. destruct (H latin1_case (js "abc") ArgNull) as [r Hr].
  discriminate.
Qed.

(** C9, amended.  On every string [toKebabCase], the lenient [toCamelCase]
    and [toDotCase] return a string and throw nothing, and so does the
    strict [toCamelCase] under every second argument but [null].  The
    strict [toCamelCase] throws exactly when its second argument is [null]
    or its input is no string, [toDotCase] exactly when its input is no
    string, and the lenient functions throw on no value.  The scan of the
    acronym replacement, the one loop of the model that is bounded by
    fuel, never runs out of it. *)
Theorem C9_total_on_strings (cm : CaseMapping) (s : jsstring) (v : value)
  (arg : argument) :
  (exists r, Kebab.toKebabCase (VString s) = Return r) /\
  (exists r, Lenient.toCamelCase (VString s) = Return r) /\
  (exists r, Dot.toDotCase (VString s) = Return r) /\
  (arg <> ArgNull ->
   exists r, Strict.toCamelCase_call (VString s) arg = Return r) /\
  ((exists e, Strict.toCamelCase_call v arg = Throw e)
   <-> arg = ArgNull \/ typeof v <> TyString) /\
  ((exists e, Dot.toDotCase v = Throw e) <-> typeof v <> TyString) /\
  (exists r, Kebab.toKebabCase v = Return r) /\
  (exists r, Lenient.toCamelCase v = Return r) /\
  (forall (n : nat) (t : jsstring),
     replace_acronym_from (List.length t + n) t = replace_acronym t).
Proof.
  assert (HK : forall t, exists r, Kebab.toKebabCase (VString t) = Return r).
  { intros t. cbn [Kebab.toKebabCase]. destruct (is_empty (trim t)); [eauto|].
    destruct (List.length (Kebab.words (trim t)) =? 0)%nat; eauto. }
  assert (HS : forall t opts, exists r,
               Strict.toCamelCase (VString t) opts = Return r).
  { intros t opts. cbn [Strict.toCamelCase].
    destruct (is_empty (trim t) || only is_sep (trim t)); [eauto|].
    destruct (List.length (Strict.resultWords (trim t)) =? 0)%nat; eauto. }
  assert (HC : forall t, arg <> ArgNull -> exists r,
               Strict.toCamelCase_call (VString t) arg = Return r).
  { intros t Harg. destruct arg as [| |opts]; [apply HS|congruence|apply HS]. }
  assert (HL : forall t, exists r, Lenient.toCamelCase (VString t) = Return r)
    by (intros t; cbn [Lenient.toCamelCase]; eauto).
  assert (HD : forall t, exists r, Dot.toDotCase (VString t) = Return r).
  { intros t. cbn [Dot.toDotCase].
    destruct (is_empty (trim t) || only is_dotsep (trim t)); eauto. }
  split; [apply HK|]. split; [apply HL|]. split; [apply HD|].
  split; [apply HC|].
  split; [|split; [|split; [|split]]].
  - destruct (argument_null_dec arg) as [->|Harg].
    { split; [intros _; now left|intros _; cbn; eauto]. }
    destruct v as [| | | |t|]; cbn [typeof];
      try (split; [intros _; right; discriminate
                  |intros _; destruct arg; cbn; eauto; congruence]).
    destruct (HC t Harg) as [r E]. rewrite E.
    split; [intros [e He]; discriminate|intros [H|H]; congruence].
  - destruct v as [| | | |t|]; cbn [typeof];
      try (split; [discriminate|intros _; cbn; eauto]).
    destruct (HD t) as [r E]. rewrite E.
    split; [intros [e He]; discriminate|congruence].
  - destruct v; try apply HK; cbn; eauto.
  - destruct v; try apply HL; cbn; eauto.
  - intros n t. unfold replace_acronym.
    apply replace_acronym_from_enough; lia.
Qed.

Lemma C9_total_on_strings_witness :
  (exists r, Kebab.toKebabCase (VString (js "Hello World")) = Return r) /\
  (exists r, Lenient.toCamelCase (VString (js "Hello World")) = Return r) /\
  (exists r, Dot.toDotCase (VString (js "Hello World")) = Return r) /\
  (exists r, Strict.toCamelCase_call (VString (js "Hello World"))
               (ArgValue (preserving true)) = Return r) /\
  ((exists e, Strict.toCamelCase_call VNull (ArgValue (preserving true))
              = Throw e)
   <-> ArgValue (preserving true) = ArgNull \/ typeof VNull <> TyString).
Proof.
  destruct (C9_total_on_strings latin1_case (js "Hello World") VNull
              (ArgValue (preserving true)))
    as (HK & HL & HD & HC & HT & _).
  split; [exact HK|]. split; [exact HL|]. split; [exact HD|].
  split; [apply HC; discriminate|exact HT].
Defined.

(** ** The shape of the results *)

Lemma alnum_lowered (c : char16) :
  is_alnum c = true -> is_lower_or_digit (ascii_lower c) = true.
Proof. cu_solve. Qed.

Lemma alnum_or_hyphen_plain (c : char16) :
  is_alnum c || is_HYPHEN c = true -> is_plain c = true.
Proof. unfold is_HYPHEN. cu_solve. Qed.

Section Results.
Context {cm : CaseMapping}.

(** The result of [toKebabCase], on every input: kebab words joined by
    hyphens. *)
Lemma Kebab_result (v : value) :
  exists ws, Forall kebab_word ws /\
             Kebab.toKebabCase v = Return (join [HYPHEN] ws).
Proof.
  assert (Hnil : exists ws, Forall kebab_word ws /\
                            Return [] = Return (join [HYPHEN] ws))
    by (exists []; split; [constructor|reflexivity]).
  destruct v as [| | | |s|]; try exact Hnil.
  cbn [Kebab.toKebabCase]. destruct (is_empty (trim s)); [exact Hnil|].
  destruct (List.length (Kebab.words (trim s)) =? 0)%nat; [exact Hnil|].
  pose proof (Kebab_words_alnum (trim s)) as HW.
  set (W := Kebab.words (trim s)) in *.
  exists (map (map ascii_lower) W). split.
  - apply Forall_map. eapply Forall_impl; [|exact HW].
    intros w [Hne Hw]. split.
    + destruct w; [congruence|discriminate].
    + apply Forall_map. eapply Forall_impl; [|exact Hw].
      apply alnum_lowered.
  - rewrite lower_plain.
    + now rewrite map_join.
    + apply forallb_forall. intros c Hc. apply alnum_or_hyphen_plain.
      apply join_incl in Hc as [[<-|[]]|(w & Hw & Hc)].
      * apply orb_true_r.
      * rewrite Forall_forall in HW. destruct (HW w Hw) as [_ Ha].
        unfold all in Ha. rewrite Forall_forall in Ha.
        now rewrite (Ha c Hc).
Qed.

Lemma Dot_result (s : jsstring) :
  exists ws, Forall dot_word ws /\
             Dot.toDotCase (VString s) = Return (join [DOT] ws).
Proof.
  cbn [Dot.toDotCase].
  destruct (is_empty (trim s) || only is_dotsep (trim s)).
  - exists []. split; [constructor|reflexivity].
  - exists (map toLowerCase (Dot.words (trim s))). split; [|reflexivity].
    apply Forall_map. eapply Forall_impl; [|apply Dot_words_are_tokens].
    intros w Hw. repeat split.
    + apply (toLowerCase_token is_dotsep w dotsep_caseless Hw).
    + apply toLowerCase_token; [apply dotsep_caseless|exact Hw].
    + apply toLowerCase_free_upper.
    + apply lower_idem.
Qed.

(** The pieces that the strict [toCamelCase] builds from its words. *)
Lemma Strict_build_free (preserve : bool) (w : jsstring) (i : nat) :
  free is_sep w -> free is_sep (Strict.build preserve w i).
Proof.
  intros Hw. unfold Strict.build.
  pose proof (toLowerCase_free is_sep w sep_caseless Hw) as Hl.
  destruct (preserve && only is_upper_or_digit w && (1 <? List.length w)%nat).
  - destruct (i =? 0)%nat; assumption.
  - destruct (i =? 0)%nat; [assumption|].
    apply free_app. split.
    + apply toUpperCase_free; [apply sep_caseless|]. now apply free_charAt0.
    + now apply free_slice1.
Qed.

Lemma Strict_result (s : jsstring) (opts : options) :
  exists r, Strict.toCamelCase (VString s) opts = Return r /\ free is_sep r.
Proof.
  cbn [Strict.toCamelCase].
  destruct (is_empty (trim s) || only is_sep (trim s)).
  - exists []. split; [reflexivity|constructor].
  - destruct (List.length (Strict.resultWords (trim s)) =? 0)%nat.
    + exists []. split; [reflexivity|constructor].
    + eexists. split; [reflexivity|].
      apply join_free; [constructor|]. unfold mapi.
      eapply Forall_mapi_from; [|apply Strict_resultWords_are_tokens].
      intros w j [_ Hw]. now apply Strict_build_free.
Qed.

Lemma Lenient_words_runs (s : jsstring) :
  Lenient.words s = split_runs is_sep (toLowerCase (trim s)).
Proof.
  unfold Lenient.words, replace_runs, split_runs.
  apply split_on_replace_runs. reflexivity.
Qed.

Lemma Lenient_capitalize_free (w : jsstring) (i : nat) :
  free is_sep w -> free is_sep (Lenient.capitalize w i).
Proof.
  intros Hw. unfold Lenient.capitalize.
  destruct (i =? 0)%nat; [assumption|].
  destruct (0 <? List.length w)%nat; [|assumption].
  apply free_app. split.
  - apply toUpperCase_free; [apply sep_caseless|]. now apply free_charAt0.
  - now apply free_slice1.
Qed.

Lemma Lenient_result (s : jsstring) :
  exists r, Lenient.toCamelCase (VString s) = Return r /\ free is_sep r.
Proof.
  cbn [Lenient.toCamelCase]. eexists. split; [reflexivity|].
  apply join_free; [constructor|]. unfold mapi.
  eapply Forall_mapi_from; [|rewrite Lenient_words_runs;
                              apply split_runs_from_free].
  intros w j Hw. now apply Lenient_capitalize_free.
Qed.

End Results.

Lemma space_is_sep_false (c : char16) : is_sep c = false -> is_space c = false.
Proof. cu_solve. Qed.

Lemma underscore_is_sep_false (c : char16) :
  is_sep c = false -> is_UNDERSCORE c = false.
Proof. unfold is_UNDERSCORE. cu_solve. Qed.

Lemma free_sep_space (s : jsstring) : free is_sep s -> free is_space s.
Proof. apply Forall_impl, space_is_sep_false. Qed.

Lemma free_sep_underscore (s : jsstring) :
  free is_sep s -> free is_UNDERSCORE s.
Proof. apply Forall_impl, underscore_is_sep_false. Qed.

Lemma kebab_char_facts (c : char16) :
  is_lower_or_digit c = true ->
  is_space c = false /\ is_UNDERSCORE c = false /\ is_upper c = false /\
  is_HYPHEN c = false /\ is_sep c = false.
Proof. unfold is_UNDERSCORE, is_HYPHEN. cu_solve. Qed.

Lemma dotsep_facts (c : char16) :
  is_dotsep c = false ->
  is_space c = false /\ is_UNDERSCORE c = false /\ is_DOT c = false.
Proof. unfold is_UNDERSCORE, is_DOT. cu_solve. Qed.

Lemma kebab_word_free (p : char16 -> bool) (ws : list jsstring) :
  (forall c, is_lower_or_digit c = true -> p c = false) ->
  Forall kebab_word ws -> Forall (free p) ws.
Proof.
  intros Hp. apply Forall_impl. intros w [_ Hw]. revert Hw.
  now apply all_free.
Qed.

(** C5. On every string, the result of each of the four functions holds
    no white space and no underscore; the results of [toKebabCase] and of
    [toDotCase] hold no ASCII capital letter either. *)
Theorem C5_no_space_underscore_upper (cm : CaseMapping) (s : jsstring)
  (opts : options) :
  (exists r, Kebab.toKebabCase (VString s) = Return r /\
             free is_space r /\ free is_UNDERSCORE r /\ free is_upper r) /\
  (exists r, Dot.toDotCase (VString s) = Return r /\
             free is_space r /\ free is_UNDERSCORE r /\ free is_upper r) /\
  (exists r, Strict.toCamelCase (VString s) opts = Return r /\
             free is_space r /\ free is_UNDERSCORE r) /\
  (exists r, Lenient.toCamelCase (VString s) = Return r /\
             free is_space r /\ free is_UNDERSCORE r).
Proof.
  split; [|split; [|split]].
  - destruct (Kebab_result (VString s)) as (ws & Hws & E).
    eexists. split; [exact E|].
    repeat split; (apply join_free; [now repeat constructor|]);
      (apply kebab_word_free; [|exact Hws]); intros c Hc;
      apply (kebab_char_facts c Hc).
  - destruct (Dot_result s) as (ws & Hws & E).
    eexists. split; [exact E|].
    repeat split; (apply join_free; [now repeat constructor|]);
      (eapply Forall_impl; [|exact Hws]); intros w ([_ Hw] & Hu & _);
      try exact Hu;
      (eapply Forall_impl; [|exact Hw]); intros c Hc;
      apply (dotsep_facts c Hc).
  - destruct (Strict_result s opts) as (r & E & Hr).
    exists r. split; [exact E|].
    split; [now apply free_sep_space|now apply free_sep_underscore].
  - destruct (Lenient_result s) as (r & E & Hr).
    exists r. split; [exact E|].
    split; [now apply free_sep_space|now apply free_sep_underscore].
Qed.

Lemma C5_no_space_underscore_upper_witness :
  (exists r, Kebab.toKebabCase (VString (js "Hello_big World")) = Return r /\
             free is_space r /\ free is_UNDERSCORE r /\ free is_upper r) /\
  (exists r, Dot.toDotCase (VString (js "Hello_big World")) = Return r /\
             free is_space r /\ free is_UNDERSCORE r /\ free is_upper r) /\
  (exists r, Strict.toCamelCase (VString (js "Hello_big World")) no_options
             = Return r /\
             free is_space r /\ free is_UNDERSCORE r) /\
  (exists r, Lenient.toCamelCase (VString (js "Hello_big World")) = Return r /\
             free is_space r /\ free is_UNDERSCORE r).
Proof.
  exact (C5_no_space_underscore_upper latin1_case (js "Hello_big World")
           no_options).
Defined.

Lemma kebab_word_token (w : jsstring) : kebab_word w -> is_token is_HYPHEN w.
Proof.
  intros [Hne Hw]. split; [assumption|]. revert Hw. apply all_free.
  intros c Hc. apply (kebab_char_facts c Hc).
Qed.

Lemma dot_token (w : jsstring) : is_token is_dotsep w -> is_token is_DOT w.
Proof.
  intros [Hne Hw]. split; [assumption|]. revert Hw. apply Forall_impl.
  intros c Hc. apply (dotsep_facts c Hc).
Qed.

(** C10. The result of [toKebabCase], on every input, is made of
    lower-case ASCII letters, digits and hyphens, with no hyphen in front,
    none at the end and no two in a row; the result of [toDotCase], on
    every string, has no dot in front, none at the end and no two in a
    row. *)
Theorem C10_separators_well_placed (cm : CaseMapping) (v : value)
  (s : jsstring) :
  (exists r, Kebab.toKebabCase v = Return r /\
             all kebab_char r /\
             starts_with HYPHEN r = false /\
             ends_with HYPHEN r = false /\
             has_double HYPHEN r = false) /\
  (exists r, Dot.toDotCase (VString s) = Return r /\
             starts_with DOT r = false /\
             ends_with DOT r = false /\
             has_double DOT r = false).
Proof.
  split.
  - destruct (Kebab_result v) as (ws & Hws & E).
    eexists. split; [exact E|]. split.
    + apply Forall_forall. intros c Hc. unfold kebab_char.
      apply join_incl in Hc as [[<-|[]]|(w & Hw & Hc)]; [reflexivity|].
      rewrite Forall_forall in Hws. destruct (Hws w Hw) as [_ Ha].
      unfold all in Ha. rewrite Forall_forall in Ha.
      specialize (Ha c Hc). unfold is_lower_or_digit in Ha. now rewrite Ha.
    + apply (join_shape HYPHEN). eapply Forall_impl; [|exact Hws].
      apply kebab_word_token.
  - destruct (Dot_result s) as (ws & Hws & E).
    eexists. split; [exact E|].
    apply (join_shape DOT). eapply Forall_impl; [|exact Hws].
    intros w (Hw & _). now apply dot_token.
Qed.

Lemma C10_separators_well_placed_witness :
  (exists r, Kebab.toKebabCase (VString (js "--Already--kebab--")) = Return r /\
             all kebab_char r /\
             starts_with HYPHEN r = false /\
             ends_with HYPHEN r = false /\
             has_double HYPHEN r = false) /\
  (exists r, Dot.toDotCase (VString (js "..a..b..")) = Return r /\
             starts_with DOT r = false /\
             ends_with DOT r = false /\
             has_double DOT r = false).
Proof.
  exact (C10_separators_well_placed latin1_case
           (VString (js "--Already--kebab--")) (js "..a..b..")).
Defined.

(** ** Running a function on its own result *)

Lemma map_underscore_free (s : jsstring) :
  free is_UNDERSCORE s -> map underscore_to_space s = s.
Proof.
  induction s as [|c s IH]; [reflexivity|].
  intros H. apply free_cons in H as [Hc Hs]. cbn [map].
  rewrite (IH Hs). unfold underscore_to_space.
  unfold is_UNDERSCORE in Hc. now rewrite Hc.
Qed.

Lemma filter_all (p : char16 -> bool) (s : jsstring) :
  all p s -> filter p s = s.
Proof.
  induction s as [|c s IH]; [reflexivity|].
  intros H. apply Forall_cons_iff in H as [Hc Hs]. cbn [filter].
  now rewrite Hc, (IH Hs).
Qed.

Lemma split_runs_from_word (sep : char16 -> bool) (b : bool) (t : jsstring) :
  free sep t -> split_runs_from sep b t = [t].
Proof.
  revert b. induction t as [|c t IH]; intros b H; [reflexivity|].
  apply free_cons in H as [Hc Ht]. cbn [split_runs_from].
  now rewrite Hc, (IH false Ht).
Qed.

Lemma split_runs_from_all_sep (sep : char16 -> bool) (b : bool)
  (t : jsstring) :
  all sep t -> Forall (fun w => w = []) (split_runs_from sep b t).
Proof.
  revert b. induction t as [|c t IH]; intros b H.
  - repeat constructor.
  - apply Forall_cons_iff in H as [Hc Ht]. cbn [split_runs_from].
    rewrite Hc. destruct b; [now apply IH|].
    constructor; [reflexivity|now apply IH].
Qed.

Lemma join_empties (ws : list jsstring) :
  Forall (fun w => w = []) ws -> join [] ws = [].
Proof.
  induction 1 as [|w ws Hw _ IH]; [reflexivity|].
  subst w. cbn [join]. destruct ws; [reflexivity|exact IH].
Qed.

Lemma kebab_word_chars (c : char16) :
  is_lower_or_digit c = true ->
  kebab_keep c = true /\ is_plain c = true.
Proof. cu_solve. Qed.

Section Idempotence.
Context {cm : CaseMapping}.

(** [toKebabCase] returns kebab words joined by hyphens as they are. *)
Lemma Kebab_fixed_point (ws : list jsstring) :
  Forall kebab_word ws ->
  Kebab.toKebabCase (VString (join [HYPHEN] ws)) = Return (join [HYPHEN] ws).
Proof.
  intros Hws. destruct ws as [|w rest]; [reflexivity|].
  assert (Hne : join [HYPHEN] (w :: rest) <> []).
  { apply join_nonempty. apply Forall_cons_iff in Hws as [[Hne _] _].
    exact Hne. }
  assert (Htok : Forall (is_token is_sep) (w :: rest)).
  { eapply Forall_impl; [|exact Hws]. intros v [Hv Ha].
    split; [assumption|]. revert Ha. apply all_free.
    intros c Hc. apply (kebab_char_facts c Hc). }
  remember (join [HYPHEN] (w :: rest)) as r eqn:Er.
  assert (Hchars : forall c, In c r ->
            is_lower_or_digit c = true \/ c = HYPHEN).
  { intros c Hc. rewrite Er in Hc.
    apply join_incl in Hc as [[<-|[]]|(v & Hv & Hc)]; [now right|left].
    rewrite Forall_forall in Hws. destruct (Hws v Hv) as [_ Ha].
    unfold all in Ha. rewrite Forall_forall in Ha. auto. }
  assert (Hfree : forall p : char16 -> bool,
            (forall c, is_lower_or_digit c = true -> p c = false) ->
            p HYPHEN = false -> free p r).
  { intros p Hp Hh. apply Forall_forall. intros c Hc.
    destruct (Hchars c Hc) as [H| ->]; auto. }
  assert (Hkeep : all kebab_keep r /\ all is_plain r).
  { split; apply Forall_forall; intros c Hc;
      (destruct (Hchars c Hc) as [H| ->]; [|reflexivity]);
      apply (kebab_word_chars c H). }
  assert (Hsp : free is_space r)
    by (apply Hfree; [intros c Hc; apply (kebab_char_facts c Hc)|reflexivity]).
  assert (Hus : free is_UNDERSCORE r)
    by (apply Hfree; [intros c Hc; apply (kebab_char_facts c Hc)|reflexivity]).
  assert (Hup : free is_upper r)
    by (apply Hfree; [intros c Hc; apply (kebab_char_facts c Hc)|reflexivity]).
  assert (EW : Kebab.words r = w :: rest).
  { rewrite Kebab_words_tokens.
    rewrite (replace_camel_free _ lower_or_digit_not_upper) by assumption.
    rewrite map_underscore_free by assumption.
    rewrite filter_all by apply Hkeep.
    rewrite Er. now apply tokens_join. }
  cbn [Kebab.toKebabCase]. rewrite (trim_free r Hsp), EW.
  assert (Hie : is_empty r = false) by (destruct r; [congruence|reflexivity]).
  rewrite Hie. cbn [List.length Nat.eqb]. f_equal.
  rewrite <- Er. apply toLowerCase_plain_id; [apply Hkeep|assumption].
Qed.

(** [toDotCase] returns dot words joined by dots as they are. *)
Lemma Dot_fixed_point (ws : list jsstring) :
  Forall dot_word ws ->
  Dot.toDotCase (VString (join [DOT] ws)) = Return (join [DOT] ws).
Proof.
  intros Hws. destruct ws as [|w rest]; [reflexivity|].
  assert (Hhd : exists c r', join [DOT] (w :: rest) = c :: r' /\
                             is_dotsep c = false).
  { apply Forall_cons_iff in Hws as [([Hne Hw] & _) _].
    destruct w as [|c w']; [congruence|].
    apply free_cons in Hw as [Hc _]. cbn [join].
    destruct rest; cbn [app]; eauto. }
  assert (EL : map toLowerCase (w :: rest) = w :: rest).
  { clear -Hws. induction Hws as [|v vs (_ & _ & Hv) _ IH];
      [reflexivity|]. cbn [map]. now rewrite Hv, IH. }
  assert (Htok : Forall (is_token is_dotsep) (w :: rest)).
  { eapply Forall_impl; [|exact Hws]. now intros v (Hv & _). }
  remember (join [DOT] (w :: rest)) as r eqn:Er.
  assert (Hup : free is_upper r).
  { rewrite Er. apply join_free; [now repeat constructor|].
    eapply Forall_impl; [|exact Hws]. now intros v (_ & Hu & _). }
  assert (Hsp : free is_space r).
  { rewrite Er. apply join_free; [now repeat constructor|].
    eapply Forall_impl; [|exact Hws]. intros v ([_ Hv] & _).
    revert Hv. apply Forall_impl. intros c Hc. apply (dotsep_facts c Hc). }
  assert (EW : Dot.words r = w :: rest).
  { rewrite Dot_words_tokens.
    rewrite (replace_camel_free _ lower_not_upper) by assumption.
    rewrite replace_acronym_free by assumption.
    rewrite Er. now apply tokens_join. }
  cbn [Dot.toDotCase]. rewrite (trim_free r Hsp), EW, EL, <- Er.
  destruct Hhd as (c & r' & -> & Hc).
  cbn [is_empty only truthy negb forallb orb andb]. now rewrite Hc.
Qed.

(** On a string without separators the lenient [toCamelCase] is
    [toLowerCase]. *)
Lemma Lenient_on_word (r : jsstring) :
  free is_sep r -> Lenient.toCamelCase (VString r) = Return (toLowerCase r).
Proof.
  intros Hr. cbn [Lenient.toCamelCase]. rewrite Lenient_words_runs.
  rewrite trim_free by now apply free_sep_space.
  unfold split_runs. rewrite split_runs_from_word.
  - reflexivity.
  - now apply toLowerCase_free; [apply sep_caseless|].
Qed.

End Idempotence.

(** C4, as the specification states it, fails for the lenient
    [toCamelCase]: it turns ["first name"] into ["firstName"], and
    ["firstName"] into ["firstname"]. *)
Lemma C4_lenient_not_idempotent :
  (forall cm : CaseMapping,
      Lenient.toCamelCase (VString (js "first name"))
      = Return (js "firstName")) /\
  (forall cm : CaseMapping,
      Lenient.toCamelCase (VString (js "firstName"))
      = Return (js "firstname")) /\
  js "firstName" <> js "firstname".
Proof.
  split; [|split].
  - intros cm. run_case. reflexivity.
  - intros cm. run_case. reflexivity.
  - discriminate.
Qed.

(** C4, amended.  [toKebabCase] (on every input) and [toDotCase] (on
    every string) return their own result unchanged when run on it.  The
    lenient [toCamelCase] run on its own result returns that result in
    lower case, and this lower-cased string is a fixed point: it is
    idempotent from its second run on. *)
Theorem C4_idempotence (cm : CaseMapping) (v : value) (s : jsstring) :
  (exists r, Kebab.toKebabCase v = Return r /\
             Kebab.toKebabCase (VString r) = Return r) /\
  (exists r, Dot.toDotCase (VString s) = Return r /\
             Dot.toDotCase (VString r) = Return r) /\
  (exists r, Lenient.toCamelCase (VString s) = Return r /\
             Lenient.toCamelCase (VString r) = Return (toLowerCase r) /\
             Lenient.toCamelCase (VString (toLowerCase r))
             = Return (toLowerCase r)).
Proof.
  split; [|split].
  - destruct (Kebab_result v) as (ws & Hws & E).
    eexists. split; [exact E|]. now apply Kebab_fixed_point.
  - destruct (Dot_result s) as (ws & Hws & E).
    eexists. split; [exact E|]. now apply Dot_fixed_point.
  - destruct (Lenient_result s) as (r & E & Hr).
    exists r. split; [exact E|]. split; [now apply Lenient_on_word|].
    rewrite Lenient_on_word.
    + now rewrite lower_idem.
    + now apply toLowerCase_free; [apply sep_caseless|].
Qed.

Lemma C4_idempotence_witness :
  (exists r, Kebab.toKebabCase (VString (js "Hello World")) = Return r /\
             Kebab.toKebabCase (VString r) = Return r) /\
  (exists r, Dot.toDotCase (VString (js "first name")) = Return r /\
             Dot.toDotCase (VString r) = Return r) /\
  (exists r, Lenient.toCamelCase (VString (js "first name")) = Return r /\
             Lenient.toCamelCase (VString r) = Return (toLowerCase r) /\
             Lenient.toCamelCase (VString (toLowerCase r))
             = Return (toLowerCase r)).
Proof.
  exact (C4_idempotence latin1_case (VString (js "Hello World"))
           (js "first name")).
Defined.

(** ** Inputs without words *)

Lemma sep_plain_not_upper (c : char16) :
  is_sep c = true -> is_plain c = true /\ is_upper c = false.
Proof. cu_solve. Qed.

Lemma not_alnum_facts (c : char16) :
  is_alnum c = false -> is_upper c = false.
Proof. cu_solve. Qed.

Lemma kept_not_alnum_sep (c : char16) :
  is_alnum c = false -> kebab_keep (underscore_to_space c) = true ->
  is_sep (underscore_to_space c) = true.
Proof. unfold underscore_to_space. cu_solve. Qed.

Lemma only_all (p : char16 -> bool) (s : jsstring) :
  all p s -> is_empty s || only p s = true.
Proof.
  intros H. unfold only, truthy. destruct (is_empty s); [reflexivity|].
  cbn [negb orb andb]. now apply forallb_all.
Qed.

Section NoWords.
Context {cm : CaseMapping}.

Lemma Kebab_not_alnum (u : jsstring) :
  free is_alnum u -> Kebab.toKebabCase (VString u) = Return [].
Proof.
  intros Hu. cbn [Kebab.toKebabCase].
  destruct (is_empty (trim u)); [reflexivity|].
  assert (Ht : free is_alnum (trim u))
    by (revert Hu; apply free_incl, trim_incl).
  assert (EW : Kebab.words (trim u) = []).
  { rewrite Kebab_words_tokens.
    rewrite (replace_camel_free _ lower_or_digit_not_upper)
      by (revert Ht; apply Forall_impl, not_alnum_facts).
    apply tokens_all_sep. apply Forall_forall. intros c Hc.
    apply filter_In in Hc as [Hc Hk].
    apply in_map_iff in Hc as (x & <- & Hx).
    apply kept_not_alnum_sep; [|assumption].
    unfold free in Ht. rewrite Forall_forall in Ht. auto. }
  now rewrite EW.
Qed.

Lemma Strict_only_sep (s : jsstring) (opts : options) :
  all is_sep s -> Strict.toCamelCase (VString s) opts = Return [].
Proof.
  intros Hs. cbn [Strict.toCamelCase].
  now rewrite (only_all is_sep (trim s)) by now apply trim_all.
Qed.

Lemma Dot_only_sep (t : jsstring) :
  all is_dotsep t -> Dot.toDotCase (VString t) = Return [].
Proof.
  intros Ht. cbn [Dot.toDotCase].
  now rewrite (only_all is_dotsep (trim t)) by now apply trim_all.
Qed.

Lemma Lenient_capitalize_empty (i : nat) : Lenient.capitalize [] i = [].
Proof. unfold Lenient.capitalize. now destruct (i =? 0)%nat. Qed.

Lemma Lenient_only_sep (s : jsstring) :
  all is_sep s -> Lenient.toCamelCase (VString s) = Return [].
Proof.
  intros Hs. cbn [Lenient.toCamelCase]. f_equal.
  apply join_empties. unfold mapi.
  apply Forall_mapi_from with (P := fun w => w = []).
  - intros w j ->. apply Lenient_capitalize_empty.
  - rewrite Lenient_words_runs.
    pose proof (trim_all is_sep s Hs) as Ht.
    rewrite toLowerCase_plain_id.
    + now apply split_runs_from_all_sep.
    + revert Ht. apply Forall_impl. intros c Hc.
      apply (sep_plain_not_upper c Hc).
    + revert Ht. apply Forall_impl. intros c Hc.
      apply (sep_plain_not_upper c Hc).
Qed.

End NoWords.

Lemma sep_not_alnum (c : char16) : is_sep c = true -> is_alnum c = false.
Proof. cu_solve. Qed.

(** C1, as the specification states it, fails on punctuation: the strict
    and the lenient [toCamelCase] and [toDotCase] strip no punctuation,
    and return ["!@#"] as it is. *)
Lemma C1_punctuation_is_kept :
  (forall (cm : CaseMapping) (opts : options),
      Strict.toCamelCase (VString (js "!@#")) opts = Return (js "!@#")) /\
  (forall cm : CaseMapping,
      Lenient.toCamelCase (VString (js "!@#")) = Return (js "!@#")) /\
  (forall cm : CaseMapping,
      Dot.toDotCase (VString (js "!@#")) = Return (js "!@#")) /\
  js "!@#" <> [].
Proof.
  repeat split.
  - intros cm [[[|]|]]; run_case; reflexivity.
  - intros cm. run_case. reflexivity.
  - intros cm. run_case. reflexivity.
  - discriminate.
Qed.

(** C1, amended.  A string that is empty or made only of separators
    (white space, underscores, hyphens; for [toDotCase] dots too) yields
    the empty string in each of the four functions, whatever the options;
    a string without any ASCII letter or digit, so one made only of
    punctuation, yields the empty string in [toKebabCase], the one
    function with a step that strips punctuation. *)
Theorem C1_empty_result (cm : CaseMapping) (s t u : jsstring)
  (opts : options) :
  all is_sep s -> all is_dotsep t -> free is_alnum u ->
  (Kebab.toKebabCase (VString s) = Return [] /\
   Strict.toCamelCase (VString s) opts = Return [] /\
   Lenient.toCamelCase (VString s) = Return []) /\
  Dot.toDotCase (VString t) = Return [] /\
  Kebab.toKebabCase (VString u) = Return [].
Proof.
  intros Hs Ht Hu. repeat split.
  - apply Kebab_not_alnum. revert Hs. apply Forall_impl, sep_not_alnum.
  - now apply Strict_only_sep.
  - now apply Lenient_only_sep.
  - now apply Dot_only_sep.
  - now apply Kebab_not_alnum.
Qed.

Lemma C1_empty_result_witness :
  (Kebab.toKebabCase (VString (js "___---___")) = Return [] /\
   Strict.toCamelCase (VString (js "___---___")) no_options = Return [] /\
   Lenient.toCamelCase (VString (js "___---___")) = Return []) /\
  Dot.toDotCase (VString (js " ._-")) = Return [] /\
  Kebab.toKebabCase (VString (js "!@#")) = Return [].
Proof.
  apply (C1_empty_result latin1_case (js "___---___") (js " ._-") (js "!@#")
           no_options);
    apply forallb_all || apply Forall_forall; try reflexivity.
  intros c Hc. cbn in Hc.
  repeat (destruct Hc as [<-|Hc]; [reflexivity|]). contradiction.
Defined.

(** ** The acronym boundary *)

Lemma replace_camel_upper_prefix (L : char16 -> bool) (u s : jsstring) :
  (forall c, L c = true -> is_upper c = false) ->
  all is_upper u -> replace_camel L (u ++ s) = u ++ replace_camel L s.
Proof.
  intros HL. induction 1 as [|x u Hx _ IH]; [reflexivity|].
  cbn [app]. now rewrite (replace_camel_upper L HL), IH.
Qed.

Lemma replace_camel_free_class (L : char16 -> bool) (s : jsstring) :
  (forall c, L c = true -> is_upper c = false) ->
  free L s -> replace_camel L s = s.
Proof.
  intros HL. induction 1 as [|x s Hx _ IH]; [reflexivity|].
  now rewrite (replace_camel_step L HL), Hx, IH.
Qed.

Lemma replace_acronym_run (u rest : jsstring) (c l : char16) :
  u <> [] -> all is_upper u -> is_upper c = true -> is_lower l = true ->
  replace_acronym (u ++ c :: l :: rest) =
  u ++ SPACE :: c :: l :: replace_acronym rest.
Proof.
  intros Hne Hu Hc Hl. rewrite replace_acronym_eq.
  now rewrite re_acronym_exec_run.
Qed.

Lemma replace_acronym_pair (rest : jsstring) (c l : char16) :
  is_upper c = true -> is_lower l = true ->
  replace_acronym (c :: l :: rest) = c :: l :: replace_acronym rest.
Proof.
  intros Hc Hl. pose proof (lower_not_upper l Hl) as Hl'.
  rewrite replace_acronym_eq.
  assert (E : re_acronym_exec (c :: l :: rest) = None).
  { cbn [re_acronym_exec]. rewrite Hc, Hl'. destruct rest; reflexivity. }
  rewrite E. now rewrite replace_acronym_not_upper.
Qed.

Lemma upper_facts (c : char16) :
  is_upper c = true ->
  is_sep c = false /\ is_dotsep c = false /\ is_SPACE c = false /\
  is_lower_or_digit c = false /\ is_lower c = false.
Proof. unfold is_SPACE. cu_solve. Qed.

Lemma lower_facts (c : char16) :
  is_lower c = true ->
  is_sep c = false /\ is_dotsep c = false /\ is_SPACE c = false /\
  is_lower_or_digit c = true.
Proof. unfold is_SPACE. cu_solve. Qed.

Lemma upper_run_token (sep : char16 -> bool) (u : jsstring) :
  (forall c, is_upper c = true -> sep c = false) ->
  u <> [] -> all is_upper u -> is_token sep u.
Proof.
  intros Hsep Hne Hu. split; [assumption|]. revert Hu. now apply all_free.
Qed.

Lemma Dot_words_acronym (u rest : jsstring) (c l : char16) :
  u <> [] -> all is_upper u -> is_upper c = true -> is_lower l = true ->
  Dot.words (u ++ c :: l :: rest) = u :: Dot.words (c :: l :: rest).
Proof.
  intros Hne Hu Hc Hl. rewrite !Dot_words_tokens.
  rewrite (replace_camel_upper_prefix _ _ _ lower_not_upper Hu).
  rewrite (replace_camel_upper _ lower_not_upper c _ Hc).
  destruct (replace_camel_head is_lower lower_not_upper l rest) as [X ->].
  rewrite replace_acronym_run, replace_acronym_pair by assumption.
  rewrite tokens_app_sep by reflexivity.
  rewrite tokens_word; [reflexivity|].
  apply upper_run_token; [|assumption..].
  intros x Hx. apply (upper_facts x Hx).
Qed.

Lemma camel_tokens_acronym (u W : jsstring) (c l : char16) :
  u <> [] -> all is_upper u -> is_upper c = true -> is_lower l = true ->
  camel_tokens (u ++ c :: l :: W) = u :: camel_tokens (c :: l :: W).
Proof.
  intros Hne Hu Hc Hl. unfold camel_tokens.
  rewrite replace_acronym_run, replace_acronym_pair by assumption.
  rewrite (replace_camel_app_inert _ lower_or_digit_not_upper)
    by reflexivity.
  rewrite (replace_camel_free_class _ u lower_or_digit_not_upper)
    by (revert Hu; apply all_free; intros x Hx; apply (upper_facts x Hx)).
  rewrite tokens_app_sep by reflexivity.
  rewrite tokens_word; [reflexivity|].
  apply upper_run_token; [|assumption..].
  intros x Hx. apply (upper_facts x Hx).
Qed.

Lemma Strict_resultWords_acronym (u rest : jsstring) (c l : char16) :
  u <> [] -> all is_upper u -> is_upper c = true -> is_lower l = true ->
  Strict.resultWords (u ++ c :: l :: rest) =
  u :: Strict.resultWords (c :: l :: rest).
Proof.
  intros Hne Hu Hc Hl. rewrite !Strict_resultWords_tokens.
  rewrite (replace_camel_upper_prefix _ _ _ lower_not_upper Hu).
  rewrite (replace_camel_upper _ lower_not_upper c _ Hc).
  destruct (replace_camel_head is_lower lower_not_upper l rest) as [X ->].
  assert (Hw : free is_sep (u ++ [c; l])).
  { apply free_app. split.
    - revert Hu. apply all_free. intros x Hx. apply (upper_facts x Hx).
    - repeat constructor; [apply (upper_facts c Hc)|apply (lower_facts l Hl)]. }
  unfold tokens.
  change (u ++ c :: l :: X) with (u ++ [c; l] ++ X).
  rewrite app_assoc, (tokens_from_free is_sep [] _ X Hw).
  change (c :: l :: X) with ([c; l] ++ X).
  apply free_app in Hw as [_ Hw'].
  rewrite (tokens_from_free is_sep [] _ X Hw').
  rewrite !tokens_from_first by (cbn [app]; destruct u; discriminate).
  cbn [app flat_map]. rewrite <- !app_assoc. cbn [app].
  now rewrite camel_tokens_acronym.
Qed.

(** A string is a run of upper-case letters followed by nothing or by a
    character that is none. *)
Lemma upper_span (s : jsstring) :
  exists v t, s = v ++ t /\ all is_upper v /\ head_upper t = false.
Proof.
  induction s as [|x s (v & t & E & Hv & Ht)].
  - exists [], []. repeat split. constructor.
  - destruct (is_upper x) eqn:Hx.
    + exists (x :: v), t. subst s. repeat split; [now constructor|assumption].
    + exists [], (x :: s). repeat split; [constructor|assumption].
Qed.

(** Without a lower-case letter there is no match. *)
Lemma replace_acronym_upper (u : jsstring) :
  all is_upper u -> replace_acronym u = u.
Proof.
  induction 1 as [|x u Hx Hu IH]; [reflexivity|].
  rewrite replace_acronym_eq.
  destruct (re_acronym_exec (x :: u)) as [[[g1 g2] r]|] eqn:E;
    [|now rewrite IH].
  apply re_acronym_exec_sound in E as (E & _ & _ & y & z & -> & _ & Hz).
  assert (Hin : In z (x :: u)) by (rewrite E; apply in_or_app; right; cbn; auto).
  assert (Hall : all is_upper (x :: u)) by now constructor.
  pose proof (proj1 (Forall_forall _ _) Hall z Hin) as Hz'.
  cbv beta in Hz'. pose proof (lower_not_upper z Hz). congruence.
Qed.

(** A run of upper-case letters and the character behind it are replaced
    on their own, whatever follows. *)
Lemma replace_acronym_span (v : jsstring) (w : char16) :
  all is_upper v -> is_upper w = false ->
  exists F, forall X, replace_acronym (v ++ w :: X) = F ++ replace_acronym X.
Proof.
  intros Hv Hw. destruct (is_lower w) eqn:Hl.
  - destruct v as [|y v' _] using rev_ind.
    + exists [w]. intros X. cbn [app]. now rewrite replace_acronym_not_upper.
    + apply Forall_app in Hv as [Hv' Hy].
      apply Forall_cons_iff in Hy as [Hy _].
      destruct v' as [|y' v''].
      * exists [y; w]. intros X. cbn [app].
        now rewrite replace_acronym_pair.
      * exists ((y' :: v'') ++ SPACE :: [y; w]). intros X.
        rewrite <- !app_assoc.
        change ([y] ++ w :: X) with (y :: w :: X).
        rewrite (replace_acronym_run (y' :: v'') X y w)
          by (assumption || discriminate).
        reflexivity.
  - exists (v ++ [w]). intros X.
    rewrite replace_acronym_app_inert by assumption.
    now rewrite (replace_acronym_upper v Hv), <- app_assoc.
Qed.

(** The acronym boundary anywhere in a string: before an upper-case letter
    that follows an upper-case one and is followed by a lower-case one, the
    replacement puts a space, and what stands before and behind is
    replaced as it would be alone. *)
Lemma replace_acronym_app_pair (a rest : jsstring) (x c l : char16) :
  is_upper x = true -> is_upper c = true -> is_lower l = true ->
  replace_acronym (a ++ x :: c :: l :: rest)
  = replace_acronym (a ++ [x]) ++ SPACE :: c :: l :: replace_acronym rest.
Proof.
  intros Hx Hc Hl. induction a as [a IH] using length_ind.
  destruct (upper_span a) as (v & t & -> & Hv & Ht).
  destruct t as [|w t].
  - rewrite app_nil_r.
    assert (Hvx : all is_upper (v ++ [x]))
      by (apply Forall_app; split; [assumption|now repeat constructor]).
    rewrite (replace_acronym_upper _ Hvx).
    change (v ++ x :: c :: l :: rest) with (v ++ [x] ++ c :: l :: rest).
    rewrite app_assoc.
    apply replace_acronym_run; try assumption. now destruct v.
  - cbn [head_upper] in Ht.
    destruct (replace_acronym_span v w Hv Ht) as [F HF].
    rewrite <- !app_assoc. rewrite <- !app_comm_cons.
    rewrite !HF. rewrite IH by (rewrite length_app; simpl; lia).
    now rewrite <- app_assoc.
Qed.

(** A run of upper-case letters at the end of a string stays there. *)
Lemma replace_acronym_upper_suffix (q u : jsstring) :
  all is_upper u -> exists Q, replace_acronym (q ++ u) = Q ++ u.
Proof.
  intros Hu. induction q as [q IH] using length_ind.
  destruct (upper_span q) as (v & t & -> & Hv & Ht).
  destruct t as [|w t].
  - rewrite app_nil_r. exists v. apply replace_acronym_upper.
    apply Forall_app. now split.
  - cbn [head_upper] in Ht.
    destruct (replace_acronym_span v w Hv Ht) as [F HF].
    destruct (IH t) as [Q HQ]; [rewrite length_app; simpl; lia|].
    exists (F ++ Q). rewrite <- !app_assoc. rewrite <- !app_comm_cons.
    now rewrite HF, HQ.
Qed.

Lemma replace_camel_upper_suffix (L : char16 -> bool) (q u : jsstring) :
  (forall c, L c = true -> is_upper c = false) ->
  all is_upper u -> exists Q, replace_camel L (q ++ u) = Q ++ u.
Proof.
  intros HL Hu. induction q as [|x q [Q HQ]].
  - exists []. cbn [app].
    rewrite <- (app_nil_r u) at 1.
    rewrite (replace_camel_upper_prefix L u [] HL Hu). now rewrite app_nil_r.
  - cbn [app]. rewrite (replace_camel_step L HL), HQ.
    eexists (x :: _ ++ Q). cbn [app]. now rewrite <- app_assoc.
Qed.

Lemma tokens_from_token_suffix (sep : char16 -> bool) (cur A m : jsstring) :
  is_token sep m ->
  exists ws w, tokens_from sep cur (A ++ m) = ws ++ [w ++ m].
Proof.
  intros [Hne Hm]. revert cur. induction A as [|c A IH]; intros cur.
  - exists [], cur. cbn [app].
    rewrite <- (app_nil_r m) at 1. rewrite (tokens_from_free sep cur m [] Hm).
    cbn [tokens_from]. apply flush_nonempty.
    intros E. apply app_eq_nil in E as [_ E]. contradiction.
  - cbn [app tokens_from]. destruct (sep c).
    + destruct (IH []) as (ws & w & ->). exists (flush cur ++ ws), w.
      now rewrite <- app_assoc.
    + apply IH.
Qed.

Lemma tokens_from_pair_prefix (sep : char16 -> bool) (c l : char16)
  (X : jsstring) :
  sep c = false -> sep l = false ->
  tokens sep (c :: l :: X)
  = (c :: l :: word_prefix sep X) :: tokens sep (word_rest sep X).
Proof.
  intros Hc Hl. unfold tokens at 1.
  change (c :: l :: X) with ([c; l] ++ X).
  rewrite (tokens_from_free sep [] [c; l] X) by (repeat constructor; assumption).
  now rewrite tokens_from_first by discriminate.
Qed.

(** The three replacements around an acronym boundary: [p ++ u] ends with
    its run [u], and [c :: l :: rest] keeps its first two letters. *)
Lemma replace_camel_pair (L : char16 -> bool) (c l : char16) (rest : jsstring) :
  (forall x, L x = true -> is_upper x = false) -> is_upper c = true ->
  exists X, replace_camel L (c :: l :: rest) = c :: l :: X.
Proof.
  intros HL Hc. rewrite (replace_camel_upper L HL c _ Hc).
  destruct (replace_camel_head L HL l rest) as [X ->]. eauto.
Qed.

Lemma replace_camel_app_run (L : char16 -> bool) (p u rest : jsstring)
  (c l : char16) :
  (forall x, L x = true -> is_upper x = false) ->
  u <> [] -> all is_upper u -> is_upper c = true ->
  exists P x X,
    is_upper x = true /\
    replace_camel L (p ++ u) = P ++ [x] /\
    replace_camel L (c :: l :: rest) = c :: l :: X /\
    replace_camel L (p ++ u ++ c :: l :: rest) = P ++ x :: c :: l :: X.
Proof.
  intros HL Hne Hu Hc.
  destruct u as [|x u _] using rev_ind; [congruence|].
  apply Forall_app in Hu as [_ Hx]. apply Forall_cons_iff in Hx as [Hx _].
  assert (HLx : L x = false).
  { destruct (L x) eqn:E; [|reflexivity]. apply HL in E. congruence. }
  destruct (replace_camel_last L HL (p ++ u) x) as [P HP].
  destruct (replace_camel_pair L c l rest HL Hc) as [X HX].
  exists P, x, X. rewrite !app_assoc, HP. repeat split; try assumption.
  rewrite <- app_assoc. cbn [app].
  rewrite (replace_camel_app_no_boundary L HL) by assumption.
  now rewrite HP, HX, <- app_assoc.
Qed.

Lemma Dot_words_acronym_anywhere (p u rest : jsstring) (c l : char16) :
  u <> [] -> all is_upper u -> is_upper c = true -> is_lower l = true ->
  Dot.words (p ++ u ++ c :: l :: rest)
  = Dot.words (p ++ u) ++ Dot.words (c :: l :: rest).
Proof.
  intros Hne Hu Hc Hl. rewrite !Dot_words_tokens.
  destruct (replace_camel_app_run is_lower p u rest c l lower_not_upper
              Hne Hu Hc) as (P & x & X & Hx & -> & -> & ->).
  rewrite replace_acronym_app_pair, replace_acronym_pair by assumption.
  now rewrite tokens_app_sep by reflexivity.
Qed.

Lemma Dot_words_run_last (p u : jsstring) :
  u <> [] -> all is_upper u ->
  exists ws w, Dot.words (p ++ u) = ws ++ [w ++ u].
Proof.
  intros Hne Hu. rewrite Dot_words_tokens.
  destruct (replace_camel_upper_suffix is_lower p u lower_not_upper Hu)
    as [Q ->].
  destruct (replace_acronym_upper_suffix Q u Hu) as [Q' ->].
  apply tokens_from_token_suffix, upper_run_token; try assumption.
  intros x Hx. apply (upper_facts x Hx).
Qed.

Lemma Dot_words_pair_first (rest : jsstring) (c l : char16) :
  is_upper c = true -> is_lower l = true ->
  exists w ws, Dot.words (c :: l :: rest) = (c :: l :: w) :: ws.
Proof.
  intros Hc Hl. rewrite Dot_words_tokens.
  destruct (replace_camel_pair is_lower c l rest lower_not_upper Hc) as [X ->].
  rewrite replace_acronym_pair by assumption.
  rewrite tokens_from_pair_prefix;
    [eauto|apply (upper_facts c Hc)|apply (lower_facts l Hl)].
Qed.

(** The words of [splitCamel] around an acronym boundary. *)
Lemma camel_tokens_acronym_anywhere (a W : jsstring) (x c l : char16) :
  is_upper x = true -> is_upper c = true -> is_lower l = true ->
  camel_tokens (a ++ x :: c :: l :: W)
  = camel_tokens (a ++ [x]) ++ camel_tokens (c :: l :: W).
Proof.
  intros Hx Hc Hl. unfold camel_tokens.
  rewrite replace_acronym_app_pair, replace_acronym_pair by assumption.
  rewrite (replace_camel_app_inert _ lower_or_digit_not_upper)
    by reflexivity.
  now rewrite tokens_app_sep by reflexivity.
Qed.

Lemma camel_tokens_run_last (q u : jsstring) :
  u <> [] -> all is_upper u ->
  exists ws w, camel_tokens (q ++ u) = ws ++ [w ++ u].
Proof.
  intros Hne Hu. unfold camel_tokens.
  destruct (replace_acronym_upper_suffix q u Hu) as [Q ->].
  destruct (replace_camel_upper_suffix is_lower_or_digit Q u
              lower_or_digit_not_upper Hu) as [Q' ->].
  apply tokens_from_token_suffix, upper_run_token; try assumption.
  intros x Hx. apply (upper_facts x Hx).
Qed.

Lemma camel_tokens_pair_first (W : jsstring) (c l : char16) :
  is_upper c = true -> is_lower l = true ->
  exists w ws, camel_tokens (c :: l :: W) = (c :: l :: w) :: ws.
Proof.
  intros Hc Hl. unfold camel_tokens.
  rewrite replace_acronym_pair by assumption.
  destruct (replace_camel_pair is_lower_or_digit c l (replace_acronym W)
              lower_or_digit_not_upper Hc) as [X ->].
  rewrite tokens_from_pair_prefix;
    [eauto|apply (upper_facts c Hc)|apply (lower_facts l Hl)].
Qed.

Lemma Strict_resultWords_acronym_anywhere (p u rest : jsstring) (c l : char16) :
  u <> [] -> all is_upper u -> is_upper c = true -> is_lower l = true ->
  Strict.resultWords (p ++ u ++ c :: l :: rest)
  = Strict.resultWords (p ++ u) ++ Strict.resultWords (c :: l :: rest).
Proof.
  intros Hne Hu Hc Hl. rewrite !Strict_resultWords_tokens.
  destruct (replace_camel_app_run is_lower p u rest c l lower_not_upper
              Hne Hu Hc) as (P & x & X & Hx & -> & -> & ->).
  destruct (tokens_from_adjacent is_sep [] P (l :: X) x c)
    as (ws & a & b & r & E1 & E2 & E3);
    [apply (upper_facts x Hx)|apply (upper_facts c Hc)|].
  fold (tokens is_sep (P ++ [x])) in E1.
  fold (tokens is_sep (P ++ x :: c :: l :: X)) in E3.
  rewrite E1, E3, E2.
  rewrite tokens_from_pair_prefix in E2
    by (apply (upper_facts c Hc) || apply (lower_facts l Hl)).
  injection E2 as Eb _. subst b.
  rewrite !flat_map_app. cbn [flat_map].
  rewrite camel_tokens_acronym_anywhere by assumption.
  now rewrite app_nil_r, <- !app_assoc.
Qed.

Lemma Strict_resultWords_run_last (p u : jsstring) :
  u <> [] -> all is_upper u ->
  exists ws w, Strict.resultWords (p ++ u) = ws ++ [w ++ u].
Proof.
  intros Hne Hu. rewrite Strict_resultWords_tokens.
  destruct (replace_camel_upper_suffix is_lower p u lower_not_upper Hu)
    as [Q ->].
  destruct (tokens_from_token_suffix is_sep [] Q u) as (ws & w & E).
  { apply upper_run_token; try assumption.
    intros x Hx. apply (upper_facts x Hx). }
  fold (tokens is_sep (Q ++ u)) in E. rewrite E.
  destruct (camel_tokens_run_last w u Hne Hu) as (ws' & w' & E').
  exists (flat_map camel_tokens ws ++ ws'), w'.
  rewrite flat_map_app. cbn [flat_map].
  now rewrite E', app_nil_r, app_assoc.
Qed.

Lemma Strict_resultWords_pair_first (rest : jsstring) (c l : char16) :
  is_upper c = true -> is_lower l = true ->
  exists w ws, Strict.resultWords (c :: l :: rest) = (c :: l :: w) :: ws.
Proof.
  intros Hc Hl. rewrite Strict_resultWords_tokens.
  destruct (replace_camel_pair is_lower c l rest lower_not_upper Hc) as [X ->].
  rewrite tokens_from_pair_prefix
    by (apply (upper_facts c Hc) || apply (lower_facts l Hl)).
  cbn [flat_map].
  destruct (camel_tokens_pair_first (word_prefix is_sep X) c l Hc Hl)
    as (w & ws & ->).
  cbn [app]. eauto.
Qed.

(** C7. A run of two or more upper-case letters followed by an
    upper-case letter and a lower-case one, anywhere in a string: the
    acronym replacement puts a space between the run and the pair, and
    replaces what stands before and behind as it would alone.  So in
    [toDotCase] and in the strict [toCamelCase] the words of the string
    are those up to the run followed by those from the pair on; the run
    ends a word and the pair starts the next one, and a run at the start
    of the string is a word of its own.  The strict [toCamelCase] maps
    ["myHTTPServer"] to ["myHttpServer"], [toDotCase] maps it to
    ["my.http.server"]. *)
Theorem C7_acronym_boundary (cm : CaseMapping) (p u rest : jsstring)
  (c l : char16) :
  (2 <= List.length u)%nat -> all is_upper u ->
  is_upper c = true -> is_lower l = true ->
  replace_acronym (p ++ u ++ c :: l :: rest)
  = replace_acronym (p ++ u) ++ SPACE :: c :: l :: replace_acronym rest /\
  replace_acronym (u ++ c :: l :: rest)
  = u ++ SPACE :: c :: l :: replace_acronym rest /\
  Dot.words (p ++ u ++ c :: l :: rest)
  = Dot.words (p ++ u) ++ Dot.words (c :: l :: rest) /\
  (exists ws w, Dot.words (p ++ u) = ws ++ [w ++ u]) /\
  (exists w ws, Dot.words (c :: l :: rest) = (c :: l :: w) :: ws) /\
  Dot.words (u ++ c :: l :: rest) = u :: Dot.words (c :: l :: rest) /\
  Strict.resultWords (p ++ u ++ c :: l :: rest)
  = Strict.resultWords (p ++ u) ++ Strict.resultWords (c :: l :: rest) /\
  (exists ws w, Strict.resultWords (p ++ u) = ws ++ [w ++ u]) /\
  (exists w ws, Strict.resultWords (c :: l :: rest) = (c :: l :: w) :: ws) /\
  Strict.resultWords (u ++ c :: l :: rest)
  = u :: Strict.resultWords (c :: l :: rest) /\
  Strict.toCamelCase (VString (js "myHTTPServer")) no_options
  = Return (js "myHttpServer") /\
  Dot.toDotCase (VString (js "myHTTPServer")) = Return (js "my.http.server").
Proof.
  intros Hlen Hu Hc Hl.
  assert (Hne : u <> []) by (destruct u; [simpl in Hlen; lia|discriminate]).
  split.
  { destruct u as [|x u' _] using rev_ind; [congruence|].
    apply Forall_app in Hu as [_ Hx]. apply Forall_cons_iff in Hx as [Hx _].
    rewrite <- !app_assoc, !app_assoc. rewrite <- (app_assoc _ [x]).
    now apply replace_acronym_app_pair. }
  split; [now apply replace_acronym_run|].
  split; [now apply Dot_words_acronym_anywhere|].
  split; [now apply Dot_words_run_last|].
  split; [now apply Dot_words_pair_first|].
  split; [now apply Dot_words_acronym|].
  split; [now apply Strict_resultWords_acronym_anywhere|].
  split; [now apply Strict_resultWords_run_last|].
  split; [now apply Strict_resultWords_pair_first|].
  split; [now apply Strict_resultWords_acronym|].
  split; run_case; reflexivity.
Qed.

Lemma C7_acronym_boundary_witness :
  replace_acronym (js "v2_XMLParser") = js "v2_XML Parser" /\
  replace_acronym (js "XMLParser") = js "XML Parser" /\
  Dot.words (js "v2_XMLParser")
  = Dot.words (js "v2_XML") ++ Dot.words (js "Parser") /\
  (exists ws w, Dot.words (js "v2_XML") = ws ++ [w ++ js "XML"]) /\
  (exists w ws, Dot.words (js "Parser") = (80 :: 97 :: w) :: ws) /\
  Dot.words (js "XMLParser") = js "XML" :: Dot.words (js "Parser") /\
  Strict.resultWords (js "v2_XMLParser")
  = Strict.resultWords (js "v2_XML") ++ Strict.resultWords (js "Parser") /\
  (exists ws w, Strict.resultWords (js "v2_XML") = ws ++ [w ++ js "XML"]) /\
  (exists w ws, Strict.resultWords (js "Parser") = (80 :: 97 :: w) :: ws) /\
  Strict.resultWords (js "XMLParser")
  = js "XML" :: Strict.resultWords (js "Parser") /\
  Strict.toCamelCase (VString (js "myHTTPServer")) no_options
  = Return (js "myHttpServer") /\
  Dot.toDotCase (VString (js "myHTTPServer")) = Return (js "my.http.server").
Proof.
  apply (C7_acronym_boundary latin1_case (js "v2_") (js "XML") (js "rser")
           80 97);
    try reflexivity.
  - cbn. lia.
  - apply forallb_all. reflexivity.
Defined.

(** ** The camelCase boundary *)

Lemma Kebab_words_boundary (p q : jsstring) (x y : char16) :
  is_lower_or_digit x = true -> is_upper y = true ->
  Kebab.words (p ++ x :: y :: q) =
  Kebab.words (p ++ [x]) ++ Kebab.words (y :: q).
Proof.
  intros Hx Hy. rewrite !Kebab_words_tokens.
  rewrite (replace_camel_app_boundary _ lower_or_digit_not_upper)
    by assumption.
  rewrite map_app, filter_app. cbn [map filter].
  change (underscore_to_space SPACE) with SPACE.
  change (kebab_keep SPACE) with true. cbn iota.
  now rewrite tokens_app_sep by reflexivity.
Qed.

Lemma Dot_words_boundary (p q : jsstring) (x y : char16) :
  is_lower x = true -> is_upper y = true ->
  Dot.words (p ++ x :: y :: q) = Dot.words (p ++ [x]) ++ Dot.words (y :: q).
Proof.
  intros Hx Hy. rewrite !Dot_words_tokens.
  rewrite (replace_camel_app_boundary _ lower_not_upper) by assumption.
  rewrite replace_acronym_app_inert by reflexivity.
  now rewrite tokens_app_sep by reflexivity.
Qed.

Lemma digit_facts (d : char16) :
  is_digit d = true ->
  is_lower d = false /\ is_upper d = false /\ is_lower_or_digit d = true /\
  is_sep d = false /\ is_dotsep d = false /\ is_SPACE d = false.
Proof. unfold is_SPACE. cu_solve. Qed.

Lemma lower_or_digit_cases (x : char16) :
  is_lower_or_digit x = true -> is_lower x = true \/ is_digit x = true.
Proof. unfold is_lower_or_digit. intros H. now apply orb_prop in H. Qed.

(** In one word of the strict [toCamelCase], a digit before a capital. *)
Lemma camel_tokens_digit_boundary (a b : jsstring) (d y : char16) :
  is_digit d = true -> is_upper y = true ->
  camel_tokens (a ++ d :: y :: b) =
  camel_tokens (a ++ [d]) ++ camel_tokens (y :: b).
Proof.
  intros Hd Hy. destruct (digit_facts d Hd) as (Hl & Hu & Hld & _).
  unfold camel_tokens.
  rewrite !(replace_acronym_app_inert a _ d) by assumption.
  rewrite replace_acronym_nil.
  destruct (replace_acronym_head y b) as [Q ->].
  rewrite (replace_camel_app_boundary _ lower_or_digit_not_upper)
    by assumption.
  now rewrite tokens_app_sep by reflexivity.
Qed.

Lemma Strict_resultWords_boundary (p q : jsstring) (x y : char16) :
  is_lower_or_digit x = true -> is_upper y = true ->
  Strict.resultWords (p ++ x :: y :: q) =
  Strict.resultWords (p ++ [x]) ++ Strict.resultWords (y :: q).
Proof.
  intros Hx Hy. rewrite !Strict_resultWords_tokens.
  destruct (lower_or_digit_cases x Hx) as [Hl|Hd].
  - rewrite (replace_camel_app_boundary _ lower_not_upper) by assumption.
    rewrite tokens_app_sep by reflexivity. apply flat_map_app.
  - destruct (digit_facts x Hd) as (Hl & _ & _ & Hs & _).
    rewrite (replace_camel_app_no_boundary _ lower_not_upper) by assumption.
    destruct (replace_camel_last is_lower lower_not_upper p x) as [P ->].
    destruct (replace_camel_head is_lower lower_not_upper y q) as [Q ->].
    destruct (tokens_from_adjacent is_sep [] P Q x y Hs)
      as (l & a & b & r & E1 & E2 & E3); [apply (upper_facts y Hy)|].
    unfold tokens in *. rewrite <- app_assoc. cbn [app].
    rewrite E1, E2, E3, !flat_map_app. cbn [flat_map].
    rewrite camel_tokens_digit_boundary by assumption.
    now rewrite app_nil_r, <- !app_assoc.
Qed.

(** In [toDotCase] a digit before a capital is no boundary: both are in
    one word. *)
Lemma Dot_words_digit_no_boundary (p q : jsstring) (d y : char16) :
  is_digit d = true -> is_upper y = true ->
  exists l a b r, Dot.words (p ++ d :: y :: q) = l ++ (a ++ d :: y :: b) :: r.
Proof.
  intros Hd Hy. destruct (digit_facts d Hd) as (Hl & Hu & _ & _ & Hs & _).
  rewrite Dot_words_tokens.
  rewrite (replace_camel_app_no_boundary _ lower_not_upper) by assumption.
  destruct (replace_camel_last is_lower lower_not_upper p d) as [P ->].
  destruct (replace_camel_head is_lower lower_not_upper y q) as [Q ->].
  rewrite <- app_assoc. cbn [app].
  rewrite replace_acronym_app_inert by assumption.
  destruct (replace_acronym_head y Q) as [Q' ->].
  apply (tokens_block is_dotsep (replace_acronym P) [d; y] Q').
  split; [discriminate|].
  repeat constructor; [assumption|apply (upper_facts y Hy)].
Qed.

Section LenientWords.
Context {cm : CaseMapping}.

(** The lenient [toCamelCase] has no boundary but the separators. *)
Lemma Lenient_words_word (w : jsstring) :
  free is_sep w -> Lenient.words w = [toLowerCase w].
Proof.
  intros Hw. rewrite Lenient_words_runs.
  rewrite trim_free by now apply free_sep_space.
  apply split_runs_from_word.
  now apply toLowerCase_free; [apply sep_caseless|].
Qed.

End LenientWords.

(** C6, as the specification states it, fails for [toDotCase] and for
    the lenient [toCamelCase]: ["a1B"] is one word in both ([toDotCase]
    looks for [[a-z]] before the capital, not for [[a-z0-9]] as
    [splitCamel] does). *)
Lemma C6_digit_capital_one_word :
  Dot.words (js "a1B") = [js "a1B"] /\
  (forall cm : CaseMapping, Lenient.words (js "a1B") = [js "a1b"]) /\
  [js "a1B"] <> [js "a1"; js "B"] /\
  [js "a1b"] <> [js "a1"; js "B"] /\
  (forall cm : CaseMapping,
      Dot.toDotCase (VString (js "a1B")) = Return (js "a1b")) /\
  (forall cm : CaseMapping,
      Lenient.toCamelCase (VString (js "a1B")) = Return (js "a1b")).
Proof.
  repeat split; try reflexivity; try discriminate;
    intros cm; run_case; reflexivity.
Qed.

(** C6, amended.  In [toKebabCase] and in the strict [toCamelCase] a
    lower-case letter or a digit followed by an upper-case letter is a
    token boundary: the words of the string are the words before the
    boundary, then the words after it.  In [toDotCase] a lower-case letter
    followed by an upper-case letter is such a boundary.  The lenient
    [toCamelCase] has no boundary of this kind: it puts the string in
    lower case first, and a string without separators is one word.
    ["a1B"] has the words ["a1"] and ["B"] in the first two functions. *)
Theorem C6_camel_boundary (cm : CaseMapping) (p q w : jsstring)
  (x x' y : char16) :
  is_lower_or_digit x = true -> is_lower x' = true ->
  is_upper y = true -> free is_sep w ->
  Kebab.words (p ++ x :: y :: q)
  = Kebab.words (p ++ [x]) ++ Kebab.words (y :: q) /\
  Strict.resultWords (p ++ x :: y :: q)
  = Strict.resultWords (p ++ [x]) ++ Strict.resultWords (y :: q) /\
  Dot.words (p ++ x' :: y :: q)
  = Dot.words (p ++ [x']) ++ Dot.words (y :: q) /\
  Lenient.words w = [toLowerCase w] /\
  Kebab.words (js "a1B") = [js "a1"; js "B"] /\
  Strict.resultWords (js "a1B") = [js "a1"; js "B"] /\
  Lenient.words (js "a1B") = [js "a1b"].
Proof.
  intros Hx Hx' Hy Hw.
  split; [now apply Kebab_words_boundary|].
  split; [now apply Strict_resultWords_boundary|].
  split; [now apply Dot_words_boundary|].
  split; [now apply Lenient_words_word|].
  repeat split; try reflexivity. run_case. reflexivity.
Qed.

Lemma C6_camel_boundary_witness :
  Kebab.words (js "x1Bc") = Kebab.words (js "x1") ++ Kebab.words (js "Bc") /\
  Strict.resultWords (js "x1Bc")
  = Strict.resultWords (js "x1") ++ Strict.resultWords (js "Bc") /\
  Dot.words (js "xaBc") = Dot.words (js "xa") ++ Dot.words (js "Bc") /\
  Lenient.words (js "a1B") = [toLowerCase (js "a1B")] /\
  Kebab.words (js "a1B") = [js "a1"; js "B"] /\
  Strict.resultWords (js "a1B") = [js "a1"; js "B"] /\
  Lenient.words (js "a1B") = [js "a1b"].
Proof.
  apply (C6_camel_boundary latin1_case (js "x") (js "c") (js "a1B")
           49 97 66); try reflexivity.
  apply Forall_forall. intros c Hc. cbn in Hc.
  repeat (destruct Hc as [<-|Hc]; [reflexivity|]). contradiction.
Defined.

(** ** Letters outside ASCII *)


(** A replacement that leaves [c] alone and works on both sides of it,
    and that keeps the first and the last character of a string, leaves
    [c] next to its neighbours. *)
Section Block.
Variable F : jsstring -> jsstring.
Variable c : char16.
Hypothesis F_inert : forall p q, F (p ++ c :: q) = F p ++ c :: F q.
Hypothesis F_last : forall p x, exists P, F (p ++ [x]) = P ++ [x].
Hypothesis F_head : forall y q, exists Q, F (y :: q) = y :: Q.


End Block.




Lemma free_sep_SPACE (s : jsstring) : free is_sep s -> free is_SPACE s.
Proof.
  apply free_weaken. intros c Hc. unfold is_SPACE in Hc.
  apply N.eqb_eq in Hc. now subst c.
Qed.









(** * Further properties of the four functions *)

(** ** White space around the input *)

Lemma drop_while_all (p : char16 -> bool) (l : jsstring) :
  all p l -> drop_while p l = [].
Proof.
  induction 1 as [|c l Hc _ IH]; [reflexivity|]. cbn. now rewrite Hc.
Qed.

Lemma drop_while_all_app (p : char16 -> bool) (l s : jsstring) :
  all p l -> drop_while p (l ++ s) = drop_while p s.
Proof.
  induction 1 as [|c l Hc _ IH]; [reflexivity|]. cbn. now rewrite Hc.
Qed.

Lemma drop_while_app (p : char16 -> bool) (s r : jsstring) :
  drop_while p (s ++ r) =
  if forallb p s then drop_while p r else drop_while p s ++ r.
Proof.
  induction s as [|c s IH]; [reflexivity|]. cbn.
  destruct (p c); [exact IH|reflexivity].
Qed.

(** [trim] drops the white space around a string, whatever its amount. *)
Lemma trim_pad (l s r : jsstring) :
  all is_space l -> all is_space r -> trim (l ++ s ++ r) = trim s.
Proof.
  intros Hl Hr. unfold trim. rewrite (drop_while_all_app _ l _ Hl).
  rewrite drop_while_app. destruct (forallb is_space s) eqn:E.
  - apply forallb_all in E.
    now rewrite (drop_while_all _ r Hr), (drop_while_all _ s E).
  - rewrite rev_app_distr. rewrite drop_while_all_app; [reflexivity|].
    now apply Forall_rev.
Qed.

(** X1. White space before and after the input changes the result of
    none of the four functions: each works on the trimmed input only. *)
Theorem surrounding_space_ignored (cm : CaseMapping) (l s r : jsstring)
  (opts : options) :
  all is_space l -> all is_space r ->
  Kebab.toKebabCase (VString (l ++ s ++ r)) = Kebab.toKebabCase (VString s) /\
  Strict.toCamelCase (VString (l ++ s ++ r)) opts
  = Strict.toCamelCase (VString s) opts /\
  Dot.toDotCase (VString (l ++ s ++ r)) = Dot.toDotCase (VString s) /\
  Lenient.toCamelCase (VString (l ++ s ++ r))
  = Lenient.toCamelCase (VString s).
Proof.
  intros Hl Hr.
  cbn [Kebab.toKebabCase Strict.toCamelCase Dot.toDotCase
         Lenient.toCamelCase].
  unfold Lenient.words. now rewrite !(trim_pad l s r Hl Hr).
Qed.

Lemma surrounding_space_ignored_witness :
  Kebab.toKebabCase (VString (js "  " ++ js "a b" ++ js " "))
  = Kebab.toKebabCase (VString (js "a b")) /\
  Strict.toCamelCase (VString (js "  " ++ js "a b" ++ js " ")) no_options
  = Strict.toCamelCase (VString (js "a b")) no_options /\
  Dot.toDotCase (VString (js "  " ++ js "a b" ++ js " "))
  = Dot.toDotCase (VString (js "a b")) /\
  Lenient.toCamelCase (VString (js "  " ++ js "a b" ++ js " "))
  = Lenient.toCamelCase (VString (js "a b")).
Proof.
  apply (surrounding_space_ignored latin1_case (js "  ") (js "a b") (js " ")
           no_options); apply forallb_all; reflexivity.
Defined.

(** ** What the results are made of *)

Lemma tokens_from_concat (sep : char16 -> bool) (cur s : jsstring) :
  List.concat (tokens_from sep cur s) = cur ++ filter (not_in sep) s.
Proof.
  revert cur. induction s as [|c t IH]; intros cur.
  - cbn. unfold flush. destruct cur; cbn; now rewrite ?app_nil_r.
  - cbn [tokens_from filter]. unfold not_in at 1. destruct (sep c); cbn [negb].
    + rewrite concat_app, IH. unfold flush.
      destruct cur; cbn; now rewrite ?app_nil_r.
    + rewrite IH, <- app_assoc. reflexivity.
Qed.

(** The tokens of a string, one after the other, are its characters that
    are no separators. *)
Lemma tokens_concat (sep : char16 -> bool) (s : jsstring) :
  List.concat (tokens sep s) = filter (not_in sep) s.
Proof. apply tokens_from_concat. Qed.

Lemma filter_replace_camel (L p : char16 -> bool) (s : jsstring) :
  (forall c, L c = true -> is_upper c = false) -> p SPACE = false ->
  filter p (replace_camel L s) = filter p s.
Proof.
  intros HL Hp. induction s as [|x t IH]; [reflexivity|].
  rewrite (replace_camel_step L HL). cbn [filter].
  rewrite filter_app, IH.
  destruct (L x && head_upper t); cbn [filter]; rewrite ?Hp; reflexivity.
Qed.

Lemma filter_replace_acronym (p : char16 -> bool) (s : jsstring) :
  p SPACE = false -> filter p (replace_acronym s) = filter p s.
Proof.
  intros Hp. induction s as [s IH] using length_ind.
  rewrite replace_acronym_eq.
  destruct (re_acronym_exec s) as [[[g1 g2] r]|] eqn:E.
  - pose proof (re_acronym_exec_shorter _ _ _ _ E) as Hlen.
    apply re_acronym_exec_sound in E as (-> & _).
    rewrite !filter_app. cbn [filter]. rewrite Hp, filter_app.
    now rewrite (IH r Hlen).
  - destruct s as [|x t]; [reflexivity|]. cbn [filter].
    now rewrite (IH t (Nat.lt_succ_diag_r _)).
Qed.

Lemma filter_drop_while (p q : char16 -> bool) (s : jsstring) :
  (forall c, q c = true -> p c = false) ->
  filter p (drop_while q s) = filter p s.
Proof.
  intros Hqp. induction s as [|c s IH]; [reflexivity|]. cbn.
  destruct (q c) eqn:E; [|reflexivity]. now rewrite (Hqp c E).
Qed.

(** [trim] takes away white space only. *)
Lemma filter_trim (p : char16 -> bool) (s : jsstring) :
  (forall c, is_space c = true -> p c = false) ->
  filter p (trim s) = filter p s.
Proof.
  intros Hp. unfold trim.
  rewrite filter_rev, (filter_drop_while p is_space _ Hp), filter_rev.
  now rewrite rev_involutive, (filter_drop_while p is_space _ Hp).
Qed.

Lemma filter_join_token (d : char16) (ws : list jsstring) :
  Forall (free (fun c => c =? d)) ws ->
  filter (not_in (fun c => c =? d)) (join [d] ws) = List.concat ws.
Proof.
  assert (Hw : forall w, free (fun c => c =? d) w ->
                         filter (not_in (fun c => c =? d)) w = w).
  { induction 1 as [|c w Hc _ IH]; [reflexivity|]. cbn [filter].
    unfold not_in at 1. now rewrite Hc, IH. }
  induction 1 as [|w rest Hfw Hrest IH]; [reflexivity|].
  cbn [join List.concat]. destruct rest as [|w' rest'].
  - cbn [List.concat]. now rewrite app_nil_r, Hw.
  - rewrite filter_app, (Hw w Hfw). cbn [app filter].
    unfold not_in at 1. rewrite N.eqb_refl. cbn [negb]. now rewrite IH.
Qed.

Lemma filter_nil_free (p : char16 -> bool) (s : jsstring) :
  filter p s = [] -> free p s.
Proof.
  induction s as [|c s IH]; [constructor|]. cbn.
  destruct (p c) eqn:E; [discriminate|]. intros H.
  constructor; [exact E|exact (IH H)].
Qed.

Lemma kept_and_no_sep (c : char16) :
  kebab_keep c && not_in is_sep c = is_alnum c.
Proof. unfold not_in. destruct (is_alnum c) eqn:E; revert E; cu_solve. Qed.

Lemma filter_filter (p q : char16 -> bool) (s : jsstring) :
  filter p (filter q s) = filter (fun c => q c && p c) s.
Proof.
  induction s as [|c s IH]; [reflexivity|]. cbn.
  destruct (q c); cbn; [destruct (p c)|]; now rewrite IH.
Qed.

Lemma filter_alnum_underscore (s : jsstring) :
  filter is_alnum (map underscore_to_space s) = filter is_alnum s.
Proof.
  induction s as [|c s IH]; [reflexivity|]. cbn [map filter]. rewrite IH.
  unfold underscore_to_space. destruct (c =? UNDERSCORE) eqn:E; [|reflexivity].
  apply N.eqb_eq in E. subst c. reflexivity.
Qed.

(** The words of [toKebabCase], one after the other: the ASCII letters and
    digits of the string. *)
Lemma Kebab_words_concat (str : jsstring) :
  List.concat (Kebab.words str) = filter is_alnum str.
Proof.
  rewrite Kebab_words_tokens, tokens_concat, filter_filter.
  rewrite (filter_ext _ is_alnum) by apply kept_and_no_sep.
  rewrite filter_alnum_underscore.
  now apply filter_replace_camel; [apply lower_or_digit_not_upper|].
Qed.

Section KebabContent.
Context {cm : CaseMapping}.

(** The result of [toKebabCase] from its words. *)
Lemma Kebab_result_words (s : jsstring) :
  Kebab.toKebabCase (VString s)
  = Return (join [HYPHEN] (map (map ascii_lower) (Kebab.words (trim s)))).
Proof.
  cbn [Kebab.toKebabCase]. destruct (trim s) as [|c t] eqn:Et; [reflexivity|].
  cbn [is_empty]. rewrite <- Et.
  pose proof (Kebab_words_alnum (trim s)) as HW.
  destruct (Kebab.words (trim s)) as [|w ws] eqn:EW; [reflexivity|].
  cbn [List.length Nat.eqb]. f_equal. rewrite lower_plain.
  - apply map_join.
  - apply forallb_forall. intros x Hx. apply alnum_or_hyphen_plain.
    apply join_incl in Hx as [[<-|[]]|(v & Hv & Hx)].
    + apply orb_true_r.
    + rewrite Forall_forall in HW. destruct (HW v Hv) as [_ Ha].
      unfold all in Ha. rewrite Forall_forall in Ha. now rewrite (Ha x Hx).
Qed.

End KebabContent.

Lemma alnum_not_hyphen (c : char16) :
  is_alnum c = true -> (ascii_lower c =? HYPHEN) = false.
Proof. cu_solve. Qed.

(** X3. [toKebabCase] keeps the ASCII letters and digits of its input, in
    their order and in lower case, and nothing else but hyphens: its
    result without the hyphens is the lower-cased letters and digits of
    the input. *)
Theorem kebab_keeps_letters_and_digits (cm : CaseMapping) (s : jsstring) :
  exists r,
    Kebab.toKebabCase (VString s) = Return r /\
    filter (not_in is_HYPHEN) r = map ascii_lower (filter is_alnum s).
Proof.
  eexists. split; [apply Kebab_result_words|].
  unfold is_HYPHEN. rewrite filter_join_token.
  - rewrite <- concat_map, Kebab_words_concat.
    now rewrite filter_trim by (intros c Hc; revert Hc; cu_solve).
  - apply Forall_map. eapply Forall_impl; [|apply Kebab_words_alnum].
    intros w [_ Hw]. apply Forall_map. eapply Forall_impl; [|exact Hw].
    apply alnum_not_hyphen.
Qed.

(** X2. [toKebabCase] returns the empty string exactly on the strings
    that hold no ASCII letter and no digit. *)
Theorem kebab_empty_iff_no_letter_or_digit (cm : CaseMapping)
  (s : jsstring) :
  Kebab.toKebabCase (VString s) = Return [] <-> free is_alnum s.
Proof.
  split; [|apply Kebab_not_alnum].
  rewrite Kebab_result_words. intros E. injection E as E.
  assert (H : map ascii_lower (filter is_alnum s) = []).
  { rewrite <- (filter_trim is_alnum s)
      by (intros c Hc; revert Hc; cu_solve).
    rewrite <- Kebab_words_concat, concat_map.
    rewrite <- (filter_join_token HYPHEN).
    - now rewrite E.
    - apply Forall_map. eapply Forall_impl; [|apply Kebab_words_alnum].
      intros w [_ Hw]. apply Forall_map. eapply Forall_impl; [|exact Hw].
      apply alnum_not_hyphen. }
  apply map_eq_nil in H. now apply filter_nil_free.
Qed.

Lemma all_iff_filter (p : char16 -> bool) (s : jsstring) :
  all p s <-> filter (not_in p) s = [].
Proof.
  induction s as [|c s IH]; [split; [reflexivity|constructor]|].
  cbn [filter]. unfold not_in at 1. split.
  - intros H. apply Forall_cons_iff in H as [Hc Hs]. rewrite Hc. cbn.
    now apply IH.
  - destruct (p c) eqn:E; cbn; [|discriminate].
    intros H. constructor; [exact E|now apply IH].
Qed.

Lemma all_trim (sep : char16 -> bool) (s : jsstring) :
  (forall c, is_space c = true -> sep c = true) ->
  all sep (trim s) <-> all sep s.
Proof.
  intros Hsp. rewrite !all_iff_filter, filter_trim; [reflexivity|].
  intros c Hc. unfold not_in. now rewrite (Hsp c Hc).
Qed.

Lemma guard_all (sep : char16 -> bool) (t : jsstring) :
  is_empty t || only sep t = true <-> all sep t.
Proof.
  split; [|apply only_all].
  unfold only, truthy. destruct t as [|c t]; [constructor|].
  cbn [is_empty negb orb andb]. apply forallb_all.
Qed.

Lemma join_nil_cons (w : jsstring) (ws : list jsstring) :
  join [] (w :: ws) = w ++ join [] ws.
Proof. cbn [join]. destruct ws; [now rewrite app_nil_r|reflexivity]. Qed.

Lemma join_nil_concat (ws : list jsstring) : join [] ws = List.concat ws.
Proof.
  induction ws as [|w ws IH]; [reflexivity|].
  now rewrite join_nil_cons, IH.
Qed.

Lemma free_filter_id (p : char16 -> bool) (w : jsstring) :
  free p w -> filter (not_in p) w = w.
Proof.
  induction 1 as [|c w Hc _ IH]; [reflexivity|]. cbn [filter].
  unfold not_in at 1. now rewrite Hc, IH.
Qed.

(** The words of one word of the strict [toCamelCase], one after the
    other, are that word. *)
Lemma camel_tokens_concat (w : jsstring) :
  free is_sep w -> List.concat (camel_tokens w) = w.
Proof.
  intros Hw. unfold camel_tokens. rewrite tokens_concat.
  rewrite (filter_replace_camel _ _ _ lower_or_digit_not_upper)
    by reflexivity.
  rewrite filter_replace_acronym by reflexivity.
  now apply free_filter_id, free_sep_SPACE.
Qed.

(** The words of the strict [toCamelCase], one after the other: the
    characters of the string that are no separators. *)
Lemma Strict_resultWords_concat (str : jsstring) :
  List.concat (Strict.resultWords str) = filter (not_in is_sep) str.
Proof.
  rewrite Strict_resultWords_tokens.
  rewrite <- (filter_replace_camel is_lower _ str lower_not_upper)
    by reflexivity.
  rewrite <- tokens_concat.
  pose proof (tokens_are_tokens is_sep (replace_camel is_lower str)) as H.
  induction H as [|w ws [_ Hw] _ IH]; [reflexivity|].
  cbn [flat_map List.concat]. now rewrite concat_app, IH, camel_tokens_concat.
Qed.

Lemma Dot_words_concat (str : jsstring) :
  List.concat (Dot.words str) = filter (not_in is_dotsep) str.
Proof.
  rewrite Dot_words_tokens, tokens_concat.
  rewrite filter_replace_acronym by reflexivity.
  now apply filter_replace_camel; [apply lower_not_upper|].
Qed.

Lemma concat_nil_tokens (sep : char16 -> bool) (ws : list jsstring) :
  Forall (is_token sep) ws -> List.concat ws = [] -> ws = [].
Proof.
  intros H E. destruct H as [|w ws [Hne _] _]; [reflexivity|].
  cbn in E. apply app_eq_nil in E as [E _]. congruence.
Qed.

Section EmptyResults.
Context {cm : CaseMapping}.

Lemma Strict_build_first (preserve : bool) (w : jsstring) :
  Strict.build preserve w 0 = toLowerCase w.
Proof.
  unfold Strict.build.
  now destruct (preserve && only is_upper_or_digit w
                && (1 <? List.length w)%nat).
Qed.

(** The result of the strict [toCamelCase] when the trimmed input is not
    made of separators only: its first word in lower case, then the
    other words. *)
Lemma Strict_result_first (s : jsstring) (opts : options) :
  ~ all is_sep s ->
  exists w ws r,
    Strict.resultWords (trim s) = w :: ws /\ is_token is_sep w /\
    Strict.toCamelCase (VString s) opts = Return (toLowerCase w ++ r).
Proof.
  intros Hs. cbn [Strict.toCamelCase].
  destruct (is_empty (trim s) || only is_sep (trim s)) eqn:G.
  - exfalso. apply Hs. apply guard_all in G.
    now apply (all_trim is_sep s sep_of_space).
  - pose proof (Strict_resultWords_are_tokens (trim s)) as HT.
    destruct (Strict.resultWords (trim s)) as [|w ws] eqn:EW.
    + exfalso. apply Hs. apply (all_trim is_sep s sep_of_space).
      apply all_iff_filter. rewrite <- Strict_resultWords_concat.
      now rewrite EW.
    + apply Forall_cons_iff in HT as [Hw _].
      exists w, ws. eexists. split; [reflexivity|]. split; [exact Hw|].
      cbn [List.length Nat.eqb]. unfold mapi. cbn [mapi_from].
      now rewrite join_nil_cons, Strict_build_first.
Qed.

Lemma Dot_result_first (s : jsstring) :
  ~ all is_dotsep s ->
  exists w ws,
    Dot.words (trim s) = w :: ws /\ is_token is_dotsep w /\
    Dot.toDotCase (VString s)
    = Return (join [DOT] (toLowerCase w :: map toLowerCase ws)).
Proof.
  intros Hs. cbn [Dot.toDotCase].
  assert (Hsp : forall c, is_space c = true -> is_dotsep c = true)
    by (intros c Hc; apply dotsep_of_sep, sep_of_space, Hc).
  destruct (is_empty (trim s) || only is_dotsep (trim s)) eqn:G.
  - exfalso. apply Hs. apply guard_all in G.
    now apply (all_trim is_dotsep s Hsp).
  - pose proof (Dot_words_are_tokens (trim s)) as HT.
    destruct (Dot.words (trim s)) as [|w ws] eqn:EW.
    + exfalso. apply Hs. apply (all_trim is_dotsep s Hsp).
      apply all_iff_filter. rewrite <- Dot_words_concat. now rewrite EW.
    + apply Forall_cons_iff in HT as [Hw _].
      exists w, ws. repeat split; assumption || reflexivity || apply Hw.
Qed.

End EmptyResults.

Lemma all_dec (p : char16 -> bool) (s : jsstring) : all p s \/ ~ all p s.
Proof.
  destruct (forallb p s) eqn:E.
  - left. now apply forallb_all.
  - right. intros H. apply forallb_all in H. congruence.
Qed.

(** X4. The strict [toCamelCase] returns the empty string exactly on the
    strings made of separators only (white space, underscores, hyphens;
    the empty string is one of them), whatever the options. *)
Theorem strict_camel_empty_iff_separators (cm : CaseMapping) (s : jsstring)
  (opts : options) :
  Strict.toCamelCase (VString s) opts = Return [] <-> all is_sep s.
Proof.
  split; [|apply Strict_only_sep].
  intros E. destruct (all_dec is_sep s) as [H|H]; [exact H|exfalso].
  destruct (Strict_result_first s opts H) as (w & ws & r & _ & [Hne _] & E').
  rewrite E' in E. injection E as E. apply app_eq_nil in E as [E _].
  apply lower_nonempty in E. congruence.
Qed.

(** X5. [toDotCase] returns the empty string exactly on the strings made
    of separators only (white space, underscores, hyphens, dots). *)
Theorem dot_empty_iff_separators (cm : CaseMapping) (s : jsstring) :
  Dot.toDotCase (VString s) = Return [] <-> all is_dotsep s.
Proof.
  split; [|apply Dot_only_sep].
  intros E. destruct (all_dec is_dotsep s) as [H|H]; [exact H|exfalso].
  destruct (Dot_result_first s H) as (w & ws & _ & [Hne _] & E').
  assert (Hj : join [DOT] (toLowerCase w :: map toLowerCase ws) <> []).
  { apply join_nonempty. intros El. apply lower_nonempty in El. congruence. }
  apply Hj. congruence.
Qed.

(** X6. The result of the strict [toCamelCase] never starts with an ASCII
    capital letter, whatever the options: the first word is put in lower
    case, also when acronyms are preserved. *)
Theorem strict_camel_starts_lower (cm : CaseMapping) (s : jsstring)
  (opts : options) :
  exists r, Strict.toCamelCase (VString s) opts = Return r /\
            head_upper r = false.
Proof.
  destruct (all_dec is_sep s) as [H|H].
  - exists []. split; [now apply Strict_only_sep|reflexivity].
  - destruct (Strict_result_first s opts H)
      as (w & ws & r & _ & [Hne _] & E).
    eexists. split; [exact E|].
    pose proof (toLowerCase_free_upper w) as Hu.
    destruct (toLowerCase w) as [|c l] eqn:El.
    + apply lower_nonempty in El. congruence.
    + cbn [app head_upper]. now apply free_cons in Hu as [Hc _].
Qed.

(** ** Plain strings: the results up to letter case *)

Lemma upper_shifted (c : char16) :
  is_upper c = true ->
  is_space c = false /\ is_space (c + 32) = false /\
  is_sep c = false /\ is_sep (c + 32) = false /\
  is_plain (c + 32) = true /\ is_upper (c + 32) = false /\
  is_lower (c + 32) = true.
Proof. cu_solve. Qed.

Lemma lower_shifted (c : char16) :
  is_lower c = true -> is_upper (c - 32) = true /\ c - 32 + 32 = c.
Proof. cu_solve. Qed.

Lemma ascii_case_facts (c : char16) :
  ascii_lower (ascii_lower c) = ascii_lower c /\
  ascii_lower (ascii_upper c) = ascii_lower c /\
  is_space (ascii_lower c) = is_space c /\
  is_sep (ascii_lower c) = is_sep c /\
  (is_plain c = true -> is_plain (ascii_lower c) = true).
Proof.
  unfold ascii_lower, ascii_upper.
  destruct (is_upper c) eqn:Eu.
  - destruct (upper_shifted c Eu) as (H1 & H2 & H3 & H4 & H5 & H6 & H7).
    rewrite H6, H1, H2, H3, H4.
    destruct (is_lower c) eqn:El.
    + apply lower_not_upper in El. congruence.
    + rewrite Eu. auto.
  - rewrite Eu. destruct (is_lower c) eqn:El.
    + destruct (lower_shifted c El) as [H1 H2]. rewrite H1, H2. auto.
    + rewrite Eu. auto.
Qed.

Lemma map_ascii_lower_idem (s : jsstring) :
  map ascii_lower (map ascii_lower s) = map ascii_lower s.
Proof.
  rewrite map_map. apply map_ext. intros c. apply (ascii_case_facts c).
Qed.

Lemma all_incl (p : char16 -> bool) (s t : jsstring) :
  (forall c, In c t -> In c s) -> all p s -> all p t.
Proof. unfold all. rewrite !Forall_forall. auto. Qed.

Lemma all_concat (p : char16 -> bool) (ws : list jsstring) :
  all p (List.concat ws) -> Forall (all p) ws.
Proof.
  intros H. apply Forall_forall. intros w Hw. revert H. apply all_incl.
  intros c Hc. apply in_concat. eauto.
Qed.

Lemma all_filter (p q : char16 -> bool) (s : jsstring) :
  all p s -> all p (filter q s).
Proof. apply all_incl. intros c Hc. now apply filter_In in Hc. Qed.

Lemma all_map_lower_plain (s : jsstring) :
  all is_plain s -> all is_plain (map ascii_lower s).
Proof.
  intros H. apply Forall_map. revert H. apply Forall_impl.
  intros c. apply (ascii_case_facts c).
Qed.

Lemma split_runs_from_concat (sep : char16 -> bool) (b : bool)
  (s : jsstring) :
  List.concat (split_runs_from sep b s) = filter (not_in sep) s.
Proof.
  revert b. induction s as [|c t IH]; intros b; [reflexivity|].
  cbn [split_runs_from filter]. unfold not_in at 1.
  destruct (sep c); cbn [negb].
  - destruct b; cbn [List.concat app]; apply IH.
  - rewrite <- (IH false).
    destruct (split_runs_from_cons sep false t) as (w & ws & ->).
    reflexivity.
Qed.

Lemma filter_map_lower (p : char16 -> bool) (s : jsstring) :
  (forall c, p (ascii_lower c) = p c) ->
  filter p (map ascii_lower s) = map ascii_lower (filter p s).
Proof.
  intros Hp. induction s as [|c s IH]; [reflexivity|]. cbn [map filter].
  rewrite Hp. destruct (p c); cbn [map]; now rewrite IH.
Qed.

Lemma map_lower_concat_mapi (P : jsstring -> Prop)
  (f : jsstring -> nat -> jsstring) (i : nat) (ws : list jsstring) :
  (forall w j, P w -> map ascii_lower (f w j) = map ascii_lower w) ->
  Forall P ws ->
  map ascii_lower (List.concat (mapi_from i f ws))
  = map ascii_lower (List.concat ws).
Proof.
  intros Hf H. revert i. induction H as [|w ws Hw _ IH]; intros i;
    [reflexivity|].
  cbn [mapi_from List.concat]. now rewrite !map_app, Hf, IH.
Qed.

Lemma drop_while_map (f : char16 -> char16) (s : jsstring) :
  (forall c, is_space (f c) = is_space c) ->
  drop_while is_space (map f s) = map f (drop_while is_space s).
Proof.
  intros Hf. induction s as [|c s IH]; [reflexivity|]. cbn.
  rewrite Hf. destruct (is_space c); [exact IH|reflexivity].
Qed.

Lemma trim_map (f : char16 -> char16) (s : jsstring) :
  (forall c, is_space (f c) = is_space c) -> trim (map f s) = map f (trim s).
Proof.
  intros Hf. unfold trim.
  now rewrite (drop_while_map f _ Hf), <- map_rev, (drop_while_map f _ Hf),
    map_rev.
Qed.

Lemma all_trim_plain (p : char16 -> bool) (s : jsstring) :
  all p s -> all p (trim s).
Proof. apply all_incl, trim_incl. Qed.

Lemma dotsep_lowered (c : char16) :
  is_dotsep c = false -> (ascii_lower c =? DOT) = false.
Proof. cu_solve. Qed.

Section PlainStrings.
Context {cm : CaseMapping}.

Lemma toLowerCase_plain (s : jsstring) :
  all is_plain s -> toLowerCase s = map ascii_lower s.
Proof. intros H. now apply lower_plain, forallb_all. Qed.

Lemma toUpperCase_plain (s : jsstring) :
  all is_plain s -> toUpperCase s = map ascii_upper s.
Proof. intros H. now apply upper_plain, forallb_all. Qed.

Lemma capitalized_lower (w : jsstring) :
  all is_plain w ->
  map ascii_lower (toUpperCase (charAt0 w) ++ slice1 w) = map ascii_lower w.
Proof.
  intros Hw. destruct w as [|c w]; cbn [charAt0 slice1 firstn skipn].
  - now rewrite toUpperCase_plain by constructor.
  - apply Forall_cons_iff in Hw as [Hc _].
    rewrite toUpperCase_plain by now repeat constructor.
    cbn [map app]. f_equal. apply (ascii_case_facts c).
Qed.

Lemma Strict_build_lower (preserve : bool) (w : jsstring) (i : nat) :
  all is_plain w ->
  map ascii_lower (Strict.build preserve w i) = map ascii_lower w.
Proof.
  intros Hw. unfold Strict.build. rewrite (toLowerCase_plain w Hw).
  destruct (preserve && only is_upper_or_digit w && (1 <? List.length w)%nat);
    destruct (i =? 0)%nat;
    try apply map_ascii_lower_idem; try reflexivity.
  rewrite capitalized_lower by now apply all_map_lower_plain.
  apply map_ascii_lower_idem.
Qed.

Lemma Lenient_capitalize_lower (w : jsstring) (i : nat) :
  all is_plain w ->
  map ascii_lower (Lenient.capitalize w i) = map ascii_lower w.
Proof.
  intros Hw. unfold Lenient.capitalize.
  destruct (i =? 0)%nat; [reflexivity|].
  destruct (0 <? List.length w)%nat; [|reflexivity].
  now apply capitalized_lower.
Qed.

End PlainStrings.

(** X7. On a plain string (ASCII and white space), [toDotCase] keeps
    every character that is no separator, in its place and in lower case:
    its result without the dots is the lower-cased input without its
    separators. *)
Theorem dot_keeps_characters (cm : CaseMapping) (s : jsstring) :
  all is_plain s ->
  exists r,
    Dot.toDotCase (VString s) = Return r /\
    filter (not_in is_DOT) r
    = map ascii_lower (filter (not_in is_dotsep) s).
Proof.
  intros Hs.
  assert (Hsp : forall c, is_space c = true -> not_in is_dotsep c = false)
    by (intros c Hc; unfold not_in;
        now rewrite (dotsep_of_sep c (sep_of_space c Hc))).
  cbn [Dot.toDotCase].
  destruct (is_empty (trim s) || only is_dotsep (trim s)) eqn:G.
  - exists []. split; [reflexivity|]. apply guard_all in G.
    apply all_iff_filter in G. rewrite filter_trim in G by assumption.
    now rewrite G.
  - eexists. split; [reflexivity|].
    pose proof (Dot_words_concat (trim s)) as HC.
    pose proof (Dot_words_are_tokens (trim s)) as HT.
    assert (HP : Forall (all is_plain) (Dot.words (trim s))).
    { apply all_concat. rewrite HC. now apply all_filter, all_trim_plain. }
    set (W := Dot.words (trim s)) in *.
    assert (EL : map toLowerCase W = map (map ascii_lower) W).
    { apply map_ext_in. intros w Hw. apply toLowerCase_plain.
      rewrite Forall_forall in HP. auto. }
    rewrite EL. unfold is_DOT. rewrite filter_join_token.
    + rewrite <- concat_map, HC. now rewrite filter_trim.
    + apply Forall_map. eapply Forall_impl; [|exact HT].
      intros w [_ Hw]. apply Forall_map. eapply Forall_impl; [|exact Hw].
      apply dotsep_lowered.
Qed.

Lemma dot_keeps_characters_witness :
  exists r,
    Dot.toDotCase (VString (js "my_HTTP server!")) = Return r /\
    filter (not_in is_DOT) r
    = map ascii_lower (filter (not_in is_dotsep) (js "my_HTTP server!")).
Proof.
  apply (dot_keeps_characters latin1_case (js "my_HTTP server!")).
  apply forallb_all. reflexivity.
Defined.

(** X8. On a plain string the strict [toCamelCase], whatever the options,
    keeps every character that is no separator and only changes the case
    of letters: in lower case, its result is the lower-cased input
    without its separators. *)
Theorem strict_camel_keeps_characters (cm : CaseMapping) (s : jsstring)
  (opts : options) :
  all is_plain s ->
  exists r,
    Strict.toCamelCase (VString s) opts = Return r /\
    map ascii_lower r = map ascii_lower (filter (not_in is_sep) s).
Proof.
  intros Hs.
  assert (Hsp : forall c, is_space c = true -> not_in is_sep c = false)
    by (intros c Hc; unfold not_in; now rewrite (sep_of_space c Hc)).
  pose proof (Strict_resultWords_concat (trim s)) as HC.
  rewrite filter_trim in HC by assumption.
  cbn [Strict.toCamelCase].
  destruct (is_empty (trim s) || only is_sep (trim s)) eqn:G.
  - exists []. split; [reflexivity|]. apply guard_all in G.
    apply all_iff_filter in G. rewrite filter_trim in G by assumption.
    now rewrite G.
  - destruct (List.length (Strict.resultWords (trim s)) =? 0)%nat eqn:El.
    + exists []. split; [reflexivity|]. rewrite <- HC.
      destruct (Strict.resultWords (trim s)); [reflexivity|discriminate].
    + eexists. split; [reflexivity|].
      rewrite join_nil_concat, <- HC. unfold mapi.
      apply map_lower_concat_mapi with (P := all is_plain).
      * intros w j. apply Strict_build_lower.
      * apply all_concat. rewrite HC. now apply all_filter.
Qed.

Lemma strict_camel_keeps_characters_witness :
  exists r,
    Strict.toCamelCase (VString (js "my_HTTP server!")) (preserving true)
    = Return r /\
    map ascii_lower r
    = map ascii_lower (filter (not_in is_sep) (js "my_HTTP server!")).
Proof.
  apply (strict_camel_keeps_characters latin1_case (js "my_HTTP server!")).
  apply forallb_all. reflexivity.
Defined.

(** X9. On a plain string the lenient [toCamelCase] keeps every character
    that is no separator and only changes the case of letters. *)
Theorem lenient_camel_keeps_characters (cm : CaseMapping) (s : jsstring) :
  all is_plain s ->
  exists r,
    Lenient.toCamelCase (VString s) = Return r /\
    map ascii_lower r = map ascii_lower (filter (not_in is_sep) s).
Proof.
  intros Hs.
  assert (Hsp : forall c, is_space c = true -> not_in is_sep c = false)
    by (intros c Hc; unfold not_in; now rewrite (sep_of_space c Hc)).
  assert (Hsl : forall c, not_in is_sep (ascii_lower c) = not_in is_sep c)
    by (intros c; unfold not_in; f_equal; apply (ascii_case_facts c)).
  cbn [Lenient.toCamelCase]. eexists. split; [reflexivity|].
  rewrite join_nil_concat, Lenient_words_runs.
  rewrite toLowerCase_plain by now apply all_trim_plain.
  unfold mapi, split_runs.
  rewrite map_lower_concat_mapi with (P := all is_plain).
  - rewrite split_runs_from_concat, filter_map_lower by assumption.
    now rewrite map_ascii_lower_idem, filter_trim.
  - intros w j. apply Lenient_capitalize_lower.
  - apply all_concat. rewrite split_runs_from_concat.
    now apply all_filter, all_map_lower_plain, all_trim_plain.
Qed.

Lemma lenient_camel_keeps_characters_witness :
  exists r,
    Lenient.toCamelCase (VString (js "my_HTTP server!")) = Return r /\
    map ascii_lower r
    = map ascii_lower (filter (not_in is_sep) (js "my_HTTP server!")).
Proof.
  apply (lenient_camel_keeps_characters latin1_case (js "my_HTTP server!")).
  apply forallb_all. reflexivity.
Defined.

(** X10. The lenient [toCamelCase] does not see the case of ASCII
    letters: two plain strings that are equal in lower case have the same
    result. *)
Theorem lenient_camel_ignores_case (cm : CaseMapping) (s s' : jsstring) :
  all is_plain s -> all is_plain s' ->
  map ascii_lower s = map ascii_lower s' ->
  Lenient.toCamelCase (VString s) = Lenient.toCamelCase (VString s').
Proof.
  intros Hs Hs' E. cbn [Lenient.toCamelCase]. unfold Lenient.words.
  assert (Hsp : forall c, is_space (ascii_lower c) = is_space c)
    by (intros c; apply (ascii_case_facts c)).
  rewrite !toLowerCase_plain by now apply all_trim_plain.
  now rewrite <- !(trim_map ascii_lower _ Hsp), E.
Qed.

Lemma lenient_camel_ignores_case_witness :
  Lenient.toCamelCase (VString (js "Screen_NAME"))
  = Lenient.toCamelCase (VString (js "sCREEN_name")).
Proof.
  apply (lenient_camel_ignores_case latin1_case);
    try (apply forallb_all; reflexivity); reflexivity.
Defined.

(** ** A separator in front *)

Lemma drop_while_app_free (p : char16 -> bool) (a b : jsstring) :
  a <> [] -> free p a -> drop_while p (a ++ b) = a ++ b.
Proof.
  intros Hne Ha. destruct a as [|x a]; [congruence|].
  apply free_cons in Ha as [Hx _]. cbn. now rewrite Hx.
Qed.

(** [trim] leaves a string alone that neither starts nor ends with white
    space. *)
Lemma trim_ends (x : char16) (m w : jsstring) :
  is_space x = false -> w <> [] -> free is_space w ->
  trim (x :: m ++ w) = x :: m ++ w.
Proof.
  intros Hx Hne Hw. unfold trim. cbn [drop_while]. rewrite Hx.
  change (x :: m ++ w) with ((x :: m) ++ w) at 1.
  rewrite rev_app_distr, drop_while_app_free.
  - now rewrite <- rev_app_distr, rev_involutive.
  - intros E. apply (f_equal (@rev char16)) in E.
    rewrite rev_involutive in E. cbn in E. congruence.
  - now apply Forall_rev.
Qed.

Lemma map_lower_sep (l : jsstring) : all is_sep l -> map ascii_lower l = l.
Proof.
  induction 1 as [|c l Hc _ IH]; [reflexivity|]. cbn [map]. rewrite IH.
  unfold ascii_lower. now rewrite (proj2 (sep_plain_not_upper c Hc)).
Qed.

Lemma split_runs_from_sep_prefix (sep : char16 -> bool) (l x : jsstring) :
  all sep l -> free sep x -> split_runs_from sep true (l ++ x) = [x].
Proof.
  intros Hl Hx. induction Hl as [|c l Hc _ IH].
  - now apply split_runs_from_word.
  - cbn [app split_runs_from]. now rewrite Hc.
Qed.

Lemma free_map_lower_sep (w : jsstring) :
  free is_sep w -> free is_sep (map ascii_lower w).
Proof.
  intros H. apply Forall_map. revert H. apply Forall_impl. intros c Hc.
  now rewrite (proj1 (proj2 (proj2 (proj2 (ascii_case_facts c))))).
Qed.

(** X11. An underscore or a hyphen in front of the input makes the
    lenient [toCamelCase] capitalise the first word: [split] then yields
    an empty first piece, which takes the place of the word that is left
    in lower case. *)
Theorem lenient_camel_leading_separator (cm : CaseMapping) (d c : char16)
  (l w : jsstring) :
  is_sep d = true -> is_space d = false -> all is_sep l ->
  all is_plain (c :: w) -> free is_sep (c :: w) ->
  Lenient.toCamelCase (VString (d :: l ++ c :: w))
  = Return (ascii_upper (ascii_lower c) :: map ascii_lower w).
Proof.
  intros Hd Hsp Hl Hp Hw. cbn [Lenient.toCamelCase]. f_equal.
  rewrite Lenient_words_runs.
  rewrite trim_ends by
    (assumption || discriminate || now apply free_sep_space).
  assert (Hall : all is_plain (d :: l ++ c :: w)).
  { constructor; [apply (sep_plain_not_upper d Hd)|].
    apply Forall_app. split; [|assumption].
    revert Hl. apply Forall_impl. intros x Hx.
    apply (sep_plain_not_upper x Hx). }
  rewrite (toLowerCase_plain _ Hall).
  cbn [map]. rewrite map_app, (map_lower_sep l Hl).
  assert (Ed : ascii_lower d = d)
    by (unfold ascii_lower; now rewrite (proj2 (sep_plain_not_upper d Hd))).
  rewrite Ed. unfold split_runs. cbn [split_runs_from]. rewrite Hd.
  rewrite split_runs_from_sep_prefix
    by (assumption || now apply free_map_lower_sep).
  unfold mapi. cbn [mapi_from map join app].
  unfold Lenient.capitalize.
  cbn [Nat.eqb List.length Nat.ltb Nat.leb charAt0 slice1 firstn skipn].
  rewrite toUpperCase_plain.
  - reflexivity.
  - apply Forall_cons_iff in Hp as [Hc _]. repeat constructor.
    now apply (ascii_case_facts c).
Qed.

Lemma lenient_camel_leading_separator_witness :
  Lenient.toCamelCase (VString (js "_" ++ js "-" ++ js "foo"))
  = Return (js "Foo").
Proof.
  apply (lenient_camel_leading_separator latin1_case 95 102 (js "-")
           (js "oo")); try reflexivity;
    apply forallb_all || apply Forall_forall; try reflexivity.
  intros x Hx. cbn in Hx.
  repeat (destruct Hx as [<-|Hx]; [reflexivity|]). contradiction.
Defined.

(** ** The separators between the words *)

Lemma word_split (sep : char16 -> bool) (s : jsstring) :
  s = word_prefix sep s ++ word_rest sep s /\
  free sep (word_prefix sep s) /\
  (word_rest sep s = [] \/
   exists d b, word_rest sep s = d :: b /\ sep d = true /\
               (List.length b < List.length s)%nat).
Proof.
  induction s as [|c t (E & Hf & Hr)]; [repeat split; [constructor|now left]|].
  cbn [word_prefix word_rest]. destruct (sep c) eqn:Hc.
  - repeat split; [constructor|]. right. exists c, t. cbn. auto.
  - cbn [app]. repeat split; [now f_equal|now constructor|].
    destruct Hr as [Hr|(d & b & Hr & Hd & Hlen)]; [now left|].
    right. exists d, b. cbn. repeat split; auto.
Qed.

Lemma tokens_all_sep_app (sep : char16 -> bool) (l s : jsstring) :
  all sep l -> tokens sep (l ++ s) = tokens sep s.
Proof.
  unfold tokens. induction 1 as [|c l Hc _ IH]; [reflexivity|].
  cbn [app tokens_from]. now rewrite Hc.
Qed.

Lemma tokens_from_app_all_sep (sep : char16 -> bool) (cur s r : jsstring) :
  all sep r -> tokens_from sep cur (s ++ r) = tokens_from sep cur s.
Proof.
  intros Hr. revert cur. induction s as [|c s IH]; intros cur.
  - cbn [app]. destruct Hr as [|d r Hd Hr]; [reflexivity|].
    cbn [tokens_from]. rewrite Hd.
    assert (E : tokens_from sep [] r = []) by now apply tokens_all_sep.
    now rewrite E, app_nil_r.
  - cbn [app tokens_from]. destruct (sep c); now rewrite IH.
Qed.

Lemma drop_while_split (p : char16 -> bool) (s : jsstring) :
  exists l, all p l /\ s = l ++ drop_while p s.
Proof.
  induction s as [|c s (l & Hl & E)]; [exists []; split; [constructor|reflexivity]|].
  cbn. destruct (p c) eqn:Hc.
  - exists (c :: l). split; [now constructor|now cbn; f_equal].
  - exists []. split; [constructor|reflexivity].
Qed.

(** [trim] takes white space away in front and at the end, nothing
    else. *)
Lemma trim_split (s : jsstring) :
  exists l r, all is_space l /\ all is_space r /\ s = l ++ trim s ++ r.
Proof.
  destruct (drop_while_split is_space s) as (l & Hl & E).
  destruct (drop_while_split is_space (rev (drop_while is_space s)))
    as (r & Hr & E').
  exists l, (rev r). repeat split; [assumption|now apply Forall_rev|].
  unfold trim. rewrite <- rev_app_distr, <- E', rev_involutive. exact E.
Qed.

Lemma tokens_trim (sep : char16 -> bool) (s : jsstring) :
  (forall c, is_space c = true -> sep c = true) ->
  tokens sep (trim s) = tokens sep s.
Proof.
  intros Hsp. destruct (trim_split s) as (l & r & Hl & Hr & E).
  rewrite E at 2. rewrite tokens_all_sep_app.
  - unfold tokens. rewrite tokens_from_app_all_sep; [reflexivity|].
    revert Hr. apply Forall_impl, Hsp.
  - revert Hl. apply Forall_impl, Hsp.
Qed.

(** A replacement that works on each side of a separator independently
    works on each token independently. *)
Section Flatten.
Variable sep : char16 -> bool.
Variable F : jsstring -> jsstring.
Hypothesis F_nil : F [] = [].
Hypothesis F_inert : forall a d b,
  sep d = true -> exists d', sep d' = true /\ F (a ++ d :: b) = F a ++ d' :: F b.

Lemma tokens_flatten (s : jsstring) :
  tokens sep (F s) = flat_map (fun w => tokens sep (F w)) (tokens sep s).
Proof.
  induction s as [s IH] using length_ind.
  destruct (word_split sep s) as (E & Hf & Hr).
  remember (word_prefix sep s) as a eqn:Ea.
  remember (word_rest sep s) as t eqn:Et. clear Ea Et.
  assert (Ha : tokens sep (F a)
               = flat_map (fun w => tokens sep (F w)) (tokens sep a)).
  { destruct a as [|x a].
    - now rewrite F_nil.
    - rewrite (tokens_word sep (x :: a)) by (split; [discriminate|assumption]).
      cbn [flat_map]. now rewrite app_nil_r. }
  destruct Hr as [->|(d & b & -> & Hd & Hlen)].
  - rewrite app_nil_r in E. now subst s.
  - specialize (IH b Hlen). subst s.
    destruct (F_inert a d b Hd) as (d' & Hd' & ->).
    rewrite !tokens_app_sep by assumption.
    now rewrite flat_map_app, Ha, IH.
Qed.

End Flatten.

Lemma sep_facts (d : char16) :
  is_sep d = true ->
  is_lower_or_digit d = false /\ is_lower d = false /\ is_upper d = false /\
  kebab_keep (underscore_to_space d) = true /\
  is_sep (underscore_to_space d) = true.
Proof. unfold underscore_to_space. cu_solve. Qed.

Lemma dotsep_facts_true (d : char16) :
  is_dotsep d = true -> is_lower d = false /\ is_upper d = false.
Proof. cu_solve. Qed.

(** The words of [toKebabCase], token by token. *)
Lemma Kebab_words_flatten (s : jsstring) :
  Kebab.words s = flat_map Kebab.words (tokens is_sep s).
Proof.
  rewrite Kebab_words_tokens.
  rewrite (tokens_flatten is_sep
             (fun s => filter kebab_keep
                         (map underscore_to_space
                            (replace_camel is_lower_or_digit s)))).
  - apply flat_map_ext. intros w. now rewrite Kebab_words_tokens.
  - reflexivity.
  - intros a d b Hd. destruct (sep_facts d Hd) as (H1 & _ & H3 & H4 & H5).
    exists (underscore_to_space d). split; [assumption|].
    rewrite (replace_camel_app_inert _ lower_or_digit_not_upper)
      by assumption.
    rewrite map_app, filter_app. cbn [map filter]. now rewrite H4.
Qed.

Lemma Strict_resultWords_flatten (s : jsstring) :
  Strict.resultWords s = flat_map Strict.resultWords (tokens is_sep s).
Proof.
  rewrite Strict_resultWords_tokens.
  rewrite (tokens_flatten is_sep (replace_camel is_lower)).
  - induction (tokens is_sep s) as [|w ws IH]; [reflexivity|].
    cbn [flat_map]. rewrite flat_map_app, IH.
    now rewrite Strict_resultWords_tokens.
  - reflexivity.
  - intros a d b Hd. destruct (sep_facts d Hd) as (_ & H2 & H3 & _).
    exists d. split; [assumption|].
    now apply (replace_camel_app_inert _ lower_not_upper).
Qed.

Lemma Dot_words_flatten (s : jsstring) :
  Dot.words s = flat_map Dot.words (tokens is_dotsep s).
Proof.
  rewrite Dot_words_tokens.
  rewrite (tokens_flatten is_dotsep
             (fun s => replace_acronym (replace_camel is_lower s))).
  - apply flat_map_ext. intros w. now rewrite Dot_words_tokens.
  - reflexivity.
  - intros a d b Hd. destruct (dotsep_facts_true d Hd) as (H2 & H3).
    exists d. split; [assumption|].
    rewrite (replace_camel_app_inert _ lower_not_upper) by assumption.
    now apply replace_acronym_app_inert.
Qed.

Section ResultsFromWords.
Context {cm : CaseMapping}.

(** The result of the strict [toCamelCase] from its words, also when
    there are none. *)
Lemma Strict_result_words (s : jsstring) (opts : options) :
  Strict.toCamelCase (VString s) opts
  = Return (join []
              (mapi (Strict.build
                       (match preserveAcronyms opts with
                        | Some b => b
                        | None => false
                        end))
                 (Strict.resultWords (trim s)))).
Proof.
  cbn [Strict.toCamelCase].
  destruct (is_empty (trim s) || only is_sep (trim s)) eqn:G.
  - apply guard_all in G. apply all_iff_filter in G.
    rewrite <- Strict_resultWords_concat in G.
    apply (concat_nil_tokens is_sep) in G;
      [|apply Strict_resultWords_are_tokens].
    now rewrite G.
  - destruct (Strict.resultWords (trim s)); reflexivity.
Qed.

Lemma Dot_result_words (s : jsstring) :
  Dot.toDotCase (VString s)
  = Return (join [DOT] (map toLowerCase (Dot.words (trim s)))).
Proof.
  cbn [Dot.toDotCase].
  destruct (is_empty (trim s) || only is_dotsep (trim s)) eqn:G;
    [|reflexivity].
  apply guard_all in G. apply all_iff_filter in G.
  rewrite <- Dot_words_concat in G.
  apply (concat_nil_tokens is_dotsep) in G; [|apply Dot_words_are_tokens].
  now rewrite G.
Qed.

End ResultsFromWords.

(** X12. Which separators stand between the words of the input, and how
    many, is the same to [toKebabCase]: two strings with the same tokens
    between white space, underscores and hyphens have the same result. *)
Theorem kebab_separators_interchangeable (cm : CaseMapping)
  (s s' : jsstring) :
  tokens is_sep s = tokens is_sep s' ->
  Kebab.toKebabCase (VString s) = Kebab.toKebabCase (VString s').
Proof.
  intros E. rewrite !Kebab_result_words.
  rewrite (Kebab_words_flatten (trim s)), (Kebab_words_flatten (trim s')).
  now rewrite !(tokens_trim is_sep _ sep_of_space), E.
Qed.

Lemma kebab_separators_interchangeable_witness :
  Kebab.toKebabCase (VString (js "user_id"))
  = Kebab.toKebabCase (VString (js " user--  id_")).
Proof.
  apply (kebab_separators_interchangeable latin1_case). reflexivity.
Defined.

(** X13. Which separators stand between the words of the input, and how
    many, is the same to the strict [toCamelCase], whatever the options:
    two strings with the same tokens between white space, underscores and
    hyphens have the same result. *)
Theorem strict_camel_separators_interchangeable (cm : CaseMapping)
  (s s' : jsstring) (opts : options) :
  tokens is_sep s = tokens is_sep s' ->
  Strict.toCamelCase (VString s) opts = Strict.toCamelCase (VString s') opts.
Proof.
  intros E. rewrite !Strict_result_words.
  rewrite (Strict_resultWords_flatten (trim s)),
    (Strict_resultWords_flatten (trim s')).
  now rewrite !(tokens_trim is_sep _ sep_of_space), E.
Qed.

Lemma strict_camel_separators_interchangeable_witness :
  Strict.toCamelCase (VString (js "user_id")) no_options
  = Strict.toCamelCase (VString (js " user--  id_")) no_options.
Proof.
  apply (strict_camel_separators_interchangeable latin1_case). reflexivity.
Defined.

(** X14. Which separators stand between the words of the input, and how
    many, is the same to [toDotCase]: two strings with the same tokens
    between white space, underscores, hyphens and dots have the same
    result. *)
Theorem dot_separators_interchangeable (cm : CaseMapping) (s s' : jsstring) :
  tokens is_dotsep s = tokens is_dotsep s' ->
  Dot.toDotCase (VString s) = Dot.toDotCase (VString s').
Proof.
  intros E. rewrite !Dot_result_words.
  rewrite (Dot_words_flatten (trim s)), (Dot_words_flatten (trim s')).
  assert (Hsp : forall c, is_space c = true -> is_dotsep c = true)
    by (intros c Hc; apply dotsep_of_sep, sep_of_space, Hc).
  now rewrite !(tokens_trim is_dotsep _ Hsp), E.
Qed.

Lemma dot_separators_interchangeable_witness :
  Dot.toDotCase (VString (js "user.id"))
  = Dot.toDotCase (VString (js " user -_ id..")).
Proof.
  apply (dot_separators_interchangeable latin1_case). reflexivity.
Defined.

(** ** Strings without ASCII capital letters *)

Lemma Forall_concat_parts {A : Type} (P : A -> Prop) (ls : list (list A)) :
  Forall P (List.concat ls) -> Forall (Forall P) ls.
Proof.
  intros H. apply Forall_forall. intros l Hl. apply Forall_forall.
  intros x Hx. rewrite Forall_forall in H. apply H, in_concat. eauto.
Qed.

Lemma upper_or_digit_not_upper (c : char16) :
  is_upper_or_digit c = true -> is_upper c = false ->
  is_digit c = true /\ is_plain c = true /\ ascii_upper c = c.
Proof. cu_solve. Qed.

Lemma mapi_from_ext_in {A B : Type} (P : A -> Prop) (f g : A -> nat -> B)
  (i : nat) (l : list A) :
  (forall a j, P a -> f a j = g a j) -> Forall P l ->
  mapi_from i f l = mapi_from i g l.
Proof.
  intros H Hl. revert i. induction Hl as [|a l Ha _ IH]; intros i;
    [reflexivity|].
  cbn [mapi_from]. now rewrite (H a i Ha), IH.
Qed.

Section NoCapitals.
Context {cm : CaseMapping}.

(** A word of digits and upper-case letters without upper-case letters:
    capitalising it changes nothing. *)
Lemma digits_capitalized (w : jsstring) :
  all is_upper_or_digit w -> free is_upper w ->
  toLowerCase w = w /\ toUpperCase (charAt0 w) ++ slice1 w = w.
Proof.
  intros Hd Hu.
  assert (Hp : all is_plain w).
  { apply Forall_forall. intros c Hc. unfold all, free in *.
    rewrite Forall_forall in Hd, Hu.
    apply (upper_or_digit_not_upper c (Hd c Hc) (Hu c Hc)). }
  split; [now apply toLowerCase_plain_id|].
  destruct w as [|c w]; cbn [charAt0 slice1 firstn skipn].
  - now rewrite toUpperCase_plain by constructor.
  - apply Forall_cons_iff in Hd as [Hc _]. apply free_cons in Hu as [Hc' _].
    apply Forall_cons_iff in Hp as [Hpc _].
    rewrite toUpperCase_plain by now repeat constructor. cbn [map app].
    f_equal. apply (upper_or_digit_not_upper c Hc Hc').
Qed.

(** On a word without ASCII capital letters the option is without
    effect. *)
Lemma Strict_build_no_capitals (preserve : bool) (w : jsstring) (i : nat) :
  free is_upper w -> Strict.build preserve w i = Strict.build false w i.
Proof.
  intros Hu. unfold Strict.build. cbn [andb].
  destruct (preserve && only is_upper_or_digit w && (1 <? List.length w)%nat)
    eqn:E; [|reflexivity].
  apply andb_prop in E as [E _]. apply andb_prop in E as [_ E].
  unfold only in E. apply andb_prop in E as [_ E]. apply forallb_all in E.
  destruct (digits_capitalized w E Hu) as [El Ec].
  rewrite El. destruct (i =? 0)%nat; [reflexivity|now rewrite Ec].
Qed.

Lemma Strict_resultWords_free (p : char16 -> bool) (s : jsstring) :
  free p s -> Forall (free p) (Strict.resultWords (trim s)).
Proof.
  intros Hs. apply Forall_concat_parts. rewrite Strict_resultWords_concat.
  apply free_incl with (s := s); [|assumption].
  intros c Hc. apply filter_In in Hc as [Hc _]. now apply trim_incl.
Qed.

End NoCapitals.

(** X15. On an input without ASCII capital letters the option
    [preserveAcronyms] of the strict [toCamelCase] is without effect. *)
Theorem strict_camel_options_without_capitals (cm : CaseMapping)
  (s : jsstring) (opts : options) :
  free is_upper s ->
  Strict.toCamelCase (VString s) opts
  = Strict.toCamelCase (VString s) no_options.
Proof.
  intros Hs. rewrite !Strict_result_words. cbn [preserveAcronyms no_options].
  do 2 f_equal. unfold mapi.
  apply mapi_from_ext_in with (P := free is_upper).
  - intros w j Hw. apply Strict_build_no_capitals, Hw.
  - now apply Strict_resultWords_free.
Qed.

Lemma strict_camel_options_without_capitals_witness :
  Strict.toCamelCase (VString (js "user_42_id")) (preserving true)
  = Strict.toCamelCase (VString (js "user_42_id")) no_options.
Proof.
  apply (strict_camel_options_without_capitals latin1_case).
  apply Forall_forall. intros c Hc. cbn in Hc.
  repeat (destruct Hc as [<-|Hc]; [reflexivity|]). contradiction.
Defined.

(** ** The two camelCase functions side by side *)

Lemma drop_while_last (p : char16 -> bool) (x : jsstring) (c : char16) :
  p c = false -> exists y, drop_while p (x ++ [c]) = y ++ [c].
Proof.
  intros Hc. induction x as [|a x (y & IH)].
  - exists []. cbn. now rewrite Hc.
  - cbn [app drop_while]. destruct (p a); [eauto|].
    exists (a :: x). reflexivity.
Qed.

Lemma trim_head (c : char16) (t : jsstring) :
  is_space c = false -> exists t', trim (c :: t) = c :: t'.
Proof.
  intros Hc. unfold trim. cbn [drop_while]. rewrite Hc. cbn [rev].
  destruct (drop_while_last is_space (rev t) c Hc) as (y & ->).
  exists (rev y). now rewrite rev_app_distr.
Qed.

Lemma flat_map_singleton (f : jsstring -> list jsstring)
  (l : list jsstring) :
  Forall (fun w => f w = [w]) l -> flat_map f l = l.
Proof.
  induction 1 as [|w l Hw _ IH]; [reflexivity|].
  cbn [flat_map]. now rewrite Hw, IH.
Qed.

(** A token without ASCII capital letters is one word of the strict
    [toCamelCase]. *)
Lemma camel_tokens_no_capitals (w : jsstring) :
  is_token is_sep w -> free is_upper w -> camel_tokens w = [w].
Proof.
  intros [Hne Hs] Hu. unfold camel_tokens.
  rewrite replace_acronym_free by assumption.
  rewrite (replace_camel_free _ lower_or_digit_not_upper) by assumption.
  apply tokens_word. split; [assumption|now apply free_sep_SPACE].
Qed.

Lemma Strict_resultWords_no_capitals (s : jsstring) :
  free is_upper s -> Strict.resultWords s = tokens is_sep s.
Proof.
  intros Hu. rewrite Strict_resultWords_tokens.
  rewrite (replace_camel_free _ lower_not_upper) by assumption.
  apply flat_map_singleton.
  pose proof (tokens_are_tokens is_sep s) as HT.
  assert (HU : Forall (free is_upper) (tokens is_sep s)).
  { apply Forall_concat_parts. rewrite tokens_concat. revert Hu.
    apply free_incl. intros c Hc. now apply filter_In in Hc. }
  apply Forall_forall. intros w Hw. rewrite Forall_forall in HT, HU.
  apply camel_tokens_no_capitals; auto.
Qed.

Section SideBySide.
Context {cm : CaseMapping}.

Lemma Strict_build_later (preserve : bool) (w : jsstring) (j : nat) :
  all is_plain w -> free is_upper w ->
  Strict.build preserve w (S j) = toUpperCase (charAt0 w) ++ slice1 w.
Proof.
  intros Hp Hu. rewrite Strict_build_no_capitals by assumption.
  unfold Strict.build. cbn [andb Nat.eqb].
  now rewrite toLowerCase_plain_id.
Qed.

Lemma camel_rest_agree (preserve : bool) (i j : nat) (rest : list jsstring) :
  Forall (fun w => all is_plain w /\ free is_upper w) rest ->
  join [] (mapi_from (S i) Lenient.capitalize rest)
  = join [] (mapi_from (S j) (Strict.build preserve) (filter truthy rest)).
Proof.
  intros H. revert i j. induction H as [|w rest [Hp Hu] _ IH]; intros i j;
    [reflexivity|].
  cbn [mapi_from filter]. rewrite join_nil_cons. destruct w as [|c w].
  - cbn [truthy is_empty negb]. rewrite Lenient_capitalize_empty.
    apply (IH (S i) j).
  - cbn [truthy is_empty negb mapi_from]. rewrite join_nil_cons.
    rewrite Strict_build_later by assumption.
    unfold Lenient.capitalize. cbn [Nat.eqb List.length Nat.ltb Nat.leb].
    f_equal. apply (IH (S i) (S j)).
Qed.

End SideBySide.

(** X16. On a plain string without ASCII capital letters that starts with
    a character that is no separator, the strict [toCamelCase], whatever
    the options, and the lenient one return the same. *)
Theorem camel_variants_agree (cm : CaseMapping) (c : char16) (t : jsstring)
  (opts : options) :
  all is_plain (c :: t) -> free is_upper (c :: t) -> is_sep c = false ->
  Strict.toCamelCase (VString (c :: t)) opts
  = Lenient.toCamelCase (VString (c :: t)).
Proof.
  intros Hp Hu Hc.
  destruct (trim_head c t (space_is_sep_false c Hc)) as (t' & ET).
  assert (HpT : all is_plain (trim (c :: t))) by now apply all_trim_plain.
  assert (HuT : free is_upper (trim (c :: t)))
    by (revert Hu; apply free_incl, trim_incl).
  rewrite Strict_result_words. cbn [Lenient.toCamelCase]. f_equal.
  rewrite Lenient_words_runs, (toLowerCase_plain_id _ HpT HuT).
  rewrite (Strict_resultWords_no_capitals _ HuT), <- tokens_split_runs.
  assert (HQ : Forall (fun w => all is_plain w /\ free is_upper w)
                 (split_runs is_sep (trim (c :: t)))).
  { apply Forall_forall. intros w Hw.
    pose proof (split_runs_from_concat is_sep false (trim (c :: t))) as HC.
    split.
    - apply all_incl with (s := trim (c :: t)); [|assumption].
      intros x Hx. assert (Hin : In x (List.concat (split_runs is_sep (trim (c :: t)))))
        by (apply in_concat; eauto).
      unfold split_runs in Hin. rewrite HC in Hin.
      now apply filter_In in Hin.
    - apply free_incl with (s := trim (c :: t)); [|assumption].
      intros x Hx. assert (Hin : In x (List.concat (split_runs is_sep (trim (c :: t)))))
        by (apply in_concat; eauto).
      unfold split_runs in Hin. rewrite HC in Hin.
      now apply filter_In in Hin. }
  revert HQ. rewrite ET. unfold split_runs. cbn [split_runs_from].
  rewrite Hc. destruct (split_runs_from_cons is_sep false t') as (w & ws & ->).
  intros HQ. apply Forall_cons_iff in HQ as [[Hpw Huw] HQ].
  unfold mapi. cbn [filter truthy is_empty negb mapi_from].
  rewrite !join_nil_cons, Strict_build_first.
  rewrite (toLowerCase_plain_id _ Hpw Huw).
  unfold Lenient.capitalize at 1. cbn [Nat.eqb]. f_equal.
  symmetry. apply camel_rest_agree, HQ.
Qed.

Lemma camel_variants_agree_witness :
  Strict.toCamelCase (VString (js "user_id-42 x")) (preserving true)
  = Lenient.toCamelCase (VString (js "user_id-42 x")).
Proof.
  apply (camel_variants_agree latin1_case 117 (js "ser_id-42 x"));
    try reflexivity;
    apply forallb_all || apply Forall_forall; try reflexivity.
  intros x Hx. cbn in Hx.
  repeat (destruct Hx as [<-|Hx]; [reflexivity|]). contradiction.
Defined.

(** ** One function after the other *)

Lemma kebab_word_facts (w : jsstring) :
  kebab_word w ->
  is_token is_sep w /\ is_token is_dotsep w /\ all is_plain w /\
  free is_upper w /\ free is_space w /\ free is_UNDERSCORE w /\
  free is_HYPHEN w /\ all kebab_keep w.
Proof.
  intros [Hne Hw].
  assert (H : forall p : char16 -> bool,
             (forall c, is_lower_or_digit c = true -> p c = false) ->
             free p w)
    by (intros p Hp; revert Hw; now apply all_free).
  assert (H' : forall p : char16 -> bool,
             (forall c, is_lower_or_digit c = true -> p c = true) ->
             all p w)
    by (intros p Hp; revert Hw; now apply Forall_impl).
  repeat split; try assumption;
    try (apply H; intros c Hc; try apply (kebab_char_facts c Hc);
         revert Hc; unfold is_HYPHEN; cu_solve);
    apply H'; intros c Hc; apply (kebab_word_chars c Hc).
Qed.

Lemma map_hyphen_free (w : jsstring) :
  free is_HYPHEN w -> map hyphen_to_dot w = w.
Proof.
  induction 1 as [|c w Hc _ IH]; [reflexivity|]. cbn [map]. rewrite IH.
  unfold hyphen_to_dot. unfold is_HYPHEN in Hc. now rewrite Hc.
Qed.

Lemma map_id_in (f : jsstring -> jsstring) (l : list jsstring) :
  Forall (fun w => f w = w) l -> map f l = l.
Proof.
  induction 1 as [|w l Hw _ IH]; [reflexivity|]. cbn [map].
  now rewrite Hw, IH.
Qed.

Section KebabThenDot.
Context {cm : CaseMapping}.

(** Words of kebab-case joined by hyphens: what the functions read. *)
Lemma kebab_joined (w0 : jsstring) (rest : list jsstring) :
  Forall kebab_word (w0 :: rest) ->
  let J := join [HYPHEN] (w0 :: rest) in
  trim J = J /\ free is_upper J /\
  tokens is_sep J = w0 :: rest /\ tokens is_dotsep J = w0 :: rest.
Proof.
  intros Hws J.
  assert (HF : Forall (fun w => kebab_word w) (w0 :: rest)) by exact Hws.
  assert (Hsp : free is_space J).
  { apply join_free; [now repeat constructor|].
    eapply Forall_impl; [|exact Hws]. intros w Hw.
    apply (kebab_word_facts w Hw). }
  assert (Hup : free is_upper J).
  { apply join_free; [now repeat constructor|].
    eapply Forall_impl; [|exact Hws]. intros w Hw.
    apply (kebab_word_facts w Hw). }
  repeat split; [now apply trim_free|assumption| |].
  - apply tokens_join; [reflexivity|].
    eapply Forall_impl; [|exact Hws]. intros w Hw.
    apply (kebab_word_facts w Hw).
  - apply tokens_join; [reflexivity|].
    eapply Forall_impl; [|exact Hws]. intros w Hw.
    apply (kebab_word_facts w Hw).
Qed.

Lemma Dot_on_kebab_words (ws : list jsstring) :
  Forall kebab_word ws ->
  Dot.toDotCase (VString (join [HYPHEN] ws)) = Return (join [DOT] ws).
Proof.
  intros Hws. destruct ws as [|w0 rest]; [reflexivity|].
  destruct (kebab_joined w0 rest Hws) as (Et & Hup & _ & Etok).
  rewrite Dot_result_words, Et, Dot_words_tokens.
  rewrite (replace_camel_free _ lower_not_upper) by assumption.
  rewrite replace_acronym_free by assumption.
  rewrite Etok. f_equal. f_equal. apply map_id_in.
  eapply Forall_impl; [|exact Hws]. intros w Hw.
  apply toLowerCase_plain_id; apply (kebab_word_facts w Hw).
Qed.

End KebabThenDot.

(** X17. [toDotCase] run on a result of [toKebabCase] puts a dot in the
    place of every hyphen and changes nothing else. *)
Theorem dot_of_kebab_result (cm : CaseMapping) (v : value) :
  exists r, Kebab.toKebabCase v = Return r /\
            Dot.toDotCase (VString r) = Return (map hyphen_to_dot r).
Proof.
  destruct (Kebab_result v) as (ws & Hws & E).
  eexists. split; [exact E|].
  rewrite (Dot_on_kebab_words ws Hws), map_join. f_equal. f_equal.
  symmetry. apply map_id_in. eapply Forall_impl; [|exact Hws].
  intros w Hw. apply map_hyphen_free. apply (kebab_word_facts w Hw).
Qed.

Lemma filter_join_drop (p : char16 -> bool) (d : char16)
  (ws : list jsstring) :
  p d = false -> Forall (all p) ws -> filter p (join [d] ws) = List.concat ws.
Proof.
  intros Hd. induction 1 as [|w rest Hw _ IH]; [reflexivity|].
  cbn [join List.concat]. destruct rest as [|w' rest'].
  - cbn [List.concat]. now rewrite app_nil_r, filter_all.
  - rewrite filter_app, (filter_all p w Hw). cbn [app filter].
    now rewrite Hd, IH.
Qed.

Lemma dot_not_kept : kebab_keep DOT = false.
Proof. reflexivity. Qed.

Section DotThenKebab.
Context {cm : CaseMapping}.

(** [toKebabCase] does not read the dot as a separator: it strips it, and
    the words on its two sides become one. *)
Lemma Kebab_on_dotted_words (ws : list jsstring) :
  Forall kebab_word ws ->
  Kebab.toKebabCase (VString (join [DOT] ws)) = Return (List.concat ws).
Proof.
  intros Hws. destruct ws as [|w0 rest]; [reflexivity|].
  assert (Hfree : forall p : char16 -> bool,
            p DOT = false ->
            (forall w, kebab_word w -> free p w) ->
            free p (join [DOT] (w0 :: rest))).
  { intros p Hd Hp. apply join_free; [now repeat constructor|].
    eapply Forall_impl; [|exact Hws]. exact Hp. }
  assert (Hcat : kebab_word (List.concat (w0 :: rest))).
  { split.
    - apply Forall_cons_iff in Hws as [[Hne _] _]. cbn.
      destruct w0; [congruence|discriminate].
    - apply Forall_concat. eapply Forall_impl; [|exact Hws].
      now intros w [_ Hw]. }
  rewrite Kebab_result_words.
  rewrite trim_free
    by (apply Hfree; [reflexivity|intros w Hw; apply (kebab_word_facts w Hw)]).
  rewrite Kebab_words_tokens.
  rewrite (replace_camel_free _ lower_or_digit_not_upper)
    by (apply Hfree; [reflexivity|intros w Hw; apply (kebab_word_facts w Hw)]).
  rewrite map_underscore_free
    by (apply Hfree; [reflexivity|intros w Hw; apply (kebab_word_facts w Hw)]).
  rewrite (filter_join_drop kebab_keep DOT _ dot_not_kept)
    by (eapply Forall_impl; [|exact Hws]; intros w Hw;
        apply (kebab_word_facts w Hw)).
  rewrite tokens_word by apply (kebab_word_facts _ Hcat).
  cbn [map join]. f_equal.
  rewrite <- toLowerCase_plain by apply (kebab_word_facts _ Hcat).
  apply toLowerCase_plain_id; apply (kebab_word_facts _ Hcat).
Qed.

End DotThenKebab.

(** X18. From kebab-case to dot.case and back is no round trip:
    [toKebabCase] run on the dot.case form of one of its results returns
    that result without its hyphens. *)
Theorem kebab_of_dot_of_kebab_result (cm : CaseMapping) (v : value) :
  exists r r',
    Kebab.toKebabCase v = Return r /\
    Dot.toDotCase (VString r) = Return r' /\
    Kebab.toKebabCase (VString r') = Return (filter (not_in is_HYPHEN) r).
Proof.
  destruct (Kebab_result v) as (ws & Hws & E).
  exists (join [HYPHEN] ws), (join [DOT] ws).
  split; [exact E|]. split; [now apply Dot_on_kebab_words|].
  rewrite (Kebab_on_dotted_words ws Hws). f_equal. symmetry.
  unfold is_HYPHEN. apply filter_join_token.
  eapply Forall_impl; [|exact Hws]. intros w Hw.
  apply (kebab_word_facts w Hw).
Qed.

(** ** From kebab-case to camelCase and back *)

Lemma last_split (w : jsstring) :
  w <> [] -> exists a x, w = a ++ [x].
Proof.
  intros H. destruct (exists_last H) as (a & x & E). eauto.
Qed.

Lemma lower_or_digit_upper_lower (c : char16) :
  is_lower c = true ->
  is_upper (ascii_upper c) = true /\ ascii_lower (ascii_upper c) = c /\
  is_plain c = true /\ is_alnum (ascii_upper c) = true.
Proof. cu_solve. Qed.

Lemma ld_facts (c : char16) :
  is_lower_or_digit c = true ->
  is_alnum c = true /\ ascii_lower c = c.
Proof. cu_solve. Qed.

Lemma map_lower_ld (t : jsstring) :
  all is_lower_or_digit t -> map ascii_lower t = t.
Proof.
  induction 1 as [|x l Hx _ IH]; [reflexivity|].
  cbn [map]. now rewrite IH, (proj2 (ld_facts x Hx)).
Qed.

Lemma chunk_replace (x : jsstring) :
  chunk x -> replace_camel is_lower_or_digit x = x.
Proof.
  intros (h & t & -> & Ht & _).
  rewrite (replace_camel_step _ lower_or_digit_not_upper).
  rewrite (replace_camel_free _ lower_or_digit_not_upper)
    by (revert Ht; apply all_free, lower_or_digit_not_upper).
  destruct t as [|c t]; cbn [head_upper]; [now rewrite andb_false_r|].
  apply Forall_cons_iff in Ht as [Hc _].
  now rewrite (lower_or_digit_not_upper c Hc), andb_false_r.
Qed.

Lemma chunk_last (x : jsstring) :
  chunk x -> exists a l, x = a ++ [l] /\ is_lower_or_digit l = true.
Proof.
  intros (h & t & -> & Ht & Hl). destruct t as [|c t].
  - destruct Hl as [Hl|Hl]; [congruence|]. exists [], h. auto.
  - destruct (last_split (c :: t)) as (a & l & E); [discriminate|].
    exists (h :: a), l. rewrite E. split; [reflexivity|].
    rewrite E in Ht. apply Forall_app in Ht as [_ Ht].
    now apply Forall_cons_iff in Ht as [Hl' _].
Qed.

(** The camelCase replacement finds the chunks again. *)
Lemma replace_camel_chunks (x : jsstring) (xs : list jsstring) :
  chunk x -> Forall capital_chunk xs ->
  replace_camel is_lower_or_digit (join [] (x :: xs))
  = join [SPACE] (x :: xs).
Proof.
  intros Hx Hxs. revert x Hx. induction Hxs as [|y ys [Hy Hu] _ IH];
    intros x Hx.
  - cbn [join]. now apply chunk_replace.
  - rewrite join_nil_cons. specialize (IH y Hy).
    destruct (chunk_last x Hx) as (a & l & Ex & Hl).
    assert (Ej : exists C Z, join [] (y :: ys) = C :: Z /\ is_upper C = true).
    { destruct Hy as (h & t & -> & _). cbn [head_upper] in Hu.
      rewrite join_nil_cons. cbn [app]. eauto. }
    destruct Ej as (C & Z & Ej & HC). rewrite Ej in *.
    rewrite Ex, <- app_assoc. cbn [app].
    rewrite (replace_camel_app_boundary _ lower_or_digit_not_upper)
      by assumption.
    rewrite IH, <- Ex, (chunk_replace x Hx).
    cbn [join]. reflexivity.
Qed.

Lemma kebab_word_chunk (w : jsstring) : kebab_word w -> chunk w.
Proof.
  intros [Hne Hw]. destruct w as [|h t]; [congruence|].
  apply Forall_cons_iff in Hw as [Hh Ht].
  exists h, t. auto.
Qed.

Lemma camel_safe_capitalized (w : jsstring) :
  kebab_word w -> camel_safe w ->
  capital_chunk (capitalized w) /\
  map ascii_lower (capitalized w) = w /\
  all is_alnum (capitalized w) /\ capitalized w <> [].
Proof.
  intros [_ Hw] [Hh Hlen]. destruct w as [|c [|c' t]];
    try (cbn in Hlen; lia).
  cbn [head_lower] in Hh. apply Forall_cons_iff in Hw as [_ Ht].
  destruct (lower_or_digit_upper_lower c Hh) as (H1 & H2 & _ & H4).
  cbn [capitalized]. repeat split.
  - exists (ascii_upper c), (c' :: t). repeat split; [assumption|].
    left. discriminate.
  - exact H1.
  - change (map ascii_lower (ascii_upper c :: c' :: t))
      with (ascii_lower (ascii_upper c) :: map ascii_lower (c' :: t)).
    now rewrite H2, (map_lower_ld _ Ht).
  - constructor; [assumption|]. revert Ht. apply Forall_impl.
    intros x Hx. apply (ld_facts x Hx).
  - discriminate.
Qed.

Section RoundTrip.
Context {cm : CaseMapping}.

Lemma Strict_build_capitalized (preserve : bool) (i : nat)
  (rest : list jsstring) :
  Forall kebab_word rest ->
  mapi_from (S i) (Strict.build preserve) rest = map capitalized rest.
Proof.
  intros Hrest. revert i.
  induction Hrest as [|w ws Hw _ IH]; intros i; [reflexivity|].
  cbn [mapi_from map]. rewrite (IH (S i)). f_equal.
  rewrite Strict_build_later by apply (kebab_word_facts w Hw).
  destruct Hw as [Hne Hw]. destruct w as [|c t]; [congruence|].
  cbn [charAt0 slice1 firstn skipn capitalized].
  apply Forall_cons_iff in Hw as [Hc _].
  rewrite toUpperCase_plain; [reflexivity|].
  repeat constructor. apply (kebab_word_chars c Hc).
Qed.

(** The strict [toCamelCase] on words of kebab-case joined by hyphens. *)
Lemma Strict_on_kebab_words (w0 : jsstring) (rest : list jsstring)
  (opts : options) :
  Forall kebab_word (w0 :: rest) ->
  Strict.toCamelCase (VString (join [HYPHEN] (w0 :: rest))) opts
  = Return (join [] (w0 :: map capitalized rest)).
Proof.
  intros Hws. destruct (kebab_joined w0 rest Hws) as (Et & Hup & Etok & _).
  rewrite Strict_result_words, Et.
  rewrite (Strict_resultWords_no_capitals _ Hup), Etok. f_equal.
  apply Forall_cons_iff in Hws as [Hw0 Hrest].
  unfold mapi. cbn [mapi_from].
  rewrite Strict_build_capitalized by assumption.
  rewrite Strict_build_first.
  now rewrite toLowerCase_plain_id by apply (kebab_word_facts w0 Hw0).
Qed.

(** [toKebabCase] on camelCase whose words can be found again. *)
Lemma Kebab_on_camel_words (w0 : jsstring) (rest : list jsstring) :
  Forall kebab_word (w0 :: rest) -> Forall camel_safe rest ->
  Kebab.toKebabCase (VString (join [] (w0 :: map capitalized rest)))
  = Return (join [HYPHEN] (w0 :: rest)).
Proof.
  intros Hws Hsafe. apply Forall_cons_iff in Hws as [Hw0 Hrest].
  assert (Hcap : Forall (fun w => capital_chunk (capitalized w) /\
                                  map ascii_lower (capitalized w) = w /\
                                  all is_alnum (capitalized w) /\
                                  capitalized w <> []) rest).
  { apply Forall_forall. intros w Hw. rewrite Forall_forall in Hrest, Hsafe.
    apply camel_safe_capitalized; auto. }
  set (X := w0 :: map capitalized rest).
  assert (HX : Forall (fun x => x <> [] /\ all is_alnum x) X).
  { constructor.
    - split; [apply Hw0|]. destruct Hw0 as [_ Hw0]. revert Hw0.
      apply Forall_impl. intros c Hc. apply (ld_facts c Hc).
    - apply Forall_map. eapply Forall_impl; [|exact Hcap].
      intros w (_ & _ & Ha & Hne). auto. }
  assert (Hal : all is_alnum (join [] X)).
  { rewrite join_nil_concat. apply Forall_concat.
    eapply Forall_impl; [|exact HX]. now intros x [_ Hx]. }
  assert (Hfree : forall p : char16 -> bool,
            (forall c, is_alnum c = true -> p c = false) ->
            free p (join [] X))
    by (intros p Hp; revert Hal; now apply all_free).
  rewrite Kebab_result_words.
  rewrite trim_free by (apply Hfree; intros c; cu_solve).
  rewrite Kebab_words_tokens.
  unfold X at 1. rewrite replace_camel_chunks;
    [|now apply kebab_word_chunk
     |apply Forall_map; eapply Forall_impl; [|exact Hcap]; now intros w (H & _)].
  fold X.
  assert (HS : forall p : char16 -> bool,
            p SPACE = true -> (forall c, is_alnum c = true -> p c = true) ->
            all p (join [SPACE] X)).
  { intros p Hsp Hp. apply Forall_forall. intros c Hc.
    apply join_incl in Hc as [[<-|[]]|(x & Hx & Hc)]; [assumption|].
    rewrite Forall_forall in HX. destruct (HX x Hx) as [_ Ha].
    unfold all in Ha. rewrite Forall_forall in Ha. auto. }
  rewrite map_underscore_free.
  2:{ apply Forall_forall. intros c Hc.
      apply join_incl in Hc as [[<-|[]]|(x & Hx & Hc)]; [reflexivity|].
      rewrite Forall_forall in HX. destruct (HX x Hx) as [_ Ha].
      unfold all in Ha. rewrite Forall_forall in Ha.
      specialize (Ha c Hc). revert Ha. unfold is_UNDERSCORE. cu_solve. }
  rewrite filter_all by (apply HS; [reflexivity|intros c; cu_solve]).
  rewrite tokens_join; [|reflexivity|].
  2:{ eapply Forall_impl; [|exact HX]. intros x [Hne Ha].
      split; [assumption|]. revert Ha. apply all_free. intros c. cu_solve. }
  f_equal. f_equal. unfold X. cbn [map]. f_equal.
  - apply map_lower_ld, Hw0.
  - rewrite map_map. apply map_id_in.
    eapply Forall_impl; [|exact Hcap]. now intros w (_ & E & _).
Qed.

End RoundTrip.

(** X19. From kebab-case to camelCase and back: when every word after
    the first starts with a lower-case letter and has two characters or
    more, the strict [toCamelCase], whatever the options, turns the words
    joined by hyphens into a string that [toKebabCase] turns back into
    them. *)
Theorem kebab_camel_round_trip (cm : CaseMapping) (w0 : jsstring)
  (rest : list jsstring) (opts : options) :
  Forall kebab_word (w0 :: rest) -> Forall camel_safe rest ->
  exists r,
    Strict.toCamelCase (VString (join [HYPHEN] (w0 :: rest))) opts
    = Return r /\
    Kebab.toKebabCase (VString r) = Return (join [HYPHEN] (w0 :: rest)).
Proof.
  intros Hws Hsafe. eexists. split.
  - now apply Strict_on_kebab_words.
  - now apply Kebab_on_camel_words.
Qed.

Lemma kebab_camel_round_trip_witness :
  exists r,
    Strict.toCamelCase (VString (js "user-id-v2")) (preserving true)
    = Return r /\
    Kebab.toKebabCase (VString r) = Return (js "user-id-v2").
Proof.
  apply (kebab_camel_round_trip latin1_case (js "user") [js "id"; js "v2"]).
  - repeat constructor; try discriminate;
      apply forallb_all; reflexivity.
  - repeat constructor; cbn; lia.
Defined.

(** ** Words in capital letters *)

Lemma replace_acronym_free_lower (s : jsstring) :
  free is_lower s -> replace_acronym s = s.
Proof.
  induction s as [|x t IH]; [reflexivity|]. intros H.
  assert (E : re_acronym_exec (x :: t) = None).
  { destruct (re_acronym_exec (x :: t)) as [[[g1 g2] r]|] eqn:E;
      [exfalso|reflexivity].
    apply re_acronym_exec_sound in E as (E & _ & _ & y & z & -> & _ & Hz).
    rewrite E in H. apply free_app in H as [_ H].
    apply free_app in H as [H _].
    apply free_cons in H as [_ H]. apply free_cons in H as [H _].
    congruence. }
  rewrite replace_acronym_eq, E. apply free_cons in H as [_ H].
  now rewrite (IH H).
Qed.

Lemma upper_char_facts (c : char16) :
  is_upper c = true ->
  is_plain c = true /\ is_space c = false /\ is_sep c = false /\
  is_lower c = false /\ is_lower_or_digit c = false /\
  is_upper_or_digit c = true /\ is_SPACE c = false /\
  ascii_upper (ascii_lower c) = c.
Proof. unfold is_SPACE. cu_solve. Qed.

Lemma capital_word_facts (w : jsstring) :
  capital_word w ->
  is_token is_sep w /\ all is_plain w /\ free is_lower w /\
  free is_lower_or_digit w /\ free is_space w /\ free is_SPACE w /\
  all is_upper_or_digit w.
Proof.
  intros [Hne Hw].
  assert (H : forall p : char16 -> bool,
             (forall c, is_upper c = true -> p c = false) -> free p w)
    by (intros p Hp; revert Hw; now apply all_free).
  assert (H' : forall p : char16 -> bool,
             (forall c, is_upper c = true -> p c = true) -> all p w)
    by (intros p Hp; revert Hw; now apply Forall_impl).
  repeat split; try assumption;
    try (apply H; intros c Hc; apply (upper_char_facts c Hc));
    apply H'; intros c Hc; apply (upper_char_facts c Hc).
Qed.

Lemma camel_tokens_capital_word (w : jsstring) :
  capital_word w -> camel_tokens w = [w].
Proof.
  intros Hw. destruct (capital_word_facts w Hw)
    as (Htok & _ & Hl & Hld & _ & Hsp & _).
  unfold camel_tokens.
  rewrite replace_acronym_free_lower by assumption.
  rewrite (replace_camel_free_class _ _ lower_or_digit_not_upper)
    by assumption.
  apply tokens_word. split; [apply Htok|assumption].
Qed.

Lemma capital_words_joined (d : char16) (w0 : jsstring)
  (rest : list jsstring) :
  is_sep d = true -> is_space d = false ->
  Forall capital_word (w0 :: rest) ->
  let J := join [d] (w0 :: rest) in
  trim J = J /\ Strict.resultWords J = w0 :: rest.
Proof.
  intros Hd Hsp Hws J.
  assert (Htok : Forall (is_token is_sep) (w0 :: rest)).
  { eapply Forall_impl; [|exact Hws]. intros w Hw.
    apply (capital_word_facts w Hw). }
  split.
  - apply trim_free. apply join_free; [now repeat constructor|].
    eapply Forall_impl; [|exact Hws]. intros w Hw.
    apply (capital_word_facts w Hw).
  - rewrite Strict_resultWords_tokens.
    rewrite (replace_camel_free_class _ _ lower_not_upper).
    + unfold J. rewrite tokens_join by assumption.
      apply flat_map_singleton. eapply Forall_impl; [|exact Hws].
      apply camel_tokens_capital_word.
    + apply join_free.
      * repeat constructor. apply (sep_facts d Hd).
      * eapply Forall_impl; [|exact Hws]. intros w Hw.
        apply (capital_word_facts w Hw).
Qed.

Section CapitalWords.
Context {cm : CaseMapping}.

Lemma Strict_build_capital_word (w : jsstring) (j : nat) :
  capital_word w ->
  Strict.build false w (S j) = title_case w /\
  Strict.build true w (S j) = w.
Proof.
  intros Hw. destruct (capital_word_facts w Hw)
    as (_ & Hp & _ & _ & _ & _ & Hud).
  destruct Hw as [Hne Hu]. unfold Strict.build. cbn [andb Nat.eqb].
  rewrite (toLowerCase_plain w Hp).
  destruct w as [|c t]; [congruence|].
  apply Forall_cons_iff in Hu as [Hc Ht].
  assert (Ecap : toUpperCase (charAt0 (map ascii_lower (c :: t)))
                 ++ slice1 (map ascii_lower (c :: t)) = title_case (c :: t)).
  { cbn [map charAt0 slice1 firstn skipn title_case].
    rewrite toUpperCase_plain.
    - cbn [map app]. f_equal. apply (upper_char_facts c Hc).
    - repeat constructor. apply ascii_case_facts, (upper_char_facts c Hc). }
  split; [exact Ecap|].
  assert (Eo : only is_upper_or_digit (c :: t) = true).
  { unfold only. cbn [truthy is_empty negb andb]. now apply forallb_all. }
  rewrite Eo. cbn [andb]. destruct t as [|c' t'].
  - cbn [List.length Nat.ltb Nat.leb]. rewrite Ecap. reflexivity.
  - reflexivity.
Qed.

End CapitalWords.

(** X20. Words in capital letters with one separator (an underscore or a
    hyphen) between them: the strict [toCamelCase] puts the first word in
    lower case; by default it leaves of every other word the first letter
    and puts the others in lower case, with [preserveAcronyms] it leaves
    every other word as it is. *)
Theorem strict_camel_capital_words (cm : CaseMapping) (d : char16)
  (w0 : jsstring) (rest : list jsstring) :
  is_sep d = true -> is_space d = false ->
  Forall capital_word (w0 :: rest) ->
  Strict.toCamelCase (VString (join [d] (w0 :: rest))) no_options
  = Return (map ascii_lower w0 ++ List.concat (map title_case rest)) /\
  Strict.toCamelCase (VString (join [d] (w0 :: rest))) (preserving true)
  = Return (map ascii_lower w0 ++ List.concat rest).
Proof.
  intros Hd Hsp Hws.
  destruct (capital_words_joined d w0 rest Hd Hsp Hws) as [Et EW].
  apply Forall_cons_iff in Hws as [Hw0 Hrest].
  rewrite !Strict_result_words, Et, EW.
  cbn [preserveAcronyms no_options preserving]. unfold mapi.
  cbn [mapi_from]. rewrite !join_nil_cons, !Strict_build_first.
  rewrite toLowerCase_plain by apply (capital_word_facts w0 Hw0).
  rewrite !join_nil_concat.
  assert (E : forall i,
             mapi_from (S i) (Strict.build false) rest = map title_case rest
             /\ mapi_from (S i) (Strict.build true) rest = rest).
  { clear -Hrest. induction Hrest as [|w ws Hw _ IH]; intros i;
      [split; reflexivity|].
    cbn [mapi_from map]. destruct (IH (S i)) as [-> ->].
    destruct (Strict_build_capital_word w i Hw) as [-> ->]. auto. }
  destruct (E 0%nat) as [-> ->]. auto.
Qed.

Lemma strict_camel_capital_words_witness :
  Strict.toCamelCase (VString (js "SCREEN_NAME_ID")) no_options
  = Return (js "screenNameId") /\
  Strict.toCamelCase (VString (js "SCREEN_NAME_ID")) (preserving true)
  = Return (js "screenNAMEID").
Proof.
  apply (strict_camel_capital_words latin1_case 95 (js "SCREEN")
           [js "NAME"; js "ID"]); try reflexivity.
  repeat constructor; try discriminate; apply forallb_all; reflexivity.
Defined.

Lemma map_underscore_join (d : char16) (ws : list jsstring) :
  Forall (free is_UNDERSCORE) ws ->
  map underscore_to_space (join [d] ws) = join [underscore_to_space d] ws.
Proof.
  intros H. rewrite map_join. cbn [map]. f_equal. now apply map_id_in,
    (Forall_impl _ map_underscore_free).
Qed.

Lemma upper_kept (c : char16) :
  is_upper c = true ->
  kebab_keep c = true /\ is_UNDERSCORE c = false /\ is_dotsep c = false /\
  is_alnum c = true.
Proof. unfold is_UNDERSCORE. cu_solve. Qed.

(** X21. Words in capital letters with one separator (an underscore or a
    hyphen) between them: [toKebabCase] returns the words in lower case
    with hyphens between them, [toDotCase] with dots between them. *)
Theorem kebab_dot_capital_words (cm : CaseMapping) (d : char16)
  (ws : list jsstring) :
  is_sep d = true -> is_space d = false -> Forall capital_word ws ->
  Kebab.toKebabCase (VString (join [d] ws))
  = Return (join [HYPHEN] (map (map ascii_lower) ws)) /\
  Dot.toDotCase (VString (join [d] ws))
  = Return (join [DOT] (map (map ascii_lower) ws)).
Proof.
  intros Hd Hsp Hws.
  destruct (sep_facts d Hd) as (Hld & Hl & Hu & Hk & Hs).
  assert (Hfree : forall p : char16 -> bool,
            p d = false -> (forall c, is_upper c = true -> p c = false) ->
            free p (join [d] ws)).
  { intros p Hpd Hp. apply join_free; [now repeat constructor|].
    eapply Forall_impl; [|exact Hws]. intros w [_ Hw]. revert Hw.
    now apply all_free. }
  assert (Et : trim (join [d] ws) = join [d] ws)
    by (apply trim_free, Hfree; [assumption|];
        intros c Hc; apply (upper_char_facts c Hc)).
  assert (Htok : forall sep : char16 -> bool,
            (forall c, is_upper c = true -> sep c = false) ->
            Forall (is_token sep) ws).
  { intros sep Hsep. eapply Forall_impl; [|exact Hws].
    intros w [Hne Hw]. split; [assumption|]. revert Hw.
    now apply all_free. }
  split.
  - rewrite Kebab_result_words, Et, Kebab_words_tokens.
    rewrite (replace_camel_free_class _ _ lower_or_digit_not_upper)
      by (apply Hfree; [assumption|];
          intros c Hc; apply (upper_char_facts c Hc)).
    rewrite map_underscore_join
      by (eapply Forall_impl; [|exact Hws]; intros w [_ Hw]; revert Hw;
          apply all_free; intros c Hc; apply (upper_kept c Hc)).
    rewrite filter_all.
    + rewrite tokens_join; [reflexivity|assumption|].
      apply Htok. intros c Hc. apply (upper_char_facts c Hc).
    + apply Forall_forall. intros c Hc.
      apply join_incl in Hc as [[<-|[]]|(w & Hw & Hc)]; [assumption|].
      rewrite Forall_forall in Hws. destruct (Hws w Hw) as [_ Ha].
      unfold all in Ha. rewrite Forall_forall in Ha.
      apply (upper_kept c (Ha c Hc)).
  - rewrite Dot_result_words, Et, Dot_words_tokens.
    rewrite (replace_camel_free_class _ _ lower_not_upper)
      by (apply Hfree; [assumption|];
          intros c Hc; apply (upper_char_facts c Hc)).
    rewrite replace_acronym_free_lower
      by (apply Hfree; [assumption|];
          intros c Hc; apply (upper_char_facts c Hc)).
    rewrite tokens_join;
      [|now apply dotsep_of_sep
       |apply Htok; intros c Hc; apply (upper_kept c Hc)].
    f_equal. f_equal. apply map_ext_in. intros w Hw.
    apply toLowerCase_plain. rewrite Forall_forall in Hws.
    apply (capital_word_facts w (Hws w Hw)).
Qed.

Lemma kebab_dot_capital_words_witness :
  Kebab.toKebabCase (VString (js "SCREEN_NAME")) = Return (js "screen-name") /\
  Dot.toDotCase (VString (js "SCREEN_NAME")) = Return (js "screen.name").
Proof.
  apply (kebab_dot_capital_words latin1_case 95 [js "SCREEN"; js "NAME"]);
    try reflexivity.
  repeat constructor; try discriminate; apply forallb_all; reflexivity.
Defined.
